(** * PyAnimats: the evolutionary loop, selection and state statistics

    A shallow embedding of [pyanimats.py] (selection, evaluation, recording,
    the generation loop with its snapshots, the command-line override table)
    and of the helpers of [fitness_functions.py] that enumerate and average
    over the states of a game.

    Conventions.
    - Python numbers: [int] is [Z]; [float] is read exactly, as [Q].  Nothing
      below depends on rounding.  [float('inf')] is a constructor of its own.
    - Python exceptions are values of [exn]; a computation that may raise
      returns a [result].  A [while] loop runs on fuel and answers
      [OutOfFuel] when the fuel is spent before the loop exits.
    - The module [random] and the wall clock are interfaces: the engine is
      verified against every implementation of them. *)

From Stdlib Require Import ZArith QArith Qround List Lia Bool String Ascii.
From Stdlib Require Import Sorted Permutation.
From stdpp Require Import gmap strings.
Import ListNotations.

Set Implicit Arguments.
Local Open Scope Z_scope.

(** ** Exceptions and results *)

Inductive exn : Type :=
| ZeroDivisionError
| ValueError
| IndexError
| TypeError
| UnboundLocalError.

Inductive result (A : Type) : Type :=
| Ok (a : A)
| Raise (e : exn)
| OutOfFuel.

Arguments Ok {A} a.
Arguments Raise {A} e.
Arguments OutOfFuel {A}.

(** A computation over a mutable state [S] that may raise. *)
Definition M (S A : Type) : Type := S -> result (A * S).

Definition ret {S A} (a : A) : M S A := fun s => Ok (a, s).

Definition bind {S A B} (m : M S A) (f : A -> M S B) : M S B :=
  fun s => match m s with
           | Ok (a, s') => f a s'
           | Raise e => Raise e
           | OutOfFuel => OutOfFuel
           end.

Definition raise {S A} (e : exn) : M S A := fun _ => Raise e.

Definition out_of_fuel {S A} : M S A := fun _ => OutOfFuel.

(** A pure step that may raise, run inside a stateful computation. *)
Definition lift {S A} (r : result A) : M S A :=
  fun s => match r with
           | Ok a => Ok (a, s)
           | Raise e => Raise e
           | OutOfFuel => OutOfFuel
           end.

Declare Scope py_scope.
Delimit Scope py_scope with py.
Notation "'let*' x ':=' c1 'in' c2" := (bind c1 (fun x => c2))
  (at level 10, x name, c1 at level 100, c2 at level 200) : py_scope.
Notation "'do*' c1 'in' c2" := (bind c1 (fun _ => c2))
  (at level 10, c1 at level 100, c2 at level 200) : py_scope.

(** ** Numbers *)

(** [a > b] on floats. *)
Definition Qgt_bool (a b : Q) : bool := negb (Qle_bool a b).

(** [a / b]: [ZeroDivisionError] when the divisor is zero. *)
Definition py_div (a b : Q) : result Q :=
  if Qeq_bool b 0 then Raise ZeroDivisionError else Ok (a / b)%Q.

(** [a % b] on ints: [ZeroDivisionError] when [b] is zero, else the
    remainder with the sign of [b]. *)
Definition py_mod (a b : Z) : result Z :=
  if Z.eqb b 0 then Raise ZeroDivisionError else Ok (a mod b).

(** [max(l)]: [ValueError] on the empty list, else the first maximal
    element (the running maximum is replaced only by a strictly greater
    item). *)
Definition py_max (l : list Q) : result Q :=
  match l with
  | [] => Raise ValueError
  | x :: t => Ok (fold_left (fun m y => if Qgt_bool y m then y else m) t x)
  end.

(** ** Animats *)

(** [animat.fitness]: the raw score and the value used by selection. *)
Record Fitness : Type := mkFitness { raw : Q; value : Q }.

(** What a fitness function returns: one number or a tuple of numbers. *)
Inductive score : Type :=
| Scalar (x : Q)
| Tuple (xs : list Q).

(** An animat object.  Objects of an earlier generation are never written
    after [process_gen] has cloned them, so the parent reference is held by
    value. *)
#[local] Set Warnings "-register-all".
Inductive Animat : Type :=
  mkAnimat {
      genome : list Z;
      gen : Z;
      fitness : Fitness;
      alt_fitness : list Q;
      parent : option Animat
    }.

(** ** The module [random] *)

(** [randbelow n] is the integer drawn by [random.choice] for a sequence of
    length [n]; [random] is [random.random()].  Both advance the one shared
    generator state. *)
Record RandomModule : Type :=
  mkRandom {
      rng : Type;
      randbelow : nat -> rng -> nat * rng;
      random : rng -> Q * rng
    }.

Section Selection.

Variable R : RandomModule.

Local Open Scope py_scope.

(** [random.choice(seq)]: [seq[i]] for the drawn index [i];
    [IndexError] on an empty sequence. *)
Definition choice {A} (seq : list A) : M (rng R) A :=
  fun s =>
    match seq with
    | [] => Raise IndexError
    | _ =>
        let (i, s') := randbelow R (length seq) s in
        match nth_error seq i with
        | Some x => Ok (x, s')
        | None => Raise IndexError
        end
    end.

Definition random_random : M (rng R) Q :=
  fun s => Ok (random R s).

(** The body of [select]'s [while not done] loop. *)
Fixpoint accept_loop (fuel : nat) (animats : list Animat) (max_fitness : Q)
  : M (rng R) Animat :=
  match fuel with
  | O => out_of_fuel
  | S fuel' =>
      let* candidate := choice animats in
      let* u := random_random in
      let* ratio := lift (py_div (value (fitness candidate)) max_fitness) in
      if Qle_bool u ratio then ret candidate
      else accept_loop fuel' animats max_fitness
  end.

(** [for i in range(k)]: one accepted candidate per slot, appended in
    order. *)
Fixpoint select_slots (fuel : nat) (animats : list Animat) (max_fitness : Q)
         (k : nat) : M (rng R) (list Animat) :=
  match k with
  | O => ret []
  | S k' =>
      let* candidate := accept_loop fuel animats max_fitness in
      let* chosen := select_slots fuel animats max_fitness k' in
      ret (candidate :: chosen)
  end.

(** [select(animats, k)]; [fuel] bounds the passes of each [while] loop. *)
Definition select (fuel : nat) (animats : list Animat) (k : Z)
  : M (rng R) (list Animat) :=
  let* max_fitness :=
    lift (py_max (map (fun animat => value (fitness animat)) animats)) in
  select_slots fuel animats max_fitness (Z.to_nat k).

End Selection.

(** ** The generation loop *)

(** [float('inf')] next to the integers it is compared with. *)
Inductive interval : Type :=
| Finite (z : Z)
| Infinity.

(** [dt >= i] for a finite elapsed time [dt]. *)
Definition reached (dt : Q) (i : interval) : bool :=
  match i with
  | Finite z => Qle_bool (inject_Z z) dt
  | Infinity => false
  end.

(** [gen % i == 0]: on [float('inf')] the remainder of a non-negative
    [gen] is [gen] itself and that of a negative one is [inf]. *)
Definition divides (gen : Z) (i : interval) : result bool :=
  match i with
  | Finite z =>
      match py_mod gen z with
      | Ok r => Ok (Z.eqb r 0)
      | Raise e => Raise e
      | OutOfFuel => OutOfFuel
      end
  | Infinity => Ok (Z.eqb gen 0)
  end.

(** The parameters of the experiment that [main] reads. *)
Record Experiment : Type :=
  mkExperiment {
      snapshot_frequency : Z;
      status_interval : Z;
      min_snapshots : Z;
      log_interval : Z;
      num_samples : Z;
      fitness_function : string;
      ngen : Z;
      popsize : Z;
      init_genome : list Z
    }.

(** One row of the Logbook: [gen] and the compiled maxima. *)
Record LogRecord : Type :=
  mkLogRecord {
      log_gen : Z;
      log_fitness_max : Q;
      log_real_fitness_max : Q
    }.

(** Where [save_data] writes: a snapshot directory
    [snapshot-<snapshot>-gen-<gen>] or the output directory itself. *)
Inductive directory : Type :=
| SnapshotDir (snapshot gen : Z)
| OutputDir.

(** What one call of [save_data] leaves on disk. *)
Record SavedData : Type :=
  mkSavedData {
      saved_dir : directory;
      saved_gen : Z;
      saved_lineages : list (list Animat)
    }.

(** The code of the repository and of its libraries that the loop calls and
    that lives outside [pyanimats.py]. *)
Record Collaborators (R : RandomModule) : Type :=
  mkCollaborators {
      (* the reshaping done by [Fitness.set]: [FITNESS_BASE ** raw] *)
      transform : Q -> Q;
      (* [Animat.mutate] on the genome, drawing from the shared generator *)
      mutate_genome : list Z -> rng R -> list Z * rng R;
      (* [toolbox.evaluate], the registered fitness function *)
      evaluate_fn : Animat -> score;
      (* the reading of the [n]-th call of [time()] *)
      now : nat -> Q
    }.

(** Modelled from the spec: [Fitness.set] of [animat.py], which is not part
    of the sources at hand.  The raw score is stored and the selection value
    is its exponential reshaping. *)
Definition Fitness_set {R} (C : Collaborators R) (x : Q) : Fitness :=
  {| raw := x; value := transform C x |}.

(** Modelled from the spec: the constructor [Animat(experiment, genome)] of
    [animat.py].  A generation-0 animat has generation index 0 and no parent;
    its fitness fields are unset until evaluation runs (held as zero). *)
Definition new_Animat (e : Experiment) (g : list Z) : Animat :=
  {| genome := g; gen := 0; fitness := {| raw := 0; value := 0 |};
     alt_fitness := []; parent := None |}.

(** Modelled from the spec: [Animat.lineage] of [animat.py], the animat
    followed by its ancestors along the parent references. *)
Fixpoint lineage (a : Animat) : list Animat :=
  a :: match parent a with
       | Some p => lineage p
       | None => []
       end.

(** The number of parent references between an animat and its root. *)
Fixpoint depth (a : Animat) : nat :=
  match parent a with
  | Some p => S (depth p)
  | None => O
  end.

(** The root ancestor. *)
Fixpoint root (a : Animat) : Animat :=
  match parent a with
  | Some p => root p
  | None => a
  end.

(** [seq[::step]] for a positive [step]. *)
Fixpoint stride_from {A} (skip step : nat) (l : list A) : list A :=
  match l with
  | [] => []
  | x :: t =>
      match skip with
      | O => x :: stride_from (Nat.pred step) step t
      | S skip' => stride_from skip' step t
      end
  end.

Definition stride {A} (step : Z) (l : list A) : list A :=
  stride_from 0 (Z.to_nat step) l.

(** [max(pop, key=lambda animat: animat.fitness.value)]: the first animat
    of maximal value. *)
Definition max_by_value (pop : list Animat) : result Animat :=
  match pop with
  | [] => Raise ValueError
  | x :: t =>
      Ok (fold_left
            (fun m y => if Qgt_bool (value (fitness y)) (value (fitness m))
                        then y else m) t x)
  end.

Section Engine.

Variable R : RandomModule.
Variable C : Collaborators R.
Variable experiment : Experiment.
(* arguments['--all-lineages'] *)
Variable SAVE_ALL_LINEAGES : bool.

Local Open Scope py_scope.

(** The mutable state that [main] and its helper closures share: the
    generator, the wall clock (the number of [time()] calls made so far),
    the Logbook and the directories written. *)
Record World : Type :=
  mkWorld {
      w_rng : rng R;
      w_clock : nat;
      w_logbook : list LogRecord;
      w_saved : list SavedData
    }.

Definition with_rng {A} (m : M (rng R) A) : M World A :=
  fun w =>
    match m (w_rng w) with
    | Ok (a, s) =>
        Ok (a, {| w_rng := s; w_clock := w_clock w;
                  w_logbook := w_logbook w; w_saved := w_saved w |})
    | Raise e => Raise e
    | OutOfFuel => OutOfFuel
    end.

Definition time : M World Q :=
  fun w =>
    Ok (now C (w_clock w),
        {| w_rng := w_rng w; w_clock := S (w_clock w);
           w_logbook := w_logbook w; w_saved := w_saved w |}).

Definition logbook_record (r : LogRecord) : M World unit :=
  fun w =>
    Ok (tt, {| w_rng := w_rng w; w_clock := w_clock w;
               w_logbook := w_logbook w ++ [r]; w_saved := w_saved w |}).

Definition write_data (d : SavedData) : M World unit :=
  fun w =>
    Ok (tt, {| w_rng := w_rng w; w_clock := w_clock w;
               w_logbook := w_logbook w; w_saved := w_saved w ++ [d] |}).

Definition MIN_SNAPSHOTS : Z := min_snapshots experiment.

Definition SNAPSHOT_TIME_INTERVAL : interval :=
  if snapshot_frequency experiment * 60 <=? 0 then Infinity
  else Finite (snapshot_frequency experiment * 60).

Definition SNAPSHOT_GENERATION_INTERVAL : interval :=
  if min_snapshots experiment <=? 0 then Infinity
  else Finite (ngen experiment / min_snapshots experiment).

(** [save_data]: the lineages of the fittest animat, or of the whole
    population, are collected, sampled with a stride and written with the
    generation.  The JSON and pickle encodings, and the Hall of Fame that is
    pickled along, are not part of the model. *)
Definition save_data (output_dir : directory) (gen : Z)
           (pop : list Animat) : M World unit :=
  let* to_save :=
    (if SAVE_ALL_LINEAGES then ret pop
     else let* best := lift (max_by_value pop) in ret [best]) in
  let step := if num_samples experiment <=? 0 then 1
              else Z.max (gen / num_samples experiment) 1 in
  let lineages := map (fun animat => stride step (lineage animat)) to_save in
  write_data {| saved_dir := output_dir; saved_gen := gen;
                saved_lineages := lineages |}.

(** [fitness[0]] and [fitness[1:]] on what the fitness function
    returned. *)
Definition item0 (f : score) : result Q :=
  match f with
  | Scalar _ => Raise TypeError
  | Tuple [] => Raise IndexError
  | Tuple (x :: _) => Ok x
  end.

Definition slice1 (f : score) : result (list Q) :=
  match f with
  | Scalar _ => Raise TypeError
  | Tuple xs => Ok (tl xs)
  end.

(** The evaluations write the fitness fields of the animats in place; they
    return the population as it is afterwards. *)
Fixpoint multi_fit_evaluate (pop : list Animat) : result (list Animat) :=
  match pop with
  | [] => Ok []
  | animat :: rest =>
      let fitness_ := evaluate_fn C animat in
      match item0 fitness_, slice1 fitness_ with
      | Ok x, Ok xs =>
          match multi_fit_evaluate rest with
          | Ok rest' =>
              Ok ({| genome := genome animat; gen := gen animat;
                     fitness := Fitness_set C x; alt_fitness := xs;
                     parent := parent animat |} :: rest')
          | Raise e => Raise e
          | OutOfFuel => OutOfFuel
          end
      | Raise e, _ => Raise e
      | _, Raise e => Raise e
      | _, _ => OutOfFuel
      end
  end.

Fixpoint single_fit_evaluate (pop : list Animat) : result (list Animat) :=
  match pop with
  | [] => Ok []
  | animat :: rest =>
      match evaluate_fn C animat with
      | Scalar x =>
          match single_fit_evaluate rest with
          | Ok rest' =>
              Ok ({| genome := genome animat; gen := gen animat;
                     fitness := Fitness_set C x;
                     alt_fitness := alt_fitness animat;
                     parent := parent animat |} :: rest')
          | Raise e => Raise e
          | OutOfFuel => OutOfFuel
          end
      | Tuple _ => Raise TypeError
      end
  end.

(** [evaluate]: chosen once, by the name of the fitness function.  Both
    evaluations take the generation and do not read it. *)
Definition evaluate (pop : list Animat) : result (list Animat) :=
  if String.eqb (fitness_function experiment) "mat"
  then multi_fit_evaluate pop
  else single_fit_evaluate pop.

(** [mstats.compile(pop)]: the maxima of the raw and of the reshaped
    fitness; [np.max] raises [ValueError] on an empty population.  The
    maxima of the trial counters and of the auxiliary metrics are compiled
    the same way and are left out. *)
Definition compile (pop : list Animat) : result (Q * Q) :=
  match py_max (map (fun animat => raw (fitness animat)) pop),
        py_max (map (fun animat => value (fitness animat)) pop) with
  | Ok a, Ok b => Ok (a, b)
  | Raise e, _ => Raise e
  | _, Raise e => Raise e
  | _, _ => OutOfFuel
  end.

(** [record(pop, gen)].  [hall_of_fame.update(pop)] works on a DEAP object
    that only [save_data] reads; it is left out of the world. *)
Definition record (pop : list Animat) (gen : Z) : M World unit :=
  let* r := lift (py_mod gen (log_interval experiment)) in
  if r =? 0 then
    let* stats := lift (compile pop) in
    logbook_record {| log_gen := gen; log_fitness_max := fst stats;
                      log_real_fitness_max := snd stats |}
  else ret tt.

(** The variation loop: [toolbox.mutate(offspring[i])] then
    [offspring[i].parent = pop[i]]. *)
Fixpoint vary (offspring pop : list Animat) : M (rng R) (list Animat) :=
  match offspring, pop with
  | animat :: offspring', p :: pop' =>
      fun s =>
        let (g, s') := mutate_genome C (genome animat) s in
        (let* rest := vary offspring' pop' in
         ret ({| genome := g; gen := gen animat; fitness := fitness animat;
                 alt_fitness := alt_fitness animat; parent := Some p |}
                :: rest)) s'
  | _, _ => ret []
  end.

(** [process_gen(pop, gen)].  [toolbox.clone] is a deep copy: the clone is
    a new object with the fields of the selected animat. *)
Definition process_gen (fuel : nat) (pop : list Animat) (gen : Z)
  : M World (list Animat) :=
  (* Selection. *)
  let* pop := with_rng (select R fuel pop (Z.of_nat (length pop))) in
  (* Cloning, and tagging with the new generation number. *)
  let offspring :=
    map (fun animat =>
           {| genome := genome animat; gen := gen;
              fitness := fitness animat; alt_fitness := alt_fitness animat;
              parent := parent animat |}) pop in
  (* Variation. *)
  let* offspring := with_rng (vary offspring pop) in
  (* Evaluation. *)
  let* offspring := lift (evaluate offspring) in
  (* Recording. *)
  do* record offspring gen in
  ret offspring.

(** The locals of [main] that the loop body rewrites. *)
Record Locals : Type :=
  mkLocals {
      population : list Animat;
      snapshot : Z;
      snap_duration_start : Q
    }.

(** One pass of [for gen in range(1, experiment.ngen + 1)]. *)
Definition loop_body (fuel : nat) (l : Locals) (gen : Z) : M World Locals :=
  (* Evolution. *)
  let* population := process_gen fuel (population l) gen in
  (* Reporting. *)
  let* r := lift (py_mod gen (status_interval experiment)) in
  do* (if r =? 0 then do* time in do* time in ret tt else ret tt) in
  (* Snapshotting. *)
  let* current_time := time in
  let* due :=
    (if reached (current_time - snap_duration_start l)%Q
                SNAPSHOT_TIME_INTERVAL
     then ret true
     else lift (divides gen SNAPSHOT_GENERATION_INTERVAL)) in
  if due : bool then
    do* save_data (SnapshotDir (snapshot l) gen) gen population in
    let* t := time in
    ret {| population := population; snapshot := snapshot l + 1;
           snap_duration_start := t |}
  else
    ret {| population := population; snapshot := snapshot l;
           snap_duration_start := snap_duration_start l |}.

(** [n] passes of the loop, the first one at generation [gen]. *)
Fixpoint loop (fuel : nat) (n : nat) (gen : Z) (l : Locals) : M World Locals :=
  match n with
  | O => ret l
  | S n' =>
      let* l' := loop_body fuel l gen in
      loop fuel n' (gen + 1) l'
  end.

(** From the start of the simulation to the head of the loop: the initial
    population is created, evaluated and recorded. *)
Definition setup : M World Locals :=
  do* time in (* sim_start *)
  let population :=
    repeat (new_Animat experiment (init_genome experiment))
           (Z.to_nat (popsize experiment)) in
  do* time in (* log_duration_start *)
  let* population := lift (evaluate population) in
  do* record population 0 in
  do* time in (* print_status *)
  do* time in (* log_duration_start *)
  let* t := time in (* snap_duration_start *)
  ret {| population := population; snapshot := 1;
         snap_duration_start := t |}.

(** The state of the run after [n] generations. *)
Definition generations (fuel : nat) (n : nat) : M World Locals :=
  let* l := setup in
  loop fuel n 1 l.

(** The simulation part of [main]: all [ngen] generations, then the final
    write.  The loop variable [gen] is unbound when the loop ran no
    pass.  Printing and profiling are left out; the [--list-fitness] mode
    returns before any of this. *)
Definition main (fuel : nat) : M World Locals :=
  let* l := generations fuel (Z.to_nat (ngen experiment)) in
  do* time in (* sim_end *)
  let* gen := (if ngen experiment <=? 0 then raise UnboundLocalError
               else ret (ngen experiment)) in
  do* save_data OutputDir gen (population l) in
  ret l.

End Engine.

(** ** The states of a game ([fitness_functions.py]) *)

(** The state of the units at one timestep. *)
Definition state : Type := list Z.

(** [game.reshape(-1, game.shape[-1])]: the timesteps of all trials, one
    row each. *)
Definition reshape (game : list (list state)) : list state := concat game.

(** The order of [np.lexsort(game.T)]: the last column is the primary key,
    the first column the least significant one. *)
Fixpoint lex_compare (a b : list Z) : comparison :=
  match a, b with
  | [], [] => Eq
  | [], _ :: _ => Lt
  | _ :: _, [] => Gt
  | x :: a', y :: b' =>
      match x ?= y with
      | Eq => lex_compare a' b'
      | c => c
      end
  end.

Definition key_compare (r1 r2 : state) : comparison :=
  lex_compare (rev r1) (rev r2).

Definition key_leb (r1 r2 : state) : bool :=
  match key_compare r1 r2 with
  | Gt => false
  | _ => true
  end.

(** A stable insertion sort of indexed rows. *)
Fixpoint insert_row (p : nat * state) (l : list (nat * state))
  : list (nat * state) :=
  match l with
  | [] => [p]
  | q :: t => if key_leb (snd p) (snd q) then p :: q :: t
              else q :: insert_row p t
  end.

Definition sort_rows (l : list (nat * state)) : list (nat * state) :=
  fold_right insert_row [] l.

(** [np.lexsort(game.T)]: the indices of the rows in sorted order. *)
Definition lexsort (game : list state) : list nat :=
  map fst (sort_rows (combine (seq 0 (length game)) game)).

(** [game[idx, :]] *)
Definition take_rows (game : list state) (idx : list nat) : list state :=
  map (fun i => nth i game []) idx.

Definition state_eqb (a b : state) : bool :=
  match lex_compare a b with
  | Eq => true
  | _ => false
  end.

(** [np.where(np.any(np.diff(sorted_game, axis=0), 1))[0]]: the indices
    [i] at which row [i + 1] differs from row [i]. *)
Fixpoint diff_idx_from (i : Z) (rows : list state) : list Z :=
  match rows with
  | a :: (b :: _) as t =>
      if state_eqb a b then diff_idx_from (i + 1) t
      else i :: diff_idx_from (i + 1) t
  | _ => []
  end.

(** [np.diff(a)]: the differences of neighbours. *)
Fixpoint np_diff (a : list Z) : list Z :=
  match a with
  | x :: (y :: _) as t => (y - x) :: np_diff t
  | _ => []
  end.

(** [seq[-1]] *)
Definition last_item {A} (l : list A) : result A :=
  match rev l with
  | x :: _ => Ok x
  | [] => Raise IndexError
  end.

(** [seq[:n]]: a negative [n] counts from the end. *)
Definition slice_to {A} (l : list A) (n : Z) : list A :=
  if n <? 0 then firstn (length l - Z.to_nat (- n)) l
  else firstn (Z.to_nat n) l.

(** [sorted(pairs, key=lambda x: x[1], reverse=True)]: descending in the
    count, and stable: pairs of equal count keep their order. *)
Fixpoint insert_desc (p : state * Z) (l : list (state * Z))
  : list (state * Z) :=
  match l with
  | [] => [p]
  | q :: t => if snd q <=? snd p then p :: q :: t
              else q :: insert_desc p t
  end.

Definition sorted_desc (l : list (state * Z)) : list (state * Z) :=
  fold_right insert_desc [] l.

(** The pairs that [zip(unique_states, counts)] yields. *)
Definition states_and_counts (game : list (list state))
  : result (list (state * Z)) :=
  (* Get the array in 2D form. *)
  let game := reshape game in
  (* Lexicographically sort. *)
  let sorted_game := take_rows game (lexsort game) in
  (* Get the indices where a new state appears. *)
  let diff_idx := diff_idx_from 0 sorted_game in
  (* Get the unique states. *)
  match last_item sorted_game with
  | Ok final =>
      let unique_states :=
        map (fun i => nth (Z.to_nat i) sorted_game []) diff_idx ++ [final] in
      (* Get the number of occurences of each unique state. *)
      let counts := np_diff (-1 :: diff_idx) in
      Ok (combine unique_states counts)
  | Raise e => Raise e
  | OutOfFuel => OutOfFuel
  end.

(** [_most_common_states(game, n)]; [None] is the default [n=False]. *)
Definition _most_common_states (game : list (list state)) (n : option Z)
  : result (list (state * Z)) :=
  match states_and_counts game with
  | Ok pairs =>
      (* Return all by default: [counts.size] is the number of pairs. *)
      let size := Z.of_nat (length pairs) in
      let n := match n with
               | None => size
               | Some n => if size <? n then size else n
               end in
      (* Return the (row, count) pairs sorted by count. *)
      Ok (slice_to (sorted_desc pairs) n)
  | Raise e => Raise e
  | OutOfFuel => OutOfFuel
  end.

(** A numpy float: a number or [nan]. *)
Inductive np_float : Type :=
| Num (q : Q)
| NaN.

(** [sums.mean()]: the sum over the size; [nan] on an empty array. *)
Definition mean (sums : list Q) : np_float :=
  match sums with
  | [] => NaN
  | _ => Num (fold_right Qplus 0%Q sums / inject_Z (Z.of_nat (length sums)))%Q
  end.

Section Averaging.

(* the animat handed to a fitness function, and its [play_game] *)
Variable Individual : Type.
Variable play_game : Individual -> list (list state).

(** The [wrapper] that [_average_over_game_states(func, n)] returns. *)
Definition _average_over_game_states
           (func : Individual -> state -> Z -> Q) (n : option Z)
           (ind : Individual) : result np_float :=
  let game := play_game ind in
  match _most_common_states game n with
  | Ok unique_states_and_counts =>
      let sums :=
        map (fun sc : state * Z => func ind (fst sc) (snd sc))
            unique_states_and_counts in
      Ok (mean sums)
  | Raise e => Raise e
  | OutOfFuel => OutOfFuel
  end.

End Averaging.

(** ** Command-line overrides *)

(** The types named in [cli_opt_to_param]. *)
Inductive ptype : Type :=
| Pint
| Pstr
| Pfloat.

(** A converted option value. *)
Inductive pvalue : Type :=
| Vint (z : Z)
| Vstr (s : string)
| Vfloat (q : Q).

(** Map CLI options to experiment parameter names and types, in the order
    of the source. *)
Definition cli_opt_to_param : list (string * (string * ptype)) :=
  [ ("--rng-seed",        ("rng_seed", Pint));
    ("--snapshot",        ("snapshot_frequency", Pint));
    ("--status-interval", ("status_interval", Pint));
    ("--min-snapshots",   ("min_snapshots", Pint));
    ("--log-interval",    ("log_interval", Pint));
    ("--num-samples",     ("num_samples", Pint));
    ("--fitness",         ("fitness_function", Pstr));
    ("--num-gen",         ("ngen", Pint));
    ("--pop-size",        ("popsize", Pint));
    ("--init-genome",     ("init_genome", Pstr));
    ("--jumpstart",       ("init_start_codons", Pint));
    ("--num-sensors",     ("num_sensors", Pint));
    ("--num-hidden",      ("num_hidden", Pint));
    ("--num-motors",      ("num_motors", Pint));
    ("--world-width",     ("world_width", Pint));
    ("--world-height",    ("world_height", Pint));
    ("--mut-prob",        ("mutation_prob", Pfloat));
    ("--dup-prob",        ("duplication_prob", Pfloat));
    ("--del-prob",        ("deletion_prob", Pfloat));
    ("--min-dup-del",     ("min_dup_del_width", Pint));
    ("--max-dup-del",     ("min_dup_del_width", Pint));
    ("--min-length",      ("min_genome_length", Pint));
    ("--max-length",      ("max_genome_length", Pint)) ]%string.

Section Overrides.

(* the builtins [int] and [float] on a string; [None] is [ValueError] *)
Variable int_of_string : string -> option Z.
Variable float_of_string : string -> option Q.

(** [param[1](arguments[opt])] *)
Definition convert (t : ptype) (s : string) : result pvalue :=
  match t with
  | Pint => match int_of_string s with
            | Some z => Ok (Vint z)
            | None => Raise ValueError
            end
  | Pstr => Ok (Vstr s)
  | Pfloat => match float_of_string s with
              | Some q => Ok (Vfloat q)
              | None => Raise ValueError
              end
  end.

(** The dict comprehension over [table]: an option that docopt left at
    [None] (here: absent from [arguments]) is skipped, and a later entry
    with the same parameter name overwrites an earlier one. *)
Fixpoint overrides_from (table : list (string * (string * ptype)))
         (arguments : gmap string string) (acc : gmap string pvalue)
  : result (gmap string pvalue) :=
  match table with
  | [] => Ok acc
  | (opt, (param, t)) :: table' =>
      match arguments !! opt with
      | None => overrides_from table' arguments acc
      | Some s =>
          match convert t s with
          | Ok v => overrides_from table' arguments (<[param := v]> acc)
          | Raise e => Raise e
          | OutOfFuel => OutOfFuel
          end
      end
  end.

Definition cli_overrides (arguments : gmap string string)
  : result (gmap string pvalue) :=
  overrides_from cli_opt_to_param arguments ∅.

End Overrides.

(** ** Instances to run the definitions on *)

(** A generator that replays a tape: [randbelow n] reduces the next entry
    below [n], [random] reads it as a number of tenths.  The exhausted tape
    answers zero. *)
Definition tape_random : RandomModule :=
  {| rng := list nat;
     randbelow := fun n s =>
                    match s with
                    | [] => (O, [])
                    | x :: t => (Nat.modulo x n, t)
                    end;
     random := fun s =>
                 match s with
                 | [] => (0%Q, [])
                 | x :: t => (Z.of_nat x # 10, t)
                 end |}.

(** Decimal digits with an optional sign, as [int] reads them. *)
Definition digit_of (c : ascii) : option Z :=
  let n := Z.of_nat (nat_of_ascii c) in
  if (48 <=? n) && (n <=? 57) then Some (n - 48) else None.

Fixpoint digits_from (acc : Z) (s : string) : option Z :=
  match s with
  | EmptyString => Some acc
  | String c s' =>
      match digit_of c with
      | Some d => digits_from (10 * acc + d) s'
      | None => None
      end
  end.

Definition decimal_int (s : string) : option Z :=
  match s with
  | EmptyString => None
  | String "-"%char (String _ _ as s') => option_map Z.opp (digits_from 0 s')
  | String _ _ => digits_from 0 s
  end.

(** Whole numbers only, which is all the examples below need. *)
Definition decimal_float (s : string) : option Q :=
  option_map inject_Z (decimal_int s).

(** ** Rejection sampling, in the words of the specification *)

Section SelectionSpec.

Variable R : RandomModule.
Variable animats : list Animat.

(** "Draw a uniformly random candidate" from the full population. *)
Inductive draws_candidate : rng R -> Animat -> rng R -> Prop :=
| draw_candidate s i s' c :
    randbelow R (length animats) s = (i, s') ->
    nth_error animats i = Some c ->
    draws_candidate s c s'.

(** "Accept it with probability [candidate.fitness / max_fitness];
    otherwise redraw": the candidate is kept exactly when the next
    uniform draw is at most the ratio. *)
Inductive fills_slot (max_fitness : Q) : rng R -> Animat -> rng R -> Prop :=
| slot_accept s c s1 u s2 :
    draws_candidate s c s1 ->
    random R s1 = (u, s2) ->
    (u <= value (fitness c) / max_fitness)%Q ->
    fills_slot max_fitness s c s2
| slot_redraw s c s1 u s2 c' s3 :
    draws_candidate s c s1 ->
    random R s1 = (u, s2) ->
    ~ (u <= value (fitness c) / max_fitness)%Q ->
    fills_slot max_fitness s2 c' s3 ->
    fills_slot max_fitness s c' s3.

(** "Repeat until [k] accepted." *)
Inductive rejection_sampling (max_fitness : Q)
  : nat -> rng R -> list Animat -> rng R -> Prop :=
| sampling_done s : rejection_sampling max_fitness O s [] s
| sampling_slot k s c s1 chosen s2 :
    fills_slot max_fitness s c s1 ->
    rejection_sampling max_fitness k s1 chosen s2 ->
    rejection_sampling max_fitness (S k) s (c :: chosen) s2.

(** "[max_fitness = max(transformed fitness over population)]" *)
Definition is_max_fitness (m : Q) : Prop :=
  (exists a, In a animats /\ value (fitness a) = m) /\
  Forall (fun a => (value (fitness a) <= m)%Q) animats.

End SelectionSpec.

(** An example population member with the given selection value. *)
Definition sample_animat (v : Q) : Animat :=
  {| genome := [0; 1]; gen := 0; fitness := {| raw := 0; value := v |};
     alt_fitness := []; parent := None |}.

(** Collaborators to run the loop with: scores are reshaped in base 2 on
    their integer part, mutation overwrites the first codon with the next
    draw, and the clock advances one second per reading. *)
Definition sample_mutate (g : list Z) (s : rng tape_random)
  : list Z * rng tape_random :=
  match s with
  | [] => (g, [])
  | x :: t => (Z.of_nat x :: tl g, t)
  end.

(** The fitness function is the generation index. *)
Definition sample_single : Collaborators tape_random :=
  {| transform := fun x => Qpower 2 (Qfloor x);
     mutate_genome := sample_mutate;
     evaluate_fn := fun a => Scalar (inject_Z (gen a));
     now := fun n => inject_Z (Z.of_nat n) |}.

(** The fitness function is the generation index, with two further
    metrics. *)
Definition sample_multi : Collaborators tape_random :=
  {| transform := fun x => Qpower 2 (Qfloor x);
     mutate_genome := sample_mutate;
     evaluate_fn := fun a => Tuple [inject_Z (gen a); 7; 9]%Q;
     now := fun n => inject_Z (Z.of_nat n) |}.

(** The experiment of the end-to-end scenario, by its log interval, its
    minimum number of snapshots and its number of generations: four
    animats, wall-clock snapshots off. *)
Definition sample_experiment (li ms ng : Z) : Experiment :=
  {| snapshot_frequency := 0; status_interval := 1; min_snapshots := ms;
     log_interval := li; num_samples := 0; fitness_function := "nat";
     ngen := ng; popsize := 4; init_genome := [0; 1] |}.

(** The world at the start of [main]: a generator state, the clock at its
    first reading, an empty Logbook, nothing written. *)
Definition initial_world (R : RandomModule) (s : rng R) : World R :=
  {| w_rng := s; w_clock := O; w_logbook := []; w_saved := [] |}.

(** ** What the loop is to leave behind *)

(** The [n] generations from [g] on, and the generations [0..n]. *)
Fixpoint gens_from (g : Z) (n : nat) : list Z :=
  match n with
  | O => []
  | S n' => g :: gens_from (g + 1) n'
  end.

Definition generations_upto (n : Z) : list Z :=
  gens_from 0 (S (Z.to_nat n)).

(** The generations among [gens] that the Logbook is to hold. *)
Definition logged (e : Experiment) (gens : list Z) : list Z :=
  List.filter (fun g => g mod log_interval e =? 0) gens.

(** An animat [n] parent references away from a generation-0 animat that
    has no parent, every animat on the way carrying its generation
    number. *)
Fixpoint descends (n : nat) (a : Animat) : Prop :=
  match n with
  | O => gen a = 0 /\ parent a = None
  | S n' => gen a = Z.of_nat (S n') /\
            exists p, parent a = Some p /\ descends n' p
  end.

(** Two versions of an animat with the same place in the lineage. *)
Definition same_ancestry (a a' : Animat) : Prop :=
  gen a' = gen a /\ parent a' = parent a.

(** An offspring of generation [g] whose parent is a member of [pop]. *)
Definition child_of (pop : list Animat) (g : Z) (o : Animat) : Prop :=
  gen o = g /\ exists p, parent o = Some p /\ In p pop.

(** The wall-clock interval is never reached between two readings of the
    clock. *)
Definition never_by_time {R} (C : Collaborators R) (e : Experiment) : Prop :=
  forall i j : nat,
    reached (now C j - now C i)%Q (SNAPSHOT_TIME_INTERVAL e) = false.

(** The directory and the generation of each write. *)
Definition written {R} (w : World R) : list (directory * Z) :=
  map (fun d => (saved_dir d, saved_gen d)) (w_saved w).

(** The snapshots that the generation count alone triggers over [n]
    generations from [gen] on, the next snapshot being number
    [snapshot]. *)
Fixpoint by_generation_count (i : interval) (n : nat) (gen snapshot : Z)
  : list (directory * Z) :=
  match n with
  | O => []
  | S n' =>
      match divides gen i with
      | Ok true => (SnapshotDir snapshot gen, gen)
                     :: by_generation_count i n' (gen + 1) (snapshot + 1)
      | _ => by_generation_count i n' (gen + 1) snapshot
      end
  end.

(** The generations in the Logbook at the end of a run. *)
Definition logbook_gens {R A} (r : result (A * World R)) : option (list Z) :=
  match r with
  | Ok (_, w) => Some (map log_gen (w_logbook w))
  | _ => None
  end.

(** The quotient rounded up. *)
Definition ceil_div (a b : Z) : Z := - ((- a) / b).

(** ** The ranking of the states of a game *)

(** [a] comes strictly before [b] in the order of [np.lexsort]. *)
Definition key_lt (a b : state) : Prop := key_compare a b = Lt.

(** [p] is ranked before [q]: a greater count, or the same count and a
    state that [np.lexsort] puts first. *)
Definition ranks_before (p q : state * Z) : Prop :=
  snd q < snd p \/ (snd p = snd q /\ key_lt (fst p) (fst q)).

(** The distinct states that a game visits. *)
Definition distinct_states (game : list (list state)) : list state :=
  nodup (List.list_eq_dec Z.eq_dec) (reshape game).

(** A metric that reads the first unit of the state. *)
Definition first_unit (ind : unit) (s : state) (count : Z) : Q :=
  inject_Z (hd 0 s).

(** The order that [sort_rows] puts indexed rows in. *)
Definition rows_le (p q : nat * state) : Prop :=
  key_leb (snd p) (snd q) = true.

(** The last row of every run of equal neighbours but the final run: the
    rows that [diff_idx] points at. *)
Fixpoint run_ends (rows : list state) : list state :=
  match rows with
  | a :: (b :: _) as t =>
      if state_eqb a b then run_ends t else a :: run_ends t
  | _ => []
  end.

(** What [multi_fit_evaluate] is to leave in an animat: element 0 of the
    tuple through [Fitness.set], the rest as [alt_fitness], nothing else
    touched. *)
Definition stores_objectives {R} (C : Collaborators R)
           (animat animat' : Animat) : Prop :=
  exists x xs,
    evaluate_fn C animat = Tuple (x :: xs) /\
    fitness animat' = Fitness_set C x /\
    alt_fitness animat' = xs /\
    genome animat' = genome animat /\
    gen animat' = gen animat /\
    parent animat' = parent animat.

(** The animat with other auxiliary metrics. *)
Definition set_alt_fitness (alt : Animat -> list Q) (a : Animat) : Animat :=
  {| genome := genome a; gen := gen a; fitness := fitness a;
     alt_fitness := alt a; parent := parent a |}.

(** The outcome of a computation, read through a change of its answer. *)
Definition map_result {A B S} (f : A -> B) (r : result (A * S))
  : result (B * S) :=
  match r with
  | Ok (a, s) => Ok (f a, s)
  | Raise e => Raise e
  | OutOfFuel => OutOfFuel
  end.

(** The end-to-end scenario with a given status interval: log interval 1,
    wall-clock snapshots off. *)
Definition sample_status_experiment (si ms ng : Z) : Experiment :=
  {| snapshot_frequency := 0; status_interval := si; min_snapshots := ms;
     log_interval := 1; num_samples := 0; fitness_function := "nat";
     ngen := ng; popsize := 4; init_genome := [0; 1] |}.

(** Snapshots numbered from [s] on without gap, at generations that
    increase strictly inside [lo, hi). *)
Fixpoint numbered (s lo hi : Z) (l : list (directory * Z)) : Prop :=
  match l with
  | [] => True
  | (d, g) :: rest =>
      d = SnapshotDir s g /\ lo <= g < hi /\ numbered (s + 1) (g + 1) hi rest
  end.


(** The stride with which [save_data] samples a lineage at generation
    [gen]. *)
Definition sample_step (e : Experiment) (gen : Z) : Z :=
  if num_samples e <=? 0 then 1 else Z.max (gen / num_samples e) 1.

(** The animats whose lineages [save_data] is to write: the whole
    population, or one animat of it that no other exceeds in value. *)
Definition saves (SAVE_ALL_LINEAGES : bool) (pop to_save : list Animat)
  : Prop :=
  if SAVE_ALL_LINEAGES then to_save = pop
  else exists best,
      to_save = [best] /\ In best pop /\
      Forall (fun a => (value (fitness a) <= value (fitness best))%Q) pop.

(** [k] candidates drawn in turn from the population, each followed by one
    uniform draw that is not looked at: selection without rejection. *)
Fixpoint uniform_draws (R : RandomModule) (animats : list Animat) (k : nat)
  : M (rng R) (list Animat) :=
  match k with
  | O => ret []
  | S k' =>
      bind (choice R animats)
           (fun candidate =>
              bind (random_random R)
                   (fun _ =>
                      bind (uniform_draws R animats k')
                           (fun chosen => ret (candidate :: chosen))))
  end.

(** A generator that replays a tape with [random.random()] inside
    [0, 1): the next entry modulo 10, as a number of tenths. *)
Definition unit_random : RandomModule :=
  {| rng := list nat;
     randbelow := fun n s =>
                    match s with
                    | [] => (O, [])
                    | x :: t => (Nat.modulo x n, t)
                    end;
     random := fun s =>
                 match s with
                 | [] => (0%Q, [])
                 | x :: t => (Z.of_nat (Nat.modulo x 10) # 10, t)
                 end |}.

(** The number of rows equal to [x]. *)
Definition occurrences (x : state) (rows : list state) : Z :=
  Z.of_nat (count_occ (List.list_eq_dec Z.eq_dec) rows x).

(** The runs of equal neighbours but the final one, each with its state and
    its length; [c] rows of the first run have been passed already. *)
Fixpoint runs_from (c : Z) (rows : list state) : list (state * Z) :=
  match rows with
  | a :: (b :: _) as t =>
      if state_eqb a b then runs_from (c + 1) t
      else (a, c + 1) :: runs_from 0 t
  | _ => []
  end.

(** ** Sensor and motor states ([fitness_functions.py]) *)

(** The binary digits of a positive number, most significant first. *)
Fixpoint bits_of_pos (p : positive) : list Z :=
  match p with
  | xH => [1]
  | xO q => bits_of_pos q ++ [0]
  | xI q => bits_of_pos q ++ [1]
  end.

(** [bin(i)[2:]] for an [i] that is not negative, digit by digit. *)
Definition binary_digits (i : Z) : list Z :=
  match i with
  | Zpos p => bits_of_pos p
  | _ => [0]
  end.

(** [s.zfill(width)] on a string of digits: zeros on the left up to
    [width]. *)
Definition zfill (width : Z) (digits : list Z) : list Z :=
  repeat 0 (Z.to_nat width - length digits) ++ digits.

(** [_bitlist(i, padlength)].  For a negative [i] the text after the first
    two characters of [bin(i)] starts with the letter b, which [int]
    refuses. *)
Definition _bitlist (i padlength : Z) : result (list Z) :=
  if i <? 0 then Raise ValueError
  else Ok (zfill padlength (binary_digits i)).

(** The number that a list of bits writes, most significant bit first. *)
Definition from_bits (bits : list Z) : Z :=
  fold_left (fun acc b => 2 * acc + b) bits 0.

(** [len(bin(i)[2:])] for an [i] that is not negative. *)
Definition bit_length (i : Z) : nat :=
  match i with
  | Zpos p => Pos.size_nat p
  | _ => 1%nat
  end.

(** [range(n)] *)
Definition range (n : Z) : list Z := map Z.of_nat (seq 0 (Z.to_nat n)).

Section SensorMotorStates.

(* [params.NUM_SENSORS] and [params.NUM_MOTORS], of the module
   [parameters]: numbers of units *)
Variable NUM_SENSORS : nat.
Variable NUM_MOTORS : nat.

Definition NUM_SENSOR_STATES : Z := 2 ^ Z.of_nat NUM_SENSORS.
Definition NUM_MOTOR_STATES : Z := 2 ^ Z.of_nat NUM_MOTORS.

(** The list comprehension: [i] runs over the sensor states and, inside,
    [j] over the motor states.  Neither is negative, so [_bitlist] returns
    its digits. *)
Definition SENSOR_MOTOR_STATES : list ((Z * Z) * list Z) :=
  flat_map
    (fun i =>
       map (fun j =>
              ((i, j),
               zfill (Z.of_nat NUM_SENSORS) (binary_digits i)
                     ++ zfill (Z.of_nat NUM_MOTORS) (binary_digits j)))
           (range NUM_MOTOR_STATES))
    (range NUM_SENSOR_STATES).

End SensorMotorStates.

(** A bit. *)
Definition binary (b : Z) : Prop := b = 0 \/ b = 1.

(** ** The contingency table of [mi] *)

(** [(row == state).all()] on the last axis, with the broadcasting of
    numpy: vectors of the same length are compared place by place, a vector
    of length 1 is compared with every place of the other, and other
    lengths do not go together ([ValueError]). *)
Definition all_equal (row st : list Z) : result bool :=
  if Nat.eqb (length row) (length st) then Ok (state_eqb row st)
  else if Nat.eqb (length row) 1 then Ok (forallb (Z.eqb (hd 0 row)) st)
  else if Nat.eqb (length st) 1 then Ok (forallb (Z.eqb (hd 0 st)) row)
  else Raise ValueError.

Section MutualInformation.

Variable NUM_SENSORS : nat.
Variable NUM_MOTORS : nat.

(** One timestep of [sensor_motor]: [row[:NUM_SENSORS]] followed by
    [row[-NUM_MOTORS:]]; the latter is the whole row when [NUM_MOTORS] is
    0. *)
Definition sensor_motor (row : state) : state :=
  firstn NUM_SENSORS row
    ++ (if Nat.eqb NUM_MOTORS 0 then row
        else skipn (length row - NUM_MOTORS) row).

(** [(sensor_motor == state).all(axis=2).sum()]: the number of timesteps
    whose sensor and motor units show [state]. *)
Fixpoint count_equal (st : list Z) (rows : list state) : result Z :=
  match rows with
  | [] => Ok 0
  | row :: rows' =>
      match all_equal (sensor_motor row) st, count_equal st rows' with
      | Ok b, Ok c => Ok ((if b then 1 else 0) + c)
      | Raise e, _ => Raise e
      | _, Raise e => Raise e
      | _, _ => OutOfFuel
      end
  end.

(** The loop over [SENSOR_MOTOR_STATES] that fills [contingency]: the
    table is given by its entries, index and count, in the order they are
    assigned. *)
Fixpoint fill_contingency (states : list ((Z * Z) * list Z))
         (rows : list state) : result (list ((Z * Z) * Z)) :=
  match states with
  | [] => Ok []
  | (idx, st) :: states' =>
      match count_equal st rows, fill_contingency states' rows with
      | Ok c, Ok t => Ok ((idx, c) :: t)
      | Raise e, _ => Raise e
      | _, Raise e => Raise e
      | _, _ => OutOfFuel
      end
  end.

(** The contingency table that [mi] hands to [mutual_info_score]. *)
Definition mi_contingency (game : list (list state))
  : result (list ((Z * Z) * Z)) :=
  fill_contingency (SENSOR_MOTOR_STATES NUM_SENSORS NUM_MOTORS)
                   (reshape game).

(** The timesteps whose sensor and motor units show [st]. *)
Definition showing (st : list Z) (rows : list state) : list state :=
  List.filter (fun row => state_eqb (sensor_motor row) st) rows.

End MutualInformation.

(** The sum of a list of integers. *)
Definition sum_Z (l : list Z) : Z := fold_right Z.add 0 l.

(** A timestep of binary units, wide enough for the sensors and for the
    motors. *)
Definition binary_timestep (NUM_SENSORS NUM_MOTORS : nat) (row : state)
  : Prop :=
  (NUM_SENSORS <= length row)%nat /\
  (NUM_MOTORS <= length row)%nat /\
  Forall binary row.

(** * Properties *)

(** ** Results and numbers *)

Lemma bind_Ok {S A B} (m : M S A) (f : A -> M S B) s b s' :
  bind m f s = Ok (b, s') ->
  exists a s1, m s = Ok (a, s1) /\ f a s1 = Ok (b, s').
Proof.
  unfold bind. destruct (m s) as [[a s1]| |]; try discriminate.
  intros H. exists a, s1. split; [reflexivity | exact H].
Qed.

Lemma bind_step {S A B} (m : M S A) (f : A -> M S B) s a s1 :
  m s = Ok (a, s1) -> bind m f s = f a s1.
Proof. unfold bind. intros ->. reflexivity. Qed.

Lemma bind_Raise {S A B} (m : M S A) (f : A -> M S B) s e :
  m s = Raise e -> bind m f s = Raise e.
Proof. unfold bind. intros ->. reflexivity. Qed.

Lemma bind_OutOfFuel {S A B} (m : M S A) (f : A -> M S B) s :
  m s = OutOfFuel -> bind m f s = OutOfFuel.
Proof. unfold bind. intros ->. reflexivity. Qed.

Lemma lift_Ok {S A} (r : result A) (s : S) a s' :
  lift r s = Ok (a, s') -> r = Ok a /\ s' = s.
Proof.
  unfold lift. destruct r; try discriminate.
  intros H. injection H as -> ->. split; reflexivity.
Qed.

Lemma Qgt_bool_false (a b : Q) : Qgt_bool a b = false <-> (a <= b)%Q.
Proof.
  unfold Qgt_bool. rewrite negb_false_iff. apply Qle_bool_iff.
Qed.

Lemma Qgt_bool_true (a b : Q) : Qgt_bool a b = true <-> (b < a)%Q.
Proof.
  unfold Qgt_bool. rewrite negb_true_iff. split.
  - intros H. apply Qnot_le_lt. intros Hle.
    apply Qle_bool_iff in Hle. congruence.
  - intros H. destruct (Qle_bool a b) eqn:E; [|reflexivity].
    apply Qle_bool_iff in E. exfalso. exact (Qlt_not_le _ _ H E).
Qed.

(** The running maximum of [max] is one of the items seen and bounds them
    all. *)
Lemma running_max_spec (t : list Q) (x : Q) :
  let m := fold_left (fun m y => if Qgt_bool y m then y else m) t x in
  In m (x :: t) /\ (x <= m)%Q /\ Forall (fun y => (y <= m)%Q) t.
Proof.
  revert x. induction t as [|y t IH]; intros x; simpl.
  - split; [now left|]. split; [apply Qle_refl | constructor].
  - destruct (Qgt_bool y x) eqn:E.
    + destruct (IH y) as (Hin & Hle & Hall). simpl in Hin.
      apply Qgt_bool_true in E.
      split; [right; exact Hin|]. split.
      * eapply Qle_trans; [apply Qlt_le_weak; exact E | exact Hle].
      * constructor; assumption.
    + destruct (IH x) as (Hin & Hle & Hall). simpl in Hin.
      apply Qgt_bool_false in E.
      split; [destruct Hin as [<-|Hin]; [now left | right; now right]|].
      split; [exact Hle|].
      constructor; [eapply Qle_trans; eassumption | exact Hall].
Qed.

Lemma py_max_spec (l : list Q) (m : Q) :
  py_max l = Ok m -> In m l /\ Forall (fun y => (y <= m)%Q) l.
Proof.
  destruct l as [|x t]; simpl; [discriminate|].
  intros H. injection H as <-.
  destruct (running_max_spec t x) as (Hin & Hle & Hall).
  split; [exact Hin | constructor; assumption].
Qed.

Lemma py_max_nonempty (l : list Q) :
  l <> [] -> exists m, py_max l = Ok m.
Proof.
  destruct l as [|x t]; [congruence|]. intros _. simpl. eauto.
Qed.

(** ** Selection *)

Section SelectionFacts.

Variable R : RandomModule.

Lemma choice_Ok (animats : list Animat) s c s' :
  choice R animats s = Ok (c, s') <-> draws_candidate R animats s c s'.
Proof.
  unfold choice. split.
  - destruct animats as [|a l]; [discriminate|].
    destruct (randbelow R (length (a :: l)) s) as [i s1] eqn:E.
    destruct (nth_error (a :: l) i) as [x|] eqn:En; [|discriminate].
    intros H. injection H as -> ->.
    econstructor; eassumption.
  - intros [s0 i s1 c0 E En].
    destruct animats as [|a l]; [destruct i; discriminate|].
    rewrite E, En. reflexivity.
Qed.

Lemma choice_in_range (animats : list Animat) s :
  animats <> [] ->
  (fst (randbelow R (length animats) s) < length animats)%nat ->
  exists c, In c animats /\
            choice R animats s = Ok (c, snd (randbelow R (length animats) s)).
Proof.
  intros Hne Hlt. unfold choice.
  destruct animats as [|a l]; [congruence|].
  destruct (randbelow R (length (a :: l)) s) as [i s1]. simpl fst in Hlt.
  destruct (nth_error (a :: l) i) as [x|] eqn:En.
  - exists x. split; [eapply nth_error_In; eassumption | reflexivity].
  - apply nth_error_None in En. lia.
Qed.

(** One pass of the acceptance loop, spelled out. *)
Lemma accept_loop_unfold fuel (animats : list Animat) m s :
  accept_loop R (S fuel) animats m s =
  match choice R animats s with
  | Ok (c, s1) =>
      let (u, s2) := random R s1 in
      match py_div (value (fitness c)) m with
      | Ok ratio => if Qle_bool u ratio then Ok (c, s2)
                    else accept_loop R fuel animats m s2
      | Raise e => Raise e
      | OutOfFuel => OutOfFuel
      end
  | Raise e => Raise e
  | OutOfFuel => OutOfFuel
  end.
Proof.
  cbn [accept_loop]. unfold bind, random_random, lift, ret.
  destruct (choice R animats s) as [[c s1]| |]; try reflexivity.
  destruct (random R s1) as [u s2].
  destruct (py_div (value (fitness c)) m) as [ratio| |]; try reflexivity.
  destruct (Qle_bool u ratio); reflexivity.
Qed.

Lemma select_slots_unfold fuel (animats : list Animat) m k s :
  select_slots R fuel animats m (S k) s =
  match accept_loop R fuel animats m s with
  | Ok (c, s1) =>
      match select_slots R fuel animats m k s1 with
      | Ok (chosen, s2) => Ok (c :: chosen, s2)
      | Raise e => Raise e
      | OutOfFuel => OutOfFuel
      end
  | Raise e => Raise e
  | OutOfFuel => OutOfFuel
  end.
Proof.
  cbn [select_slots]. unfold bind, ret.
  destruct (accept_loop R fuel animats m s) as [[c s1]| |]; reflexivity.
Qed.

Lemma max_of_zero_population (animats : list Animat) m :
  Forall (fun a => (value (fitness a) == 0)%Q) animats ->
  py_max (map (fun animat => value (fitness animat)) animats) = Ok m ->
  (m == 0)%Q.
Proof.
  intros Hall Hm. apply py_max_spec in Hm as [Hin _].
  apply in_map_iff in Hin as (a & <- & Ha).
  apply (proj1 (List.Forall_forall _ _) Hall). exact Ha.
Qed.

(** The first pass of the acceptance loop on a maximum of zero. *)
Lemma accept_loop_zero_max fuel (animats : list Animat) m s :
  animats <> [] ->
  (fst (randbelow R (length animats) s) < length animats)%nat ->
  (m == 0)%Q ->
  accept_loop R (S fuel) animats m s = Raise ZeroDivisionError.
Proof.
  intros Hne Hlt Hm.
  destruct (choice_in_range s Hne Hlt) as (c & _ & Hc).
  cbn [accept_loop]. erewrite bind_step by exact Hc.
  destruct (random R (snd (randbelow R (length animats) s))) as [u s2] eqn:Eu.
  erewrite bind_step by (unfold random_random; rewrite Eu; reflexivity).
  apply bind_Raise. unfold lift, py_div.
  apply Qeq_bool_iff in Hm. rewrite Hm. reflexivity.
Qed.

End SelectionFacts.

(** C1, as the code has it.  On a non-empty population whose selection
    values are all zero, [select] has no fallback: for [k <= 0] it returns
    the empty list and leaves the generator untouched; for [k >= 1] the
    first acceptance test divides by the zero maximum and the call raises
    [ZeroDivisionError], whatever the generator draws. *)
Theorem select_zero_fitness_divides_by_zero
        (R : RandomModule) (fuel : nat) (animats : list Animat) (k : Z)
        (s : rng R) :
  animats <> [] ->
  Forall (fun a => (value (fitness a) == 0)%Q) animats ->
  (fst (randbelow R (length animats) s) < length animats)%nat ->
  (k <= 0 -> select R fuel animats k s = Ok ([], s)) /\
  (1 <= k -> select R (S fuel) animats k s = Raise ZeroDivisionError).
Proof.
  intros Hne Hzero Hlt.
  assert (Hmap : map (fun animat => value (fitness animat)) animats <> []).
  { destruct animats; [congruence | discriminate]. }
  destruct (py_max_nonempty Hmap) as [m Hm].
  pose proof (max_of_zero_population Hzero Hm) as Hm0.
  unfold select.
  split; intros Hk;
    (erewrite bind_step by (rewrite Hm; reflexivity)).
  - replace (Z.to_nat k) with O by lia. reflexivity.
  - destruct (Z.to_nat k) as [|k'] eqn:Ek; [lia|].
    cbn [select_slots]. apply bind_Raise.
    exact (@accept_loop_zero_max R fuel animats m s Hne Hlt Hm0).
Qed.

(** The statement above at a population of two animats of value zero. *)
Lemma select_zero_fitness_divides_by_zero_witness :
  (0 <= 0 -> select tape_random 3 [sample_animat 0; sample_animat 0] 0
                    [1%nat; 4%nat] = Ok ([], [1%nat; 4%nat])) /\
  (1 <= 2 -> select tape_random 4 [sample_animat 0; sample_animat 0] 2
                    [1%nat; 4%nat] = Raise ZeroDivisionError).
Proof.
  destruct (@select_zero_fitness_divides_by_zero
              tape_random 3 [sample_animat 0; sample_animat 0] 0
              [1%nat; 4%nat]) as [H0 _].
  - discriminate.
  - repeat constructor.
  - simpl. lia.
  - destruct (@select_zero_fitness_divides_by_zero
                tape_random 3 [sample_animat 0; sample_animat 0] 2
                [1%nat; 4%nat]) as [_ H1].
    + discriminate.
    + repeat constructor.
    + simpl. lia.
    + split; [intros _; apply H0; lia | exact H1].
Defined.

(** C1 as stated fails: on two animats of value zero, one slot to fill,
    [select] raises instead of returning a uniformly drawn animat. *)
Lemma select_zero_fitness_raises :
  select tape_random 8 [sample_animat 0; sample_animat 0] 1
         [1%nat; 4%nat; 0%nat; 7%nat]
  = Raise ZeroDivisionError.
Proof. vm_compute. reflexivity. Qed.

Section RejectionSampling.

Variable R : RandomModule.
Variable animats : list Animat.
Variable m : Q.
Hypothesis m_nonzero : ~ (m == 0)%Q.

(** One pass of the acceptance loop, spelled out. *)
Lemma accept_loop_step fuel s :
  accept_loop R (S fuel) animats m s =
  match choice R animats s with
  | Ok (c, s1) =>
      let (u, s2) := random R s1 in
      if Qle_bool u (value (fitness c) / m)%Q then Ok (c, s2)
      else accept_loop R fuel animats m s2
  | Raise e => Raise e
  | OutOfFuel => OutOfFuel
  end.
Proof.
  rewrite accept_loop_unfold.
  destruct (choice R animats s) as [[c s1]| |]; try reflexivity.
  destruct (random R s1) as [u s2]. unfold py_div.
  destruct (Qeq_bool m 0) eqn:E; [|reflexivity].
  apply Qeq_bool_iff in E. contradiction.
Qed.

Lemma accept_loop_sound fuel s c s' :
  accept_loop R fuel animats m s = Ok (c, s') -> fills_slot R animats m s c s'.
Proof.
  revert s. induction fuel as [|fuel IH]; intros s; [discriminate|].
  rewrite accept_loop_step.
  destruct (choice R animats s) as [[c0 s1]| |] eqn:Ec; try discriminate.
  apply choice_Ok in Ec.
  destruct (random R s1) as [u s2] eqn:Eu.
  destruct (Qle_bool u (value (fitness c0) / m)%Q) eqn:Ea.
  - intros H. injection H as -> ->.
    eapply slot_accept; eauto. now apply Qle_bool_iff.
  - intros H. eapply slot_redraw; eauto.
    rewrite <- Qle_bool_iff. congruence.
Qed.

Lemma accept_loop_complete s c s' :
  fills_slot R animats m s c s' ->
  exists fuel, forall fuel', (fuel <= fuel')%nat ->
                             accept_loop R fuel' animats m s = Ok (c, s').
Proof.
  induction 1 as [s c s1 u s2 Hd Hu Ha | s c s1 u s2 c' s3 Hd Hu Ha _ IH].
  - exists 1%nat. intros [|fuel'] Hf; [lia|].
    rewrite accept_loop_step.
    apply choice_Ok in Hd. rewrite Hd, Hu.
    apply Qle_bool_iff in Ha. rewrite Ha. reflexivity.
  - destruct IH as [fuel IH]. exists (S fuel). intros [|fuel'] Hf; [lia|].
    rewrite accept_loop_step.
    apply choice_Ok in Hd. rewrite Hd, Hu.
    destruct (Qle_bool u (value (fitness c) / m)%Q) eqn:E.
    + apply Qle_bool_iff in E. contradiction.
    + apply IH. lia.
Qed.

Lemma select_slots_sound fuel k s chosen s' :
  select_slots R fuel animats m k s = Ok (chosen, s') ->
  rejection_sampling R animats m k s chosen s'.
Proof.
  revert s chosen. induction k as [|k IH]; intros s chosen; cbn [select_slots].
  - unfold ret. intros H. injection H as <- <-. constructor.
  - intros H. apply bind_Ok in H as (c & s1 & Hc & H).
    apply bind_Ok in H as (rest & s2 & Hr & H).
    unfold ret in H. injection H as <- <-.
    econstructor; [eapply accept_loop_sound; eassumption | now apply IH].
Qed.

Lemma select_slots_complete k s chosen s' :
  rejection_sampling R animats m k s chosen s' ->
  exists fuel, forall fuel', (fuel <= fuel')%nat ->
                             select_slots R fuel' animats m k s = Ok (chosen, s').
Proof.
  induction 1 as [s | k s c s1 chosen s2 Hc _ IH].
  - exists O. intros fuel' _. reflexivity.
  - destruct (accept_loop_complete Hc) as [f1 H1].
    destruct IH as [f2 H2].
    exists (Nat.max f1 f2). intros fuel' Hf. cbn [select_slots].
    erewrite bind_step by (apply H1; lia).
    erewrite bind_step by (apply H2; lia).
    reflexivity.
Qed.

Lemma fills_slot_member s c s' :
  fills_slot R animats m s c s' -> In c animats.
Proof.
  induction 1 as [s c s1 u s2 Hd _ _ | ]; [|assumption].
  destruct Hd as [s i s1 c _ Hn]. eapply nth_error_In; eassumption.
Qed.

Lemma rejection_sampling_shape k s chosen s' :
  rejection_sampling R animats m k s chosen s' ->
  length chosen = k /\ Forall (fun c => In c animats) chosen.
Proof.
  induction 1 as [s | k s c s1 chosen s2 Hc _ [IH1 IH2]].
  - split; [reflexivity | constructor].
  - split; [simpl; now rewrite IH1|].
    constructor; [eapply fills_slot_member; eassumption | assumption].
Qed.

End RejectionSampling.

(** C2.  On a non-empty population with a strictly positive selection value
    and for [k >= 0], [select] is rejection sampling: the value it divides
    by is the maximum of the selection values, and it returns a list (with
    enough fuel for its loops) exactly when that list is produced by
    filling [k] slots in turn, each by drawing candidates from the whole
    population until one passes the acceptance test on the next uniform
    draw.  The list has [k] members, all of the population; nothing keeps
    one animat from filling several slots. *)
Theorem select_is_rejection_sampling
        (R : RandomModule) (animats : list Animat) (k : Z) :
  animats <> [] ->
  Exists (fun a => (0 < value (fitness a))%Q) animats ->
  0 <= k ->
  exists max_fitness,
    is_max_fitness animats max_fitness /\
    (0 < max_fitness)%Q /\
    forall s chosen s',
      ((exists fuel, select R fuel animats k s = Ok (chosen, s')) <->
       rejection_sampling R animats max_fitness (Z.to_nat k) s chosen s') /\
      (rejection_sampling R animats max_fitness (Z.to_nat k) s chosen s' ->
       Z.of_nat (length chosen) = k /\ Forall (fun c => In c animats) chosen).
Proof.
  intros Hne Hpos Hk.
  assert (Hmap : map (fun animat => value (fitness animat)) animats <> []).
  { destruct animats; [congruence | discriminate]. }
  destruct (py_max_nonempty Hmap) as [m Hm].
  destruct (py_max_spec _ Hm) as [Hin Hall].
  assert (Hmax : is_max_fitness animats m).
  { split.
    - apply in_map_iff in Hin as (a & Ha & Hina). eauto.
    - apply List.Forall_forall. intros a Ha.
      apply (proj1 (List.Forall_forall _ _) Hall).
      apply in_map with (f := fun animat => value (fitness animat)).
      exact Ha. }
  assert (Hmpos : (0 < m)%Q).
  { apply List.Exists_exists in Hpos as (a & Ha & Hlt).
    destruct Hmax as [_ Hle].
    eapply Qlt_le_trans;
      [exact Hlt | apply (proj1 (List.Forall_forall _ _) Hle); exact Ha]. }
  assert (Hnz : ~ (m == 0)%Q).
  { intros E. rewrite E in Hmpos. exact (Qlt_irrefl 0 Hmpos). }
  exists m. split; [exact Hmax|]. split; [exact Hmpos|].
  intros s chosen s'. split; [split|].
  - intros [fuel H]. unfold select in H.
    apply bind_Ok in H as (m' & s1 & Hl & H).
    apply lift_Ok in Hl as [Hl ->].
    assert (m' = m) by congruence. subst m'.
    eapply select_slots_sound; eassumption.
  - intros H. destruct (select_slots_complete Hnz H) as [fuel Hf].
    exists fuel. unfold select.
    erewrite bind_step by (rewrite Hm; reflexivity).
    apply Hf. lia.
  - intros H. destruct (rejection_sampling_shape H) as [Hlen Hmem].
    split; [rewrite Hlen; lia | exact Hmem].
Qed.

(** The statement above at a population of values 1 and 2, two slots. *)
Lemma select_is_rejection_sampling_witness :
  exists max_fitness,
    is_max_fitness [sample_animat 1; sample_animat 2] max_fitness /\
    (0 < max_fitness)%Q /\
    forall s chosen s',
      ((exists fuel,
           select tape_random fuel [sample_animat 1; sample_animat 2] 2 s
           = Ok (chosen, s')) <->
       rejection_sampling tape_random [sample_animat 1; sample_animat 2]
                          max_fitness (Z.to_nat 2) s chosen s') /\
      (rejection_sampling tape_random [sample_animat 1; sample_animat 2]
                          max_fitness (Z.to_nat 2) s chosen s' ->
       Z.of_nat (length chosen) = 2 /\
       Forall (fun c => In c [sample_animat 1; sample_animat 2]) chosen).
Proof.
  apply (@select_is_rejection_sampling
           tape_random [sample_animat 1; sample_animat 2] 2).
  - discriminate.
  - apply Exists_cons_hd. reflexivity.
  - lia.
Defined.

(** A run of the sampler: the first candidate (value 1) is refused on the
    draw 0.9 > 1/2, the second (value 2) is accepted, then the first is
    accepted on 0.2 <= 1/2. *)
Example select_run :
  select tape_random 5 [sample_animat 1; sample_animat 2] 2
         [0; 9; 1; 3; 0; 2]%nat
  = Ok ([sample_animat 2; sample_animat 1], []).
Proof. vm_compute. reflexivity. Qed.

(** ** Selection reads the selection value only *)

Section SelectionReads.

Variable R : RandomModule.
Variable f : Animat -> Animat.
Hypothesis f_keeps_value :
  forall a, value (fitness (f a)) = value (fitness a).

Lemma choice_map (animats : list Animat) s :
  choice R (map f animats) s = map_result f (choice R animats s).
Proof.
  unfold choice. destruct animats as [|a l]; [reflexivity|].
  cbn [map]. change (f a :: map f l) with (map f (a :: l)).
  rewrite length_map.
  destruct (randbelow R (length (a :: l)) s) as [i s1].
  rewrite nth_error_map.
  destruct (nth_error (a :: l) i); reflexivity.
Qed.

Lemma accept_loop_map fuel (animats : list Animat) m s :
  accept_loop R fuel (map f animats) m s
  = map_result f (accept_loop R fuel animats m s).
Proof.
  revert s. induction fuel as [|fuel IH]; intros s; [reflexivity|].
  rewrite !accept_loop_unfold, choice_map.
  destruct (choice R animats s) as [[c s1]| |]; try reflexivity.
  cbn [map_result]. destruct (random R s1) as [u s2].
  rewrite f_keeps_value.
  destruct (py_div (value (fitness c)) m) as [ratio| |]; try reflexivity.
  destruct (Qle_bool u ratio); [reflexivity | apply IH].
Qed.

Lemma select_slots_map fuel (animats : list Animat) m k s :
  select_slots R fuel (map f animats) m k s
  = map_result (map f) (select_slots R fuel animats m k s).
Proof.
  revert s. induction k as [|k IH]; intros s; [reflexivity|].
  rewrite !select_slots_unfold, accept_loop_map.
  destruct (accept_loop R fuel animats m s) as [[c s1]| |]; try reflexivity.
  cbn [map_result]. rewrite IH.
  destruct (select_slots R fuel animats m k s1) as [[chosen s2]| |];
    reflexivity.
Qed.

Lemma select_map fuel (animats : list Animat) k s :
  select R fuel (map f animats) k s
  = map_result (map f) (select R fuel animats k s).
Proof.
  unfold select, bind, lift. rewrite map_map.
  rewrite (map_ext (fun x => value (fitness (f x)))
                   (fun x => value (fitness x)) f_keeps_value).
  destruct (py_max _) as [m| |]; try reflexivity.
  apply select_slots_map.
Qed.

End SelectionReads.

(** ** Multi-objective evaluation *)

Lemma multi_fit_evaluate_stores {R} (C : Collaborators R) (pop : list Animat) :
  Forall (fun a => exists x xs, evaluate_fn C a = Tuple (x :: xs)) pop ->
  exists pop', multi_fit_evaluate C pop = Ok pop' /\
               Forall2 (stores_objectives C) pop pop'.
Proof.
  induction 1 as [|a pop (x & xs & Ha) _ (pop' & Hpop & Hall)].
  - exists []. split; [reflexivity | constructor].
  - eexists. cbn [multi_fit_evaluate]. rewrite Ha. cbn [item0 slice1 tl].
    rewrite Hpop. split; [reflexivity|].
    constructor; [|exact Hall].
    exists x, xs. repeat split; try reflexivity. exact Ha.
Qed.

(** C3.  A population whose fitness function returns non-empty tuples is
    evaluated by [multi_fit_evaluate] without error: every animat gets
    element 0 of its tuple through [Fitness.set] (so its selection value is
    the reshaped element 0) and the remaining elements as [alt_fitness].
    [select] does not read [alt_fitness]: replacing the auxiliary metrics of
    every animat by anything else makes [select] consume the same draws and
    return the animats at the same positions.  With the fitness function
    named mat, [evaluate] is this evaluation. *)
Theorem multi_objective_evaluation
        (R : RandomModule) (C : Collaborators R) (pop : list Animat) :
  Forall (fun a => exists x xs, evaluate_fn C a = Tuple (x :: xs)) pop ->
  exists pop',
    multi_fit_evaluate C pop = Ok pop' /\
    Forall2 (stores_objectives C) pop pop' /\
    (forall experiment,
        fitness_function experiment = "mat"%string ->
        evaluate C experiment pop = Ok pop') /\
    (forall alt fuel k s,
        select R fuel (map (set_alt_fitness alt) pop') k s
        = map_result (map (set_alt_fitness alt)) (select R fuel pop' k s)).
Proof.
  intros Hall.
  destruct (multi_fit_evaluate_stores C Hall) as (pop' & Hev & Hst).
  exists pop'. split; [exact Hev|]. split; [exact Hst|]. split.
  - intros experiment Hmat. unfold evaluate. rewrite Hmat. exact Hev.
  - intros alt fuel k s. apply select_map. intros a. reflexivity.
Qed.

(** The statement above at two animats scored (generation, 7, 9). *)
Lemma multi_objective_evaluation_witness :
  exists pop',
    multi_fit_evaluate sample_multi [sample_animat 0; sample_animat 0]
    = Ok pop' /\
    Forall2 (stores_objectives sample_multi)
            [sample_animat 0; sample_animat 0] pop' /\
    (forall experiment,
        fitness_function experiment = "mat"%string ->
        evaluate sample_multi experiment [sample_animat 0; sample_animat 0]
        = Ok pop') /\
    (forall alt fuel k s,
        select tape_random fuel (map (set_alt_fitness alt) pop') k s
        = map_result (map (set_alt_fitness alt))
                     (select tape_random fuel pop' k s)).
Proof.
  apply (@multi_objective_evaluation
           tape_random sample_multi [sample_animat 0; sample_animat 0]).
  repeat constructor; exists (inject_Z 0), [7; 9]%Q; reflexivity.
Defined.

(** The tuple (0, 7, 9) leaves value 2^0 and the metrics 7 and 9. *)
Example multi_fit_evaluate_run :
  multi_fit_evaluate sample_multi [sample_animat 5]
  = Ok [ {| genome := [0; 1]; gen := 0;
            fitness := {| raw := inject_Z 0; value := Qpower 2 0 |};
            alt_fitness := [7; 9]%Q; parent := None |} ].
Proof. reflexivity. Qed.

(** ** The generation loop *)

Ltac bind_inv H :=
  let a := fresh "a" in
  let w := fresh "w" in
  let Hm := fresh "Hm" in
  apply bind_Ok in H as (a & w & Hm & H).

Section EngineFacts.

Variable R : RandomModule.
Variable C : Collaborators R.
Variable experiment : Experiment.
Variable SAVE_ALL_LINEAGES : bool.

(** *** What each step does to the world *)

Lemma with_rng_Ok {A} (m : M (rng R) A) (w : World R) a w' :
  with_rng m w = Ok (a, w') ->
  m (w_rng w) = Ok (a, w_rng w') /\
  w_clock w' = w_clock w /\
  w_logbook w' = w_logbook w /\
  w_saved w' = w_saved w.
Proof.
  unfold with_rng. destruct (m (w_rng w)) as [[a0 s]| |]; try discriminate.
  intros H. injection H as -> <-. cbn. repeat split.
Qed.

Lemma time_Ok (w : World R) t w' :
  time C w = Ok (t, w') ->
  t = now C (w_clock w) /\
  w_logbook w' = w_logbook w /\
  w_saved w' = w_saved w.
Proof.
  unfold time. intros H. injection H as <- <-. cbn. repeat split.
Qed.

Lemma record_Ok (pop : list Animat) (g : Z) (w : World R) u w' :
  record experiment pop g w = Ok (u, w') ->
  log_interval experiment <> 0 /\
  w_saved w' = w_saved w /\
  map log_gen (w_logbook w')
  = map log_gen (w_logbook w)
        ++ (if g mod log_interval experiment =? 0 then [g] else []).
Proof.
  unfold record. intros H. bind_inv H.
  apply lift_Ok in Hm as [Hm ->]. unfold py_mod in Hm.
  destruct (log_interval experiment =? 0) eqn:E; [discriminate|].
  injection Hm as <-. split; [lia|].
  destruct (g mod log_interval experiment =? 0).
  - bind_inv H. apply lift_Ok in Hm as [_ ->].
    unfold logbook_record in H. injection H; intros; subst; cbn.
    split; [reflexivity|]. now rewrite map_app.
  - unfold ret in H. injection H; intros; subst.
    split; [reflexivity|]. now rewrite app_nil_r.
Qed.

Lemma save_data_Ok dir (g : Z) (pop : list Animat) (w : World R) u w' :
  save_data experiment SAVE_ALL_LINEAGES dir g pop w = Ok (u, w') ->
  w_logbook w' = w_logbook w /\
  written w' = written w ++ [(dir, g)].
Proof.
  unfold save_data. intros H. bind_inv H.
  assert (w0 = w) as ->.
  { destruct SAVE_ALL_LINEAGES.
    - unfold ret in Hm. now injection Hm.
    - bind_inv Hm. apply lift_Ok in Hm0 as [_ ->].
      unfold ret in Hm. now injection Hm. }
  unfold write_data in H. injection H; intros; subst. unfold written. cbn.
  split; [reflexivity|]. now rewrite map_app.
Qed.

(** *** Evaluation keeps the generation number and the parent *)

Lemma multi_fit_evaluate_ancestry (pop pop' : list Animat) :
  multi_fit_evaluate C pop = Ok pop' -> Forall2 same_ancestry pop pop'.
Proof.
  revert pop'. induction pop as [|a pop IH]; intros pop'; cbn.
  - intros H. injection H as <-. constructor.
  - destruct (item0 (evaluate_fn C a)); try discriminate;
      destruct (slice1 (evaluate_fn C a)); try discriminate.
    destruct (multi_fit_evaluate C pop); try discriminate.
    intros H. injection H as <-.
    constructor; [split; reflexivity | now apply IH].
Qed.

Lemma single_fit_evaluate_ancestry (pop pop' : list Animat) :
  single_fit_evaluate C pop = Ok pop' -> Forall2 same_ancestry pop pop'.
Proof.
  revert pop'. induction pop as [|a pop IH]; intros pop'; cbn.
  - intros H. injection H as <-. constructor.
  - destruct (evaluate_fn C a); try discriminate.
    destruct (single_fit_evaluate C pop); try discriminate.
    intros H. injection H as <-.
    constructor; [split; reflexivity | now apply IH].
Qed.

Lemma evaluate_ancestry (pop pop' : list Animat) :
  evaluate C experiment pop = Ok pop' -> Forall2 same_ancestry pop pop'.
Proof.
  unfold evaluate. destruct (String.eqb _ _).
  - apply multi_fit_evaluate_ancestry.
  - apply single_fit_evaluate_ancestry.
Qed.

End EngineFacts.

Section ProcessGen.

Variable R : RandomModule.
Variable C : Collaborators R.
Variable experiment : Experiment.
Variable SAVE_ALL_LINEAGES : bool.

Lemma accept_loop_member fuel (animats : list Animat) m s c s' :
  accept_loop R fuel animats m s = Ok (c, s') -> In c animats.
Proof.
  revert s. induction fuel as [|fuel IH]; intros s; [discriminate|].
  rewrite accept_loop_unfold.
  destruct (choice R animats s) as [[c0 s1]| |] eqn:Ec; try discriminate.
  apply choice_Ok in Ec. destruct Ec as [s0 i s2 c1 _ Hn].
  destruct (random R s2) as [u s3].
  destruct (py_div (value (fitness c1)) m) as [ratio| |]; try discriminate.
  destruct (Qle_bool u ratio).
  - intros H. injection H as <- _. eapply nth_error_In; eassumption.
  - apply IH.
Qed.

Lemma select_slots_members fuel (animats : list Animat) m k s chosen s' :
  select_slots R fuel animats m k s = Ok (chosen, s') ->
  length chosen = k /\ Forall (fun c => In c animats) chosen.
Proof.
  revert s chosen. induction k as [|k IH]; intros s chosen.
  - cbn. unfold ret. intros H. injection H as <- _.
    split; [reflexivity | constructor].
  - rewrite select_slots_unfold.
    destruct (accept_loop R fuel animats m s) as [[c s1]| |] eqn:Ec;
      try discriminate.
    destruct (select_slots R fuel animats m k s1) as [[rest s2]| |] eqn:Er;
      try discriminate.
    intros H. injection H as <- <-.
    destruct (IH _ _ Er) as [Hlen Hall].
    split; [simpl; now rewrite Hlen|].
    constructor; [eapply accept_loop_member; eassumption | exact Hall].
Qed.

Lemma select_members fuel (animats : list Animat) k s chosen s' :
  select R fuel animats k s = Ok (chosen, s') ->
  length chosen = Z.to_nat k /\ Forall (fun c => In c animats) chosen.
Proof.
  unfold select. intros H. bind_inv H.
  eapply select_slots_members; eassumption.
Qed.

Lemma vary_children (g : Z) (pop0 : list Animat) :
  forall (offspring pop : list Animat) s out s',
    vary C offspring pop s = Ok (out, s') ->
    Forall (fun a => gen a = g) offspring ->
    Forall (fun p => In p pop0) pop ->
    Forall (child_of pop0 g) out.
Proof.
  induction offspring as [|a offspring IH]; intros pop s out s' H Hg Hp.
  - cbn in H. unfold ret in H. injection H as <- _. constructor.
  - destruct pop as [|p pop].
    + cbn in H. unfold ret in H. injection H as <- _. constructor.
    + cbn [vary] in H.
      destruct (mutate_genome C (genome a) s) as [g' s1].
      bind_inv H. unfold ret in H. injection H as <- _.
      inversion Hg as [|? ? Hga Hg']; subst.
      inversion Hp as [|? ? Hpa Hp']; subst.
      constructor; [|eapply IH; eassumption].
      split; [reflexivity|]. exists p. split; [reflexivity | exact Hpa].
Qed.

Lemma child_of_ancestry pop0 g (l l' : list Animat) :
  Forall2 same_ancestry l l' ->
  Forall (child_of pop0 g) l -> Forall (child_of pop0 g) l'.
Proof.
  induction 1 as [|a a' l l' [Hg Hp] _ IH]; intros Hall; [constructor|].
  inversion Hall as [|? ? [Ha (p & Hpa & Hin)] Hl]; subst.
  constructor; [|now apply IH].
  split; [congruence|]. exists p. split; [congruence | exact Hin].
Qed.

(** One generation: the Logbook grows by the record of [g] when the
    interval divides [g], nothing is written to disk, and every offspring
    carries [g] and has a member of the old population as its parent. *)
Lemma process_gen_Ok fuel (pop : list Animat) (g : Z) (w : World R)
      offspring w' :
  process_gen C experiment fuel pop g w = Ok (offspring, w') ->
  log_interval experiment <> 0 /\
  w_saved w' = w_saved w /\
  map log_gen (w_logbook w')
  = map log_gen (w_logbook w)
        ++ (if g mod log_interval experiment =? 0 then [g] else []) /\
  Forall (child_of pop g) offspring.
Proof.
  unfold process_gen. intros H.
  bind_inv H. rename a into selected, w0 into w1, Hm into Hsel.
  bind_inv H. rename a into varied, w0 into w2, Hm into Hvar.
  bind_inv H. rename a into evaluated, w0 into w3, Hm into Hev.
  bind_inv H. rename Hm into Hrec. unfold ret in H.
  injection H; intros; subst.
  apply with_rng_Ok in Hsel as (Hsel & _ & Hl1 & Hs1).
  apply with_rng_Ok in Hvar as (Hvar & _ & Hl2 & Hs2).
  apply lift_Ok in Hev as [Hev ->].
  apply record_Ok in Hrec as (Hli & Hs3 & Hl3).
  apply select_members in Hsel as [_ Hmem].
  split; [exact Hli|]. split; [congruence|]. split.
  - rewrite Hl3. congruence.
  - eapply child_of_ancestry; [eapply evaluate_ancestry; eassumption|].
    eapply vary_children; [eassumption | | exact Hmem].
    apply List.Forall_forall. intros x Hx.
    apply in_map_iff in Hx as (y & <- & _). reflexivity.
Qed.

End ProcessGen.

Section Loop.

Variable R : RandomModule.
Variable C : Collaborators R.
Variable experiment : Experiment.
Variable SAVE_ALL_LINEAGES : bool.

Let body := loop_body C experiment SAVE_ALL_LINEAGES.
Let TI := SNAPSHOT_TIME_INTERVAL experiment.
Let GI := SNAPSHOT_GENERATION_INTERVAL experiment.

(** One pass of the loop.  [due] is the outcome of the snapshot test. *)
Lemma loop_body_Ok fuel (l : Locals) (g : Z) (w : World R) l' w' :
  loop_body C experiment SAVE_ALL_LINEAGES fuel l g w = Ok (l', w') ->
  log_interval experiment <> 0 /\
  map log_gen (w_logbook w')
  = map log_gen (w_logbook w)
        ++ (if g mod log_interval experiment =? 0 then [g] else []) /\
  Forall (child_of (population l) g) (population l') /\
  exists due : bool,
    written w' = written w
                   ++ (if due then [(SnapshotDir (snapshot l) g, g)] else []) /\
    snapshot l' = (if due then snapshot l + 1 else snapshot l) /\
    (exists c : nat,
        (reached (now C c - snap_duration_start l)%Q TI = true /\ due = true)
        \/ (reached (now C c - snap_duration_start l)%Q TI = false /\
            divides g GI = Ok due)) /\
    (if due then exists j, snap_duration_start l' = now C j
     else snap_duration_start l' = snap_duration_start l).
Proof.
  unfold loop_body. intros H.
  bind_inv H. rename a into pop', w0 into w1, Hm into Hgen.
  apply process_gen_Ok in Hgen as (Hli & Hs1 & Hl1 & Hch).
  bind_inv H. apply lift_Ok in Hm as [_ ->].
  bind_inv H. rename w0 into w2, Hm into Hstat.
  assert (Hw2 : w_logbook w2 = w_logbook w1 /\ w_saved w2 = w_saved w1).
  { destruct (a =? 0).
    - bind_inv Hstat. apply time_Ok in Hm as (_ & Ha & Hb).
      bind_inv Hstat. apply time_Ok in Hm as (_ & Hc & Hd).
      unfold ret in Hstat. injection Hstat; intros; subst.
      split; congruence.
    - unfold ret in Hstat. injection Hstat; intros; subst. now split. }
  destruct Hw2 as [Hl2 Hs2].
  bind_inv H. rename a1 into current_time, w0 into w3.
  apply time_Ok in Hm as (Hct & Hl3 & Hs3).
  bind_inv H. rename a1 into due, w0 into w4, Hm into Hdue.
  assert (Hw4 : w4 = w3 /\
                ((reached (current_time - snap_duration_start l)%Q TI = true
                  /\ due = true)
                 \/ (reached (current_time - snap_duration_start l)%Q TI = false
                     /\ divides g GI = Ok due))).
  { fold TI in Hdue. fold GI in Hdue.
    destruct (reached (current_time - snap_duration_start l)%Q TI).
    - unfold ret in Hdue. injection Hdue; intros; subst.
      split; [reflexivity | left; now split].
    - apply lift_Ok in Hdue as [Hd ->].
      split; [reflexivity | right; now split]. }
  destruct Hw4 as [-> Hwhy].
  split; [exact Hli|]. split.
  { destruct due.
    - bind_inv H. apply save_data_Ok in Hm as [Hl5 _].
      bind_inv H. apply time_Ok in Hm as (_ & Hl6 & _).
      unfold ret in H. injection H; intros; subst.
      rewrite Hl6, Hl5, Hl3, Hl2. exact Hl1.
    - unfold ret in H. injection H; intros; subst.
      rewrite Hl3, Hl2. exact Hl1. }
  split.
  { destruct due.
    - bind_inv H. bind_inv H. unfold ret in H.
      injection H; intros; subst. exact Hch.
    - unfold ret in H. injection H; intros; subst. exact Hch. }
  exists due. destruct due.
  - bind_inv H. apply save_data_Ok in Hm as [_ Hwr].
    bind_inv H. apply time_Ok in Hm as (Ht & _ & Hs6).
    unfold ret in H. injection H; intros; subst. cbn.
    split; [|split; [reflexivity|split]].
    + unfold written in *. rewrite Hs6, Hwr, Hs3, Hs2, Hs1. reflexivity.
    + exists (w_clock w2). exact Hwhy.
    + eexists. reflexivity.
  - unfold ret in H. injection H; intros; subst. cbn.
    split; [|split; [reflexivity|split]].
    + unfold written. rewrite Hs3, Hs2, Hs1. now rewrite app_nil_r.
    + exists (w_clock w2). exact Hwhy.
    + reflexivity.
Qed.

(** The loop, one pass at a time from either end. *)
Lemma loop_unfold fuel n g l (w : World R) :
  loop C experiment SAVE_ALL_LINEAGES fuel (S n) g l w =
  match body fuel l g w with
  | Ok (l1, w1) => loop C experiment SAVE_ALL_LINEAGES fuel n (g + 1) l1 w1
  | Raise e => Raise e
  | OutOfFuel => OutOfFuel
  end.
Proof.
  cbn [loop]. unfold bind, body.
  destruct (loop_body C experiment SAVE_ALL_LINEAGES fuel l g w)
    as [[l1 w1]| |]; reflexivity.
Qed.

Lemma loop_last fuel n g l (w : World R) :
  loop C experiment SAVE_ALL_LINEAGES fuel (S n) g l w =
  match loop C experiment SAVE_ALL_LINEAGES fuel n g l w with
  | Ok (l1, w1) => body fuel l1 (g + Z.of_nat n) w1
  | Raise e => Raise e
  | OutOfFuel => OutOfFuel
  end.
Proof.
  revert g l w. induction n as [|n IH]; intros g l w.
  - rewrite loop_unfold. cbn [loop]. unfold ret.
    replace (g + Z.of_nat 0) with g by lia.
    destruct (body fuel l g w) as [[l1 w1]| |]; reflexivity.
  - rewrite loop_unfold. rewrite (loop_unfold fuel n g l w).
    destruct (body fuel l g w) as [[l1 w1]| |]; try reflexivity.
    rewrite IH. replace (g + 1 + Z.of_nat n) with (g + Z.of_nat (S n)) by lia.
    reflexivity.
Qed.

End Loop.

(** *** Counting the generations an interval divides *)

Lemma gens_from_last (g : Z) (n : nat) :
  gens_from g (S n) = gens_from g n ++ [g + Z.of_nat n].
Proof.
  revert g. induction n as [|n IH]; intros g.
  - cbn [gens_from app Z.of_nat]. now rewrite Z.add_0_r.
  - change (gens_from g (S (S n))) with (g :: gens_from (g + 1) (S n)).
    rewrite IH.
    change (gens_from g (S n)) with (g :: gens_from (g + 1) n).
    cbn [app]. do 3 f_equal. lia.
Qed.

Lemma div_succ (n li : Z) :
  0 < li ->
  (n + 1) / li = n / li + (if (n + 1) mod li =? 0 then 1 else 0).
Proof.
  intros Hli.
  pose proof (Z.div_mod n li ltac:(lia)) as Hn.
  pose proof (Z.mod_pos_bound n li Hli) as Hr.
  destruct (Z.eq_dec (n mod li + 1) li) as [E|E].
  - assert (Hq : n + 1 = li * (n / li + 1) + 0) by lia.
    rewrite <- (Z.div_unique (n + 1) li (n / li + 1) 0) by lia.
    rewrite <- (Z.mod_unique (n + 1) li (n / li + 1) 0) by lia.
    reflexivity.
  - assert (Hq : n + 1 = li * (n / li) + (n mod li + 1)) by lia.
    rewrite <- (Z.div_unique (n + 1) li (n / li) (n mod li + 1)) by lia.
    rewrite <- (Z.mod_unique (n + 1) li (n / li) (n mod li + 1)) by lia.
    destruct (n mod li + 1 =? 0) eqn:E0; lia.
Qed.

Lemma count_divisible (li : Z) (n : nat) :
  0 < li ->
  Z.of_nat (length (List.filter (fun g => g mod li =? 0) (gens_from 0 (S n))))
  = Z.of_nat n / li + 1.
Proof.
  intros Hli. induction n as [|n IH].
  - cbn. rewrite Z.mod_0_l by lia. cbn. rewrite Z.div_0_l by lia. reflexivity.
  - rewrite gens_from_last, List.filter_app, length_app, Nat2Z.inj_add, IH.
    replace (Z.of_nat (S n)) with (Z.of_nat n + 1) by lia.
    rewrite (div_succ (Z.of_nat n) Hli). cbn [List.filter]. rewrite Z.add_0_l.
    destruct ((Z.of_nat n + 1) mod li =? 0); cbn; lia.
Qed.

(** *** Lineages *)

Lemma last_of_nonempty {A} (l : list A) (d d' : A) :
  l <> [] -> List.last l d = List.last l d'.
Proof.
  induction l as [|x [|y t] IH]; intros H; [congruence | reflexivity |].
  change (List.last (y :: t) d = List.last (y :: t) d').
  apply IH. discriminate.
Qed.

Lemma last_cons {A} (x : A) (l : list A) (d : A) :
  l <> [] -> List.last (x :: l) d = List.last l d.
Proof. destruct l; [congruence | reflexivity]. Qed.

Lemma lineage_nonempty (a : Animat) : lineage a <> [].
Proof. destruct a. discriminate. Qed.

Lemma descends_lineage (n : nat) :
  forall a, descends n a ->
            gen a = Z.of_nat n /\
            depth a = n /\
            length (lineage a) = S n /\
            gen (root a) = 0 /\
            parent (root a) = None /\
            List.last (lineage a) a = root a /\
            map gen (lineage a) = rev (gens_from 0 (S n)).
Proof.
  induction n as [|n IH]; intros [gm g f alt p] H; cbn in H.
  - destruct H as [-> ->]. cbn. repeat split.
  - destruct H as [-> (q & -> & Hq)].
    destruct (IH q Hq) as (Hg & Hd & Hl & Hrg & Hrp & Hlast & Hgens).
    split; [reflexivity|].
    split; [cbn; now rewrite Hd|].
    split; [cbn [lineage parent length]; now rewrite Hl|].
    split; [exact Hrg|]. split; [exact Hrp|]. split.
    + cbn [lineage parent root].
      rewrite last_cons by apply lineage_nonempty.
      rewrite <- Hlast. apply last_of_nonempty, lineage_nonempty.
    + cbn [lineage parent map gen]. rewrite Hgens.
      rewrite (gens_from_last 0 (S n)), rev_app_distr. cbn [rev app].
      now rewrite Z.add_0_l.
Qed.

Lemma child_descends (n : nat) (pop : list Animat) (o : Animat) :
  Forall (descends n) pop ->
  child_of pop (Z.of_nat (S n)) o ->
  descends (S n) o.
Proof.
  intros Hpop [Hg (p & Hp & Hin)]. cbn [descends].
  split; [exact Hg|]. exists p. split; [exact Hp|].
  exact (proj1 (List.Forall_forall _ _) Hpop p Hin).
Qed.

Section Run.

Variable R : RandomModule.
Variable C : Collaborators R.
Variable experiment : Experiment.
Variable SAVE_ALL_LINEAGES : bool.

Lemma loop_logbook fuel n : forall g l (w : World R) l' w',
  loop C experiment SAVE_ALL_LINEAGES fuel n g l w = Ok (l', w') ->
  map log_gen (w_logbook w')
  = map log_gen (w_logbook w) ++ logged experiment (gens_from g n).
Proof.
  induction n as [|n IH]; intros g l w l' w' H.
  - cbn in H. unfold ret in H. injection H; intros; subst.
    cbn. now rewrite app_nil_r.
  - rewrite loop_unfold in H.
    destruct (loop_body C experiment SAVE_ALL_LINEAGES fuel l g w)
      as [[l1 w1]| |] eqn:Hb; try discriminate.
    apply loop_body_Ok in Hb as (_ & Hlog & _).
    rewrite (IH _ _ _ _ _ H), Hlog, <- app_assoc. f_equal.
    unfold logged. cbn [gens_from List.filter].
    destruct (g mod log_interval experiment =? 0); reflexivity.
Qed.

Lemma loop_descends fuel n : forall k l (w : World R) l' w',
  Forall (descends k) (population l) ->
  loop C experiment SAVE_ALL_LINEAGES fuel n (Z.of_nat (S k)) l w
  = Ok (l', w') ->
  Forall (descends (k + n)) (population l').
Proof.
  induction n as [|n IH]; intros k l w l' w' Hpop H.
  - cbn in H. unfold ret in H. injection H; intros; subst.
    now rewrite Nat.add_0_r.
  - rewrite loop_unfold in H.
    destruct (loop_body C experiment SAVE_ALL_LINEAGES fuel l
                        (Z.of_nat (S k)) w)
      as [[l1 w1]| |] eqn:Hb; try discriminate.
    apply loop_body_Ok in Hb as (_ & _ & Hch & _).
    replace (k + S n)%nat with (S k + n)%nat by lia.
    apply (IH (S k) l1 w1 l' w').
    + apply List.Forall_forall. intros o Ho.
      eapply child_descends; [exact Hpop|].
      exact (proj1 (List.Forall_forall _ _) Hch o Ho).
    + replace (Z.of_nat (S (S k))) with (Z.of_nat (S k) + 1) by lia.
      exact H.
Qed.

Lemma loop_written fuel n : forall g l (w : World R) l' w',
  never_by_time C experiment ->
  (exists j, snap_duration_start l = now C j) ->
  loop C experiment SAVE_ALL_LINEAGES fuel n g l w = Ok (l', w') ->
  written w'
  = written w
      ++ by_generation_count (SNAPSHOT_GENERATION_INTERVAL experiment)
                             n g (snapshot l).
Proof.
  induction n as [|n IH]; intros g l w l' w' Hnever [j Hj] H.
  - cbn in H. unfold ret in H. injection H; intros; subst.
    cbn. now rewrite app_nil_r.
  - rewrite loop_unfold in H.
    destruct (loop_body C experiment SAVE_ALL_LINEAGES fuel l g w)
      as [[l1 w1]| |] eqn:Hb; try discriminate.
    apply loop_body_Ok in Hb
      as (_ & _ & _ & due & Hwr & Hsn & [c Hwhy] & Hst).
    rewrite Hj in Hwhy. rewrite (Hnever j c) in Hwhy.
    destruct Hwhy as [[Hx _]|[_ Hdiv]]; [discriminate|].
    assert (Hj1 : exists j1, snap_duration_start l1 = now C j1).
    { destruct due; [exact Hst | exists j; congruence]. }
    rewrite (IH _ _ _ _ _ Hnever Hj1 H), Hwr, <- app_assoc. f_equal.
    cbn [by_generation_count]. rewrite Hdiv, Hsn.
    destruct due; reflexivity.
Qed.

Lemma evaluate_new_population (n : nat) (pop : list Animat) :
  evaluate C experiment
           (repeat (new_Animat experiment (init_genome experiment)) n)
  = Ok pop ->
  Forall (descends 0) pop.
Proof.
  intros H. apply evaluate_ancestry in H.
  remember (repeat _ n) as fresh eqn:Ef.
  assert (Hf : Forall (descends 0) fresh).
  { subst fresh. apply List.Forall_forall. intros a Ha.
    apply repeat_spec in Ha as ->. split; reflexivity. }
  clear Ef. induction H as [|a a' l l' [Hg Hp] _ IH]; [constructor|].
  inversion Hf as [|? ? [Ha1 Ha2] Hl]; subst.
  constructor; [split; congruence | now apply IH].
Qed.

(** The head of the loop: generation 0 is recorded, nothing is written,
    the first snapshot is number 1. *)
Lemma setup_Ok (w : World R) l w' :
  setup C experiment w = Ok (l, w') ->
  log_interval experiment <> 0 /\
  map log_gen (w_logbook w') = map log_gen (w_logbook w) ++ [0] /\
  written w' = written w /\
  snapshot l = 1 /\
  (exists j, snap_duration_start l = now C j) /\
  Forall (descends 0) (population l).
Proof.
  unfold setup. intros H.
  bind_inv H. apply time_Ok in Hm as (_ & Hl0 & Hs0).
  bind_inv H. apply time_Ok in Hm as (_ & Hl1 & Hs1).
  bind_inv H. apply lift_Ok in Hm as [Hev ->].
  bind_inv H. apply record_Ok in Hm as (Hli & Hs2 & Hl2).
  bind_inv H. apply time_Ok in Hm as (_ & Hl3 & Hs3).
  bind_inv H. apply time_Ok in Hm as (_ & Hl4 & Hs4).
  bind_inv H. apply time_Ok in Hm as (Ht & Hl5 & Hs5).
  unfold ret in H. injection H; intros; subst. cbn.
  split; [exact Hli|]. split.
  { rewrite Hl5, Hl4, Hl3, Hl2, Hl1, Hl0.
    rewrite Z.mod_0_l by exact Hli. reflexivity. }
  split.
  { unfold written. now rewrite Hs5, Hs4, Hs3, Hs2, Hs1, Hs0. }
  split; [reflexivity|]. split; [eexists; reflexivity|].
  eapply evaluate_new_population; eassumption.
Qed.

Lemma generations_Ok fuel n (w : World R) l w' :
  generations C experiment SAVE_ALL_LINEAGES fuel n w = Ok (l, w') ->
  log_interval experiment <> 0 /\
  map log_gen (w_logbook w')
  = map log_gen (w_logbook w) ++ logged experiment (gens_from 0 (S n)) /\
  Forall (descends n) (population l) /\
  (never_by_time C experiment ->
   written w'
   = written w
       ++ by_generation_count (SNAPSHOT_GENERATION_INTERVAL experiment)
                              n 1 1).
Proof.
  unfold generations. intros H. bind_inv H.
  apply setup_Ok in Hm as (Hli & Hlog & Hwr & Hsn & Hst & Hpop).
  split; [exact Hli|]. split; [|split].
  - rewrite (loop_logbook _ _ _ _ _ H), Hlog, <- app_assoc. reflexivity.
  - exact (@loop_descends fuel n O a w0 l w' Hpop H).
  - intros Hnever.
    rewrite (@loop_written fuel n 1 a w0 l w' Hnever Hst H), Hwr, Hsn.
    reflexivity.
Qed.

Lemma main_Ok fuel (w : World R) l w' :
  main C experiment SAVE_ALL_LINEAGES fuel w = Ok (l, w') ->
  1 <= ngen experiment /\
  exists w1,
    generations C experiment SAVE_ALL_LINEAGES fuel
                (Z.to_nat (ngen experiment)) w = Ok (l, w1) /\
    w_logbook w' = w_logbook w1 /\
    written w' = written w1 ++ [(OutputDir, ngen experiment)].
Proof.
  unfold main. intros H. bind_inv H. rename Hm into Hgen.
  bind_inv H. apply time_Ok in Hm as (_ & Hl1 & Hs1).
  bind_inv H.
  destruct (ngen experiment <=? 0) eqn:E; [discriminate|].
  unfold ret in Hm. injection Hm; intros; subst. clear Hm.
  bind_inv H. apply save_data_Ok in Hm as [Hl2 Hwr].
  unfold ret in H. injection H; intros; subst.
  split; [lia|]. exists w0. split; [exact Hgen|]. split; [congruence|].
  rewrite Hwr. unfold written. now rewrite Hs1.
Qed.

End Run.

(** ** The Logbook *)

Lemma gens_from_In (x g : Z) (n : nat) :
  In x (gens_from g n) <-> g <= x < g + Z.of_nat n.
Proof.
  revert g. induction n as [|n IH]; intros g; cbn [gens_from In].
  - lia.
  - rewrite IH. lia.
Qed.

(** C6, as the code has it.  A run of [main] that completes leaves in the
    Logbook, in order, one record for each generation [g] in [0..ngen] with
    [g % log_interval == 0] and no other; generation 0 is among them; for a
    log interval of at least 1 that makes [ngen // log_interval + 1]
    records (the quotient rounded down, not up). *)
Theorem logbook_holds_interval_generations
        (R : RandomModule) (C : Collaborators R) (experiment : Experiment)
        (SAVE_ALL_LINEAGES : bool) (fuel : nat) (w : World R)
        (l : Locals) (w' : World R) :
  w_logbook w = [] ->
  main C experiment SAVE_ALL_LINEAGES fuel w = Ok (l, w') ->
  map log_gen (w_logbook w')
  = logged experiment (generations_upto (ngen experiment)) /\
  (forall g, In g (map log_gen (w_logbook w')) <->
             0 <= g <= ngen experiment /\
             py_mod g (log_interval experiment) = Ok 0) /\
  In 0 (map log_gen (w_logbook w')) /\
  (1 <= log_interval experiment ->
   Z.of_nat (length (w_logbook w'))
   = ngen experiment / log_interval experiment + 1).
Proof.
  intros Hempty H.
  apply main_Ok in H as (Hngen & w1 & Hgen & Hlog & _).
  apply generations_Ok in Hgen as (Hli & Hgens & _).
  rewrite Hempty in Hgens. cbn [map app] in Hgens. rewrite <- Hlog in Hgens.
  fold (generations_upto (ngen experiment)) in Hgens.
  assert (Hin : forall g, In g (map log_gen (w_logbook w')) <->
                          0 <= g <= ngen experiment /\
                          py_mod g (log_interval experiment) = Ok 0).
  { intros g. rewrite Hgens. unfold logged, generations_upto.
    rewrite List.filter_In, gens_from_In, Z.eqb_eq. unfold py_mod.
    destruct (log_interval experiment =? 0) eqn:E; [lia|].
    split.
    - intros [Hr Hm]. split; [lia | now rewrite Hm].
    - intros [Hr Hm]. split; [lia | congruence]. }
  split; [exact Hgens|]. split; [exact Hin|]. split.
  - apply Hin. split; [lia|]. unfold py_mod.
    destruct (log_interval experiment =? 0) eqn:E; [lia|].
    now rewrite Z.mod_0_l by exact Hli.
  - intros Hpos.
    rewrite <- (length_map log_gen), Hgens.
    unfold logged, generations_upto.
    rewrite count_divisible by lia. f_equal. f_equal. lia.
Qed.

(** The statement above on the end-to-end scenario with log interval 2. *)
Lemma logbook_holds_interval_generations_witness :
  exists l w',
    main sample_single (sample_experiment 2 0 3) false 3
         (initial_world tape_random []) = Ok (l, w') /\
    map log_gen (w_logbook w') = [0; 2] /\
    Z.of_nat (length (w_logbook w')) = 3 / 2 + 1.
Proof.
  destruct (main sample_single (sample_experiment 2 0 3) false 3
                 (initial_world tape_random [])) as [[l w']| |] eqn:E.
  - exists l, w'. split; [reflexivity|].
    destruct (@logbook_holds_interval_generations
                tape_random sample_single (sample_experiment 2 0 3) false 3
                (initial_world tape_random []) l w' eq_refl E)
      as (Hgens & _ & _ & Hlen).
    split; [exact Hgens | apply Hlen; cbn; lia].
  - vm_compute in E. discriminate.
  - vm_compute in E. discriminate.
Defined.

(** C6 as stated fails on its count: in the end-to-end scenario (four
    animats, three generations) with a log interval of 2 the Logbook holds
    the records of generations 0 and 2, which is two records and not
    ceil(3/2) + 1 = 3. *)
Lemma logbook_count_is_not_rounded_up :
  logbook_gens (main sample_single (sample_experiment 2 0 3) false 3
                     (initial_world tape_random []))
  = Some [0; 2] /\
  Z.of_nat (length [0; 2]) <> ceil_div 3 2 + 1.
Proof. split; [vm_compute; reflexivity | vm_compute; discriminate]. Qed.

(** ** Snapshots *)

Lemma never_by_time_when_off {R} (C : Collaborators R) (e : Experiment) :
  snapshot_frequency e <= 0 -> never_by_time C e.
Proof.
  intros H i j. unfold SNAPSHOT_TIME_INTERVAL.
  destruct (snapshot_frequency e * 60 <=? 0) eqn:E; [reflexivity | lia].
Qed.

Lemma no_snapshot_by_count (n : nat) (g s : Z) :
  1 <= g -> by_generation_count Infinity n g s = [].
Proof.
  revert g s. induction n as [|n IH]; intros g s Hg; [reflexivity|].
  cbn [by_generation_count divides].
  destruct (g =? 0) eqn:E; [lia|]. apply IH. lia.
Qed.

(** C7.  With a wall clock that never triggers a snapshot, a completed run
    of 10 generations with a minimum of 2 snapshots writes snapshot 1 at
    generation 5 and snapshot 2 at generation 10 and then the final data of
    generation 10 to the output directory, and nothing else.  With a minimum
    of 0 or less, the generation test is false at every generation other
    than 0, so such a run writes the final data only. *)
Theorem snapshots_by_generation_count
        (R : RandomModule) (C : Collaborators R) (experiment : Experiment)
        (SAVE_ALL_LINEAGES : bool) (fuel : nat) (w : World R)
        (l : Locals) (w' : World R) :
  never_by_time C experiment ->
  w_saved w = [] ->
  main C experiment SAVE_ALL_LINEAGES fuel w = Ok (l, w') ->
  (min_snapshots experiment = 2 -> ngen experiment = 10 ->
   SNAPSHOT_GENERATION_INTERVAL experiment = Finite (10 / 2) /\
   written w' = [(SnapshotDir 1 5, 5); (SnapshotDir 2 10, 10);
                 (OutputDir, 10)]) /\
  (min_snapshots experiment <= 0 ->
   SNAPSHOT_GENERATION_INTERVAL experiment = Infinity /\
   (forall g, g <> 0 -> divides g Infinity = Ok false) /\
   written w' = [(OutputDir, ngen experiment)]).
Proof.
  intros Hnever Hempty H.
  apply main_Ok in H as (Hngen & w1 & Hgen & _ & Hwr).
  apply generations_Ok in Hgen as (_ & _ & _ & Hsnap).
  specialize (Hsnap Hnever).
  unfold written at 2 in Hsnap. rewrite Hempty in Hsnap.
  cbn [map app] in Hsnap. rewrite Hsnap in Hwr. clear Hsnap.
  split.
  - intros Hmin Hn.
    assert (HI : SNAPSHOT_GENERATION_INTERVAL experiment = Finite (10 / 2)).
    { unfold SNAPSHOT_GENERATION_INTERVAL. now rewrite Hmin, Hn. }
    split; [exact HI|]. rewrite Hwr, HI, Hn. reflexivity.
  - intros Hmin.
    assert (HI : SNAPSHOT_GENERATION_INTERVAL experiment = Infinity).
    { unfold SNAPSHOT_GENERATION_INTERVAL.
      destruct (min_snapshots experiment <=? 0) eqn:E; [reflexivity | lia]. }
    split; [exact HI|]. split.
    + intros g Hg. cbn. destruct (g =? 0) eqn:E; [lia | reflexivity].
    + rewrite Hwr, HI, no_snapshot_by_count by lia. reflexivity.
Qed.

(** The statement above on ten generations with a minimum of two
    snapshots, the wall-clock interval switched off. *)
Lemma snapshots_by_generation_count_witness :
  exists l w',
    main sample_single (sample_experiment 1 2 10) false 3
         (initial_world tape_random []) = Ok (l, w') /\
    written w' = [(SnapshotDir 1 5, 5); (SnapshotDir 2 10, 10);
                  (OutputDir, 10)].
Proof.
  destruct (main sample_single (sample_experiment 1 2 10) false 3
                 (initial_world tape_random [])) as [[l w']| |] eqn:E.
  - exists l, w'. split; [reflexivity|].
    destruct (@snapshots_by_generation_count
                tape_random sample_single (sample_experiment 1 2 10) false 3
                (initial_world tape_random []) l w'
                (never_by_time_when_off sample_single
                   (sample_experiment 1 2 10) ltac:(cbn; lia))
                eq_refl E) as [Hcad _].
    apply Hcad; reflexivity.
  - vm_compute in E. discriminate.
  - vm_compute in E. discriminate.
Defined.

(** A run with a minimum of zero snapshots writes the final data only. *)
Example no_snapshot_run :
  option_map (fun w => written w)
             (match main sample_single (sample_experiment 1 0 10) false 3
                         (initial_world tape_random []) with
              | Ok (_, w') => Some w'
              | _ => None
              end)
  = Some [(OutputDir, 10)].
Proof. vm_compute. reflexivity. Qed.

(** ** Lineages *)

(** C9.  After [n] generations of a run, every animat of the live
    population carries generation [n] and is [n] parent references away
    from a generation-0 animat without parent: its lineage has [n + 1]
    members, of generations [n, n-1, .., 0], and ends at that root.  When
    [n] is not 0 the run passed through the population of generation
    [n - 1], and the parent of each animat is a member of it. *)
Theorem lineage_reaches_generation_zero
        (R : RandomModule) (C : Collaborators R) (experiment : Experiment)
        (SAVE_ALL_LINEAGES : bool) (fuel n : nat) (w : World R)
        (l : Locals) (w' : World R) :
  generations C experiment SAVE_ALL_LINEAGES fuel n w = Ok (l, w') ->
  Forall (fun a =>
            descends n a /\
            gen a = Z.of_nat n /\
            depth a = n /\
            length (lineage a) = S n /\
            map gen (lineage a) = rev (gens_from 0 (S n)) /\
            List.last (lineage a) a = root a /\
            gen (root a) = 0 /\
            parent (root a) = None)
         (population l) /\
  (forall n', n = S n' ->
              exists l0 w0,
                generations C experiment SAVE_ALL_LINEAGES fuel n' w
                = Ok (l0, w0) /\
                Forall (child_of (population l0) (Z.of_nat n))
                       (population l)).
Proof.
  intros H. split.
  - pose proof (generations_Ok _ _ _ _ _ _ H) as (_ & _ & Hpop & _).
    apply List.Forall_forall. intros a Ha.
    pose proof (proj1 (List.Forall_forall _ _) Hpop a Ha) as Hd.
    destruct (descends_lineage n a Hd) as (Hg & Hdp & Hl & Hrg & Hrp & Hla & Hgs).
    repeat split; assumption.
  - intros n' ->. unfold generations in *.
    apply bind_Ok in H as (l1 & w1 & Hs & H).
    rewrite loop_last in H.
    destruct (loop C experiment SAVE_ALL_LINEAGES fuel n' 1 l1 w1)
      as [[l0 w0]| |] eqn:El; try discriminate.
    exists l0, w0. split.
    + erewrite bind_step by exact Hs. exact El.
    + apply loop_body_Ok in H as (_ & _ & Hch & _).
      replace (Z.of_nat (S n')) with (1 + Z.of_nat n') by lia. exact Hch.
Qed.

(** The statement above after three generations of the end-to-end
    scenario. *)
Lemma lineage_reaches_generation_zero_witness :
  exists l w',
    generations sample_single (sample_experiment 1 0 3) false 3 3
                (initial_world tape_random []) = Ok (l, w') /\
    Forall (fun a => length (lineage a) = 4%nat /\ gen (root a) = 0)
           (population l).
Proof.
  destruct (generations sample_single (sample_experiment 1 0 3) false 3 3
                        (initial_world tape_random []))
    as [[l w']| |] eqn:E.
  - exists l, w'. split; [reflexivity|].
    destruct (@lineage_reaches_generation_zero
                tape_random sample_single (sample_experiment 1 0 3) false 3 3
                (initial_world tape_random []) l w' E) as [Hall _].
    apply List.Forall_forall. intros a Ha.
    pose proof (proj1 (List.Forall_forall _ _) Hall a Ha)
      as (_ & _ & _ & Hlen & _ & _ & Hroot & _).
    split; assumption.
  - vm_compute in E. discriminate.
  - vm_compute in E. discriminate.
Defined.

(** ** The states of a game *)

(** *** The order of [np.lexsort] *)

Lemma lex_compare_refl (a : list Z) : lex_compare a a = Eq.
Proof.
  induction a as [|x a IH]; [reflexivity|].
  cbn. now rewrite Z.compare_refl.
Qed.

Lemma lex_compare_eq (a b : list Z) : lex_compare a b = Eq -> a = b.
Proof.
  revert b. induction a as [|x a IH]; intros [|y b]; cbn; try discriminate.
  - reflexivity.
  - destruct (x ?= y) eqn:E; try discriminate.
    apply Z.compare_eq in E. intros H. f_equal; [exact E | now apply IH].
Qed.

Lemma lex_compare_antisym (a b : list Z) :
  lex_compare b a = CompOpp (lex_compare a b).
Proof.
  revert b. induction a as [|x a IH]; intros [|y b]; cbn; try reflexivity.
  rewrite (Z.compare_antisym x y).
  destruct (x ?= y); cbn; [apply IH | reflexivity | reflexivity].
Qed.

Lemma lex_compare_trans (a b c : list Z) :
  lex_compare a b = Lt -> lex_compare b c = Lt -> lex_compare a c = Lt.
Proof.
  revert b c. induction a as [|x a IH]; intros [|y b] [|z c]; cbn;
    try discriminate; try reflexivity.
  destruct (x ?= y) eqn:Exy; try discriminate;
    destruct (y ?= z) eqn:Eyz; try discriminate.
  - apply Z.compare_eq in Exy, Eyz. subst.
    rewrite Z.compare_refl. apply IH.
  - apply Z.compare_eq in Exy. subst. rewrite Eyz. reflexivity.
  - apply Z.compare_eq in Eyz. subst. rewrite Exy. reflexivity.
  - intros _ _. rewrite Z.compare_lt_iff in Exy, Eyz.
    assert (H : x < z) by lia. apply Z.compare_lt_iff in H.
    rewrite H. reflexivity.
Qed.

Lemma state_eqb_eq (a b : state) : state_eqb a b = true <-> a = b.
Proof.
  unfold state_eqb. split.
  - destruct (lex_compare a b) eqn:E; try discriminate.
    intros _. now apply lex_compare_eq.
  - intros ->. now rewrite lex_compare_refl.
Qed.

Lemma key_compare_eq (a b : state) : key_compare a b = Eq -> a = b.
Proof.
  unfold key_compare. intros H. apply lex_compare_eq in H.
  rewrite <- (rev_involutive a), <- (rev_involutive b). now f_equal.
Qed.

Lemma key_compare_trans (a b c : state) :
  key_compare a b = Lt -> key_compare b c = Lt -> key_compare a c = Lt.
Proof. unfold key_compare. apply lex_compare_trans. Qed.

Lemma key_compare_antisym (a b : state) :
  key_compare b a = CompOpp (key_compare a b).
Proof. unfold key_compare. apply lex_compare_antisym. Qed.

(** [key_leb] is a total preorder whose ties are equal rows. *)
Lemma key_leb_cases (a b : state) :
  key_leb a b = true <-> key_compare a b = Lt \/ a = b.
Proof.
  unfold key_leb. split.
  - destruct (key_compare a b) eqn:E; try discriminate.
    + intros _. right. now apply key_compare_eq.
    + intros _. now left.
  - intros [-> | ->]; [reflexivity|].
    unfold key_compare. now rewrite lex_compare_refl.
Qed.

Lemma key_leb_total (a b : state) :
  key_leb a b = false -> key_compare b a = Lt.
Proof.
  unfold key_leb. rewrite (key_compare_antisym a b).
  destruct (key_compare a b); try discriminate. reflexivity.
Qed.

Lemma key_leb_trans (a b c : state) :
  key_leb a b = true -> key_leb b c = true -> key_leb a c = true.
Proof.
  rewrite !key_leb_cases. intros [Hab | ->] [Hbc | ->]; auto.
  left. eapply key_compare_trans; eassumption.
Qed.

Lemma key_lt_leb_trans (a b c : state) :
  key_lt a b -> key_leb b c = true -> key_lt a c.
Proof.
  unfold key_lt. rewrite key_leb_cases. intros Hab [Hbc | <-]; [|exact Hab].
  eapply key_compare_trans; eassumption.
Qed.

(** *** Sorting the rows *)

Lemma insert_row_In (p x : nat * state) (l : list (nat * state)) :
  In x (insert_row p l) <-> x = p \/ In x l.
Proof.
  induction l as [|q t IH]; cbn.
  - intuition congruence.
  - destruct (key_leb (snd p) (snd q)); cbn; [intuition congruence|].
    rewrite IH. intuition congruence.
Qed.

Lemma insert_row_sorted (p : nat * state) (l : list (nat * state)) :
  StronglySorted rows_le l -> StronglySorted rows_le (insert_row p l).
Proof.
  induction 1 as [|q t Ht IH Hq]; cbn.
  - constructor; constructor.
  - destruct (key_leb (snd p) (snd q)) eqn:E.
    + constructor; [constructor; assumption|].
      constructor; [exact E|].
      apply List.Forall_forall. intros x Hx.
      eapply key_leb_trans; [exact E|].
      exact (proj1 (List.Forall_forall _ _) Hq x Hx).
    + constructor; [exact IH|].
      apply List.Forall_forall. intros x Hx.
      apply insert_row_In in Hx as [-> | Hx].
      * apply key_leb_cases. left. now apply key_leb_total.
      * exact (proj1 (List.Forall_forall _ _) Hq x Hx).
Qed.

Lemma sort_rows_sorted (l : list (nat * state)) :
  StronglySorted rows_le (sort_rows l).
Proof.
  induction l as [|p l IH]; cbn; [constructor|].
  now apply insert_row_sorted.
Qed.

Lemma sort_rows_In (x : nat * state) (l : list (nat * state)) :
  In x (sort_rows l) <-> In x l.
Proof.
  induction l as [|p l IH]; cbn; [tauto|].
  rewrite insert_row_In, IH. intuition congruence.
Qed.

Lemma sort_rows_length (l : list (nat * state)) :
  length (sort_rows l) = length l.
Proof.
  assert (Hins : forall p t, length (insert_row p t) = S (length t)).
  { intros p t. induction t as [|q t IH]; cbn; [reflexivity|].
    destruct (key_leb (snd p) (snd q)); cbn; [reflexivity | now rewrite IH]. }
  induction l as [|p l IH]; [reflexivity|].
  change (sort_rows (p :: l)) with (insert_row p (sort_rows l)).
  rewrite Hins, IH. reflexivity.
Qed.

Lemma combine_seq_nth (l : list state) :
  forall k i r,
    In (i, r) (combine (seq k (length l)) l) -> nth (i - k) l [] = r.
Proof.
  induction l as [|a l IH]; intros k i r; cbn; [tauto|].
  intros [H | H].
  - injection H as <- <-. now rewrite Nat.sub_diag.
  - pose proof (in_combine_l _ _ _ _ H) as Hi. apply in_seq in Hi.
    specialize (IH _ _ _ H).
    replace (i - k)%nat with (S (i - S k)) by lia. exact IH.
Qed.

(** [game[np.lexsort(game.T), :]] is the sorted list of the rows. *)
Lemma take_rows_lexsort (game : list state) :
  take_rows game (lexsort game)
  = map snd (sort_rows (combine (seq 0 (length game)) game)).
Proof.
  unfold take_rows, lexsort. rewrite map_map.
  apply map_ext_in. intros [i r] Hin. cbn.
  apply (proj1 (sort_rows_In _ _)) in Hin. apply combine_seq_nth in Hin.
  now rewrite Nat.sub_0_r in Hin.
Qed.

Lemma sorted_game_sorted (game : list state) :
  StronglySorted (fun a b => key_leb a b = true)
                 (take_rows game (lexsort game)).
Proof.
  rewrite take_rows_lexsort.
  generalize (sort_rows_sorted (combine (seq 0 (length game)) game)).
  generalize (sort_rows (combine (seq 0 (length game)) game)).
  intros l. induction 1 as [|p t Ht IH Hp]; cbn; constructor; [exact IH|].
  apply List.Forall_forall. intros x Hx.
  apply in_map_iff in Hx as (q & <- & Hq).
  exact (proj1 (List.Forall_forall _ _) Hp q Hq).
Qed.

Lemma sorted_game_length (game : list state) :
  length (take_rows game (lexsort game)) = length game.
Proof.
  rewrite take_rows_lexsort, length_map, sort_rows_length, length_combine,
    length_seq. lia.
Qed.

(** *** The unique states *)

Lemma diff_idx_from_ge (rows : list state) :
  forall i j, In j (diff_idx_from i rows) -> i <= j.
Proof.
  induction rows as [|a [|b t] IH]; intros i j; cbn [diff_idx_from];
    try (intros []).
  destruct (state_eqb a b).
  - intros H. apply IH in H. lia.
  - intros [<- | H]; [lia|]. apply IH in H. lia.
Qed.

(** The rows that [diff_idx] points at are the run ends. *)
Lemma diff_idx_rows (rows : list state) :
  forall i,
    map (fun j => nth (Z.to_nat (j - i)) rows []) (diff_idx_from i rows)
    = run_ends rows.
Proof.
  induction rows as [|a [|b t] IH]; intros i; try reflexivity.
  assert (Hshift :
            map (fun j => nth (Z.to_nat (j - i)) (a :: b :: t) [])
                (diff_idx_from (i + 1) (b :: t))
            = run_ends (b :: t)).
  { rewrite <- (IH (i + 1)). apply map_ext_in. intros j Hj.
    apply diff_idx_from_ge in Hj.
    replace (Z.to_nat (j - i)) with (S (Z.to_nat (j - (i + 1)))) by lia.
    reflexivity. }
  change (diff_idx_from i (a :: b :: t))
    with (if state_eqb a b then diff_idx_from (i + 1) (b :: t)
          else i :: diff_idx_from (i + 1) (b :: t)).
  change (run_ends (a :: b :: t))
    with (if state_eqb a b then run_ends (b :: t) else a :: run_ends (b :: t)).
  destruct (state_eqb a b).
  - exact Hshift.
  - cbn [map]. rewrite Hshift. rewrite Z.sub_diag. reflexivity.
Qed.

Lemma last_item_cons {A} (a : A) (l : list A) :
  l <> [] -> last_item (a :: l) = last_item l.
Proof.
  unfold last_item. cbn [rev]. intros H.
  destruct (rev l) as [|x t] eqn:E; [|reflexivity].
  apply (f_equal (@rev A)) in E. rewrite rev_involutive in E.
  cbn in E. congruence.
Qed.

Lemma last_item_In {A} (l : list A) (x : A) :
  last_item l = Ok x -> In x l.
Proof.
  unfold last_item. destruct (rev l) as [|y t] eqn:E; [discriminate|].
  intros H. injection H as ->. apply in_rev. rewrite E. now left.
Qed.

Lemma last_item_nonempty {A} (l : list A) :
  l <> [] -> exists x, last_item l = Ok x.
Proof.
  unfold last_item. intros H. destruct (rev l) as [|y t] eqn:E; [|eauto].
  apply (f_equal (@rev A)) in E. rewrite rev_involutive in E.
  cbn in E. congruence.
Qed.

Lemma run_ends_In (rows : list state) (x : state) :
  In x (run_ends rows) -> In x rows.
Proof.
  induction rows as [|a [|b t] IH]; cbn [run_ends]; try (intros []).
  destruct (state_eqb a b).
  - intros H. right. now apply IH.
  - intros [<- | H]; [now left | right; now apply IH].
Qed.

(** On sorted rows the unique states come out strictly ascending. *)
Lemma unique_states_ascending (rows : list state) (final : state) :
  StronglySorted (fun a b => key_leb a b = true) rows ->
  last_item rows = Ok final ->
  StronglySorted key_lt (run_ends rows ++ [final]).
Proof.
  induction rows as [|a [|b t] IH]; intros Hs Hl.
  - discriminate.
  - cbn in Hl. injection Hl as <-. cbn. repeat constructor.
  - rewrite last_item_cons in Hl by discriminate.
    inversion Hs as [|? ? Hs' Ha]; subst.
    specialize (IH Hs' Hl). cbn [run_ends].
    destruct (state_eqb a b) eqn:E; [exact IH|].
    cbn [app]. constructor; [exact IH|].
    assert (Hab : key_lt a b).
    { inversion Ha as [|? ? Hab _]; subst.
      apply key_leb_cases in Hab as [Hab | ->]; [exact Hab|].
      rewrite (proj2 (state_eqb_eq b b) eq_refl) in E. discriminate. }
    assert (Hb : forall x, In x (b :: t) -> key_leb b x = true).
    { intros x [<- | Hx].
      - apply key_leb_cases. now right.
      - inversion Hs' as [|? ? _ Hbt]; subst.
        exact (proj1 (List.Forall_forall _ _) Hbt x Hx). }
    apply List.Forall_forall. intros x Hx.
    eapply key_lt_leb_trans; [exact Hab | apply Hb].
    apply in_app_or in Hx as [Hx | [<- | []]].
    + now apply run_ends_In.
    + now apply last_item_In.
Qed.

Lemma combine_ascending (us : list state) :
  StronglySorted key_lt us ->
  forall cs : list Z,
    StronglySorted (fun p q => key_lt (fst p) (fst q)) (combine us cs).
Proof.
  induction 1 as [|u us Hus IH Hu]; intros [|c cs]; cbn; try constructor.
  - apply IH.
  - apply List.Forall_forall. intros [x d] Hx.
    apply in_combine_l in Hx. cbn.
    exact (proj1 (List.Forall_forall _ _) Hu x Hx).
Qed.

Lemma np_diff_length (x : Z) (l : list Z) :
  length (np_diff (x :: l)) = length l.
Proof.
  revert x. induction l as [|y l IH]; intros x; [reflexivity|].
  change (np_diff (x :: y :: l)) with ((y - x) :: np_diff (y :: l)).
  cbn [length]. now rewrite IH.
Qed.

(** On a game with at least one row the pairs exist, are strictly ascending
    in the order of [np.lexsort], and are one fewer than the unique
    states. *)
Lemma states_and_counts_Ok (game : list (list state)) :
  reshape game <> [] ->
  exists pairs,
    states_and_counts game = Ok pairs /\
    StronglySorted (fun p q => key_lt (fst p) (fst q)) pairs /\
    length pairs
    = length (run_ends (take_rows (reshape game) (lexsort (reshape game)))).
Proof.
  intros Hne. unfold states_and_counts.
  set (rows := take_rows (reshape game) (lexsort (reshape game))).
  assert (Hrows : rows <> []).
  { intros E. apply (f_equal (@length state)) in E.
    unfold rows in E. rewrite sorted_game_length in E.
    destruct (reshape game); [congruence | discriminate]. }
  destruct (last_item_nonempty Hrows) as [final Hfinal].
  rewrite Hfinal. eexists. split; [reflexivity|].
  assert (Hu : map (fun i => nth (Z.to_nat i) rows []) (diff_idx_from 0 rows)
               = run_ends rows).
  { rewrite <- (diff_idx_rows rows 0). apply map_ext. intros j.
    now rewrite Z.sub_0_r. }
  assert (Hlen : length (run_ends rows) = length (diff_idx_from 0 rows)).
  { rewrite <- Hu. apply length_map. }
  rewrite Hu. split.
  - apply combine_ascending.
    apply unique_states_ascending; [apply sorted_game_sorted | exact Hfinal].
  - rewrite length_combine, np_diff_length, length_app, Hlen. cbn. lia.
Qed.

(** *** The ranking by count *)

Lemma insert_desc_In (p x : state * Z) (l : list (state * Z)) :
  In x (insert_desc p l) <-> x = p \/ In x l.
Proof.
  induction l as [|q t IH]; cbn.
  - intuition congruence.
  - destruct (snd q <=? snd p); cbn; [intuition congruence|].
    rewrite IH. intuition congruence.
Qed.

Lemma insert_desc_perm (p : state * Z) (l : list (state * Z)) :
  Permutation (insert_desc p l) (p :: l).
Proof.
  induction l as [|q t IH]; cbn; [reflexivity|].
  destruct (snd q <=? snd p); [reflexivity|].
  rewrite IH. apply perm_swap.
Qed.

Lemma sorted_desc_perm (l : list (state * Z)) :
  Permutation (sorted_desc l) l.
Proof.
  induction l as [|p l IH]; [reflexivity|].
  change (sorted_desc (p :: l)) with (insert_desc p (sorted_desc l)).
  rewrite insert_desc_perm. now constructor.
Qed.

Lemma sorted_desc_In (x : state * Z) (l : list (state * Z)) :
  In x (sorted_desc l) -> In x l.
Proof. apply Permutation_in, sorted_desc_perm. Qed.

Lemma sorted_desc_length (l : list (state * Z)) :
  length (sorted_desc l) = length l.
Proof. apply Permutation_length, sorted_desc_perm. Qed.

(** A pair whose state precedes all states of a ranked list goes before
    the first pair whose count is not greater. *)
Lemma insert_desc_sorted (p : state * Z) (l : list (state * Z)) :
  StronglySorted ranks_before l ->
  Forall (fun q => key_lt (fst p) (fst q)) l ->
  StronglySorted ranks_before (insert_desc p l).
Proof.
  induction 1 as [|q t Ht IH Hq]; intros Hp; cbn.
  - repeat constructor.
  - inversion Hp as [|? ? Hpq Hpt]; subst.
    destruct (snd q <=? snd p) eqn:E.
    + constructor; [constructor; assumption|].
      assert (Hle : forall x, In x (q :: t) -> snd x <= snd p).
      { intros x [<- | Hx]; [lia|].
        pose proof (proj1 (List.Forall_forall _ _) Hq x Hx) as [H | [H _]];
          lia. }
      apply List.Forall_forall. intros x Hx.
      pose proof (Hle x Hx) as Hxp.
      pose proof (proj1 (List.Forall_forall _ _) Hp x Hx) as Hkey.
      unfold ranks_before.
      destruct (Z.eq_dec (snd x) (snd p)) as [Heq | Hne];
        [right; split; [symmetry; exact Heq | exact Hkey] | left; lia].
    + constructor; [now apply IH|].
      apply List.Forall_forall. intros x Hx.
      apply insert_desc_In in Hx as [-> | Hx].
      * left. lia.
      * exact (proj1 (List.Forall_forall _ _) Hq x Hx).
Qed.

Lemma sorted_desc_sorted (l : list (state * Z)) :
  StronglySorted (fun p q => key_lt (fst p) (fst q)) l ->
  StronglySorted ranks_before (sorted_desc l).
Proof.
  induction 1 as [|p l Hl IH Hp]; [constructor|].
  change (sorted_desc (p :: l)) with (insert_desc p (sorted_desc l)).
  apply insert_desc_sorted; [exact IH|].
  apply List.Forall_forall. intros x Hx. apply sorted_desc_In in Hx.
  exact (proj1 (List.Forall_forall _ _) Hp x Hx).
Qed.

Lemma sorted_split {A} (Rel : A -> A -> Prop) (l1 l2 : list A) :
  StronglySorted Rel (l1 ++ l2) ->
  forall p q, In p l1 -> In q l2 -> Rel p q.
Proof.
  induction l1 as [|x l1 IH]; intros Hs p q Hp Hq; [destruct Hp|].
  cbn in Hs. inversion Hs as [|? ? Hs' Hx]; subst.
  destruct Hp as [<- | Hp].
  - apply (proj1 (List.Forall_forall _ _) Hx). apply in_or_app. now right.
  - now apply IH.
Qed.

(** C5, as the code has it.  On a game with at least one row and for a
    positive [n], the function returns the first [n] entries (all of them
    when there are fewer) of the ranking of the (state, count) pairs it has
    formed.  The ranking holds every pair once, in descending order of the
    count; of two pairs with the same count the one whose state comes first
    in the order of [np.lexsort] (last unit most significant) is ranked
    first.  Every returned pair is ranked before every pair left out. *)
Theorem most_common_states_ranking (game : list (list state)) (n : Z) :
  reshape game <> [] ->
  1 <= n ->
  exists pairs,
    states_and_counts game = Ok pairs /\
    _most_common_states game (Some n)
    = Ok (firstn (Z.to_nat n) (sorted_desc pairs)) /\
    Permutation (sorted_desc pairs) pairs /\
    StronglySorted ranks_before (sorted_desc pairs) /\
    (forall p q,
        In p (firstn (Z.to_nat n) (sorted_desc pairs)) ->
        In q (skipn (Z.to_nat n) (sorted_desc pairs)) ->
        ranks_before p q).
Proof.
  intros Hne Hn.
  destruct (states_and_counts_Ok game Hne) as (pairs & Hp & Hasc & _).
  pose proof (sorted_desc_sorted Hasc) as Hs.
  exists pairs. split; [exact Hp|]. split; [|split; [|split]].
  - unfold _most_common_states. rewrite Hp. f_equal. unfold slice_to.
    destruct (Z.ltb_spec (Z.of_nat (length pairs)) n) as [E | E].
    + destruct (Z.ltb_spec (Z.of_nat (length pairs)) 0) as [E0 | E0]; [lia|].
      rewrite !firstn_all2; [reflexivity | |];
        rewrite sorted_desc_length; lia.
    + destruct (Z.ltb_spec n 0) as [E0 | E0]; [lia | reflexivity].
  - apply sorted_desc_perm.
  - exact Hs.
  - apply sorted_split. now rewrite firstn_skipn.
Qed.

(** The statement above on a game of five timesteps, top 1. *)
Lemma most_common_states_ranking_witness :
  exists pairs,
    states_and_counts [[[1]; [1]; [0]; [0]; [2]]] = Ok pairs /\
    _most_common_states [[[1]; [1]; [0]; [0]; [2]]] (Some 1)
    = Ok (firstn (Z.to_nat 1) (sorted_desc pairs)) /\
    Permutation (sorted_desc pairs) pairs /\
    StronglySorted ranks_before (sorted_desc pairs) /\
    (forall p q,
        In p (firstn (Z.to_nat 1) (sorted_desc pairs)) ->
        In q (skipn (Z.to_nat 1) (sorted_desc pairs)) ->
        ranks_before p q).
Proof.
  apply (most_common_states_ranking [[[1]; [1]; [0]; [0]; [2]]]).
  - discriminate.
  - lia.
Defined.

(** C5 as stated fails on its tie-break: the game visits state (1) twice,
    then state (0) twice, then state (2) once.  States (1) and (0) tie on
    the count, (1) is met first, and the top 1 is (0). *)
Lemma most_common_states_tie_not_first_met :
  hd_error (reshape [[[1]; [1]; [0]; [0]; [2]]]) = Some [1] /\
  _most_common_states [[[1]; [1]; [0]; [0]; [2]]] (Some 1) = Ok [([0], 2)].
Proof. split; reflexivity. Qed.

(** C10 at a game of two timesteps with two distinct states.  The call
    with the default [n] returns one pair, not two: the counts cover the
    runs that a change of state closes, so the last unique state is left
    without a count and [zip] drops it.  The counts returned sum to 1, the
    rows are 2.  A game that stays in one state returns no pair at all,
    also for [n = 1]. *)
Theorem most_common_states_drops_last_state :
  length (distinct_states [[[0]; [1]]]) = 2%nat /\
  length (reshape [[[0]; [1]]]) = 2%nat /\
  _most_common_states [[[0]; [1]]] None = Ok [([0], 1)] /\
  _most_common_states [[[0]; [1]]] (Some 2) = Ok [([0], 1)] /\
  _most_common_states [[[5; 1]; [5; 1]]] (Some 1) = Ok [].
Proof. repeat split; reflexivity. Qed.

(** The number of pairs is that of the run ends, one fewer than the unique
    states the function has listed. *)
Lemma most_common_states_default_length (game : list (list state)) :
  reshape game <> [] ->
  exists pairs res,
    states_and_counts game = Ok pairs /\
    _most_common_states game None = Ok res /\
    Permutation res pairs /\
    S (length res)
    = length (run_ends (take_rows (reshape game) (lexsort (reshape game)))
                ++ [List.last (take_rows (reshape game)
                                         (lexsort (reshape game))) []]).
Proof.
  intros Hne.
  destruct (states_and_counts_Ok game Hne) as (pairs & Hp & _ & Hlen).
  exists pairs, (sorted_desc pairs).
  split; [exact Hp|]. split; [|split].
  - unfold _most_common_states. rewrite Hp. f_equal. unfold slice_to.
    destruct (Z.ltb_spec (Z.of_nat (length pairs)) 0) as [E | E]; [lia|].
    rewrite firstn_all2; [reflexivity|].
    rewrite sorted_desc_length. lia.
  - apply sorted_desc_perm.
  - rewrite length_app, sorted_desc_length, Hlen. cbn. lia.
Qed.

(** C4 at the same game, with the first unit of the state as the metric.
    The wrapper averages over the state (0,) alone and returns 0; the mean
    over the two distinct states is 1/2.  On a game that stays in one state
    it averages over nothing and returns nan. *)
Theorem average_leaves_out_last_state :
  distinct_states [[[0]; [1]]] = [[0]; [1]] /\
  _average_over_game_states (fun _ : unit => [[[0]; [1]]]) first_unit None tt
  = Ok (Num 0) /\
  mean (map (fun s => first_unit tt s 1) (distinct_states [[[0]; [1]]]))
  = Num (1 # 2) /\
  _average_over_game_states (fun _ : unit => [[[1]; [1]]]) first_unit None tt
  = Ok NaN.
Proof. repeat split; reflexivity. Qed.

(** ** Command-line overrides *)

Section OverridesFacts.

Variable int_of_string : string -> option Z.
Variable float_of_string : string -> option Q.
Variable arguments : gmap string string.

Let overrides := overrides_from int_of_string float_of_string.

(** A parameter that the rest of the table does not name keeps its
    entry. *)
Lemma overrides_from_other (k : string) (table : list (string * (string * ptype))) :
  forallb (fun e => negb (String.eqb (fst (snd e)) k)) table = true ->
  forall acc m,
    overrides table arguments acc = Ok m -> m !! k = acc !! k.
Proof.
  induction table as [|[opt [param t]] table IH]; intros Hk acc m H.
  - cbn in H. now injection H as <-.
  - cbn [forallb fst snd] in Hk.
    apply andb_true_iff in Hk as [Hp Hk].
    apply negb_true_iff, String.eqb_neq in Hp.
    unfold overrides in H. cbn [overrides_from] in H.
    destruct (arguments !! opt) as [s|]; [|now apply IH].
    destruct (convert int_of_string float_of_string t s) as [v| |];
      try discriminate.
    rewrite (IH Hk _ _ H). now apply lookup_insert_ne.
Qed.

Lemma overrides_from_given opt param t s v
      (table : list (string * (string * ptype))) acc :
  arguments !! opt = Some s ->
  convert int_of_string float_of_string t s = Ok v ->
  overrides ((opt, (param, t)) :: table) arguments acc
  = overrides table arguments (<[param := v]> acc).
Proof.
  intros Ha Hc. unfold overrides. cbn [overrides_from].
  now rewrite Ha, Hc.
Qed.

Lemma overrides_from_app (t1 t2 : list (string * (string * ptype))) :
  forall acc m,
    overrides (t1 ++ t2) arguments acc = Ok m ->
    exists a, overrides t1 arguments acc = Ok a /\
              overrides t2 arguments a = Ok m.
Proof.
  induction t1 as [|[opt [param t]] t1 IH]; intros acc m H.
  - exists acc. split; [reflexivity | exact H].
  - unfold overrides in *. cbn [app overrides_from] in *.
    destruct (arguments !! opt) as [s|]; [|now apply IH].
    destruct (convert int_of_string float_of_string t s) as [v| |];
      try discriminate.
    now apply IH.
Qed.

End OverridesFacts.

Lemma cli_overrides_unfold
      (int_of_string : string -> option Z)
      (float_of_string : string -> option Q)
      (arguments : gmap string string) :
  cli_overrides int_of_string float_of_string arguments
  = overrides_from int_of_string float_of_string cli_opt_to_param arguments ∅.
Proof. reflexivity. Qed.

(** C8 on the code.  Whatever the command line, the overrides hold no entry
    for the maximum width; an integer given to --max-dup-del is stored as
    the minimum width instead, also when --min-dup-del was given. *)
Theorem max_dup_del_sets_minimum_width
        (int_of_string : string -> option Z)
        (float_of_string : string -> option Q)
        (arguments : gmap string string) (m : gmap string pvalue)
        (s : string) (z : Z) :
  arguments !! "--max-dup-del"%string = Some s ->
  int_of_string s = Some z ->
  cli_overrides int_of_string float_of_string arguments = Ok m ->
  m !! "max_dup_del_width"%string = None /\
  m !! "min_dup_del_width"%string = Some (Vint z).
Proof.
  intros Harg Hint H. rewrite cli_overrides_unfold in H.
  assert (Hmax : forallb (fun e => negb (String.eqb (fst (snd e))
                                                    "max_dup_del_width"))
                         cli_opt_to_param = true)
    by (vm_compute; reflexivity).
  assert (Hrest : forallb (fun e => negb (String.eqb (fst (snd e))
                                                     "min_dup_del_width"))
                          (skipn 21 cli_opt_to_param) = true)
    by (vm_compute; reflexivity).
  assert (Hsplit : skipn 20 cli_opt_to_param
                   = ("--max-dup-del", ("min_dup_del_width", Pint))%string
                       :: skipn 21 cli_opt_to_param)
    by (vm_compute; reflexivity).
  split.
  - rewrite (overrides_from_other int_of_string float_of_string arguments
               "max_dup_del_width" cli_opt_to_param Hmax _ H).
    apply lookup_empty.
  - rewrite <- (firstn_skipn 20 cli_opt_to_param) in H.
    apply overrides_from_app in H as (a & _ & H).
    rewrite Hsplit in H.
    rewrite (@overrides_from_given
               int_of_string float_of_string arguments _ _ _ s (Vint z))
      in H; [| exact Harg | cbn; now rewrite Hint].
    rewrite (overrides_from_other int_of_string float_of_string arguments
               "min_dup_del_width" (skipn 21 cli_opt_to_param) Hrest _ H).
    apply lookup_insert_eq.
Qed.

(** The statement above for [--max-dup-del=7] alone. *)
Lemma max_dup_del_sets_minimum_width_witness :
  cli_overrides decimal_int decimal_float
                {[ "--max-dup-del"%string := "7"%string ]}
  = Ok {[ "min_dup_del_width"%string := Vint 7 ]} /\
  ({[ "min_dup_del_width"%string := Vint 7 ]} : gmap string pvalue)
    !! "max_dup_del_width"%string = None /\
  ({[ "min_dup_del_width"%string := Vint 7 ]} : gmap string pvalue)
    !! "min_dup_del_width"%string = Some (Vint 7).
Proof.
  assert (E : cli_overrides decimal_int decimal_float
                            {[ "--max-dup-del"%string := "7"%string ]}
              = Ok {[ "min_dup_del_width"%string := Vint 7 ]})
    by (vm_compute; reflexivity).
  split; [exact E|].
  apply (@max_dup_del_sets_minimum_width
           decimal_int decimal_float
           {[ "--max-dup-del"%string := "7"%string ]}
           {[ "min_dup_del_width"%string := Vint 7 ]} "7"%string 7).
  - vm_compute. reflexivity.
  - reflexivity.
  - exact E.
Defined.

(** * Further properties of the engine *)

(** ** The size of the population *)

Section PopulationSize.

Variable R : RandomModule.
Variable C : Collaborators R.
Variable experiment : Experiment.
Variable SAVE_ALL_LINEAGES : bool.

Lemma vary_length : forall (offspring pop : list Animat) s out s',
  vary C offspring pop s = Ok (out, s') ->
  length offspring = length pop ->
  length out = length pop.
Proof.
  induction offspring as [|a offspring IH]; intros [|p pop] s out s' H Hlen;
    try discriminate.
  - cbn in H. unfold ret in H. now injection H as <- _.
  - cbn [vary] in H.
    destruct (mutate_genome C (genome a) s) as [g' s1].
    bind_inv H. unfold ret in H. injection H as <- _.
    cbn [length]. f_equal. eapply IH; [eassumption|].
    cbn in Hlen. lia.
Qed.

Lemma evaluate_length (pop pop' : list Animat) :
  evaluate C experiment pop = Ok pop' -> length pop' = length pop.
Proof.
  intros H. apply evaluate_ancestry in H.
  induction H as [|a a' l l' _ _ IH]; [reflexivity|].
  cbn [length]. now rewrite IH.
Qed.

Lemma process_gen_length fuel (pop : list Animat) (g : Z) (w : World R)
      offspring w' :
  process_gen C experiment fuel pop g w = Ok (offspring, w') ->
  length offspring = length pop.
Proof.
  unfold process_gen. intros H.
  bind_inv H. rename a into selected, Hm into Hsel.
  bind_inv H. rename a into varied, Hm into Hvar.
  bind_inv H. rename a into evaluated, Hm into Hev.
  bind_inv H. unfold ret in H. injection H; intros; subst.
  apply with_rng_Ok in Hsel as (Hsel & _).
  apply with_rng_Ok in Hvar as (Hvar & _).
  apply lift_Ok in Hev as [Hev _].
  apply select_members in Hsel as [Hlen _].
  rewrite Nat2Z.id in Hlen.
  apply vary_length in Hvar; [|now rewrite length_map].
  apply evaluate_length in Hev. congruence.
Qed.

(** The population that a pass of the loop leaves is the one that
    [process_gen] returns. *)
Lemma loop_body_population fuel (l : Locals) (g : Z) (w : World R) l' w' :
  loop_body C experiment SAVE_ALL_LINEAGES fuel l g w = Ok (l', w') ->
  exists w1,
    process_gen C experiment fuel (population l) g w = Ok (population l', w1).
Proof.
  unfold loop_body. intros H.
  bind_inv H. rename a into pop', w0 into w1, Hm into Hgen.
  exists w1. rewrite Hgen. do 2 f_equal.
  bind_inv H. bind_inv H. bind_inv H. bind_inv H.
  destruct a2.
  - bind_inv H. bind_inv H. unfold ret in H. now injection H as <- _.
  - unfold ret in H. now injection H as <- _.
Qed.

Lemma loop_length fuel n : forall g l (w : World R) l' w',
  loop C experiment SAVE_ALL_LINEAGES fuel n g l w = Ok (l', w') ->
  length (population l') = length (population l).
Proof.
  induction n as [|n IH]; intros g l w l' w' H.
  - cbn in H. unfold ret in H. now injection H as <- _.
  - rewrite loop_unfold in H.
    destruct (loop_body C experiment SAVE_ALL_LINEAGES fuel l g w)
      as [[l1 w1]| |] eqn:Hb; try discriminate.
    apply loop_body_population in Hb as [w2 Hb].
    apply process_gen_length in Hb.
    rewrite (IH _ _ _ _ _ H). exact Hb.
Qed.

Lemma setup_population (w : World R) l w' :
  setup C experiment w = Ok (l, w') ->
  evaluate C experiment
           (repeat (new_Animat experiment (init_genome experiment))
                   (Z.to_nat (popsize experiment)))
  = Ok (population l).
Proof.
  unfold setup. intros H.
  bind_inv H. bind_inv H. bind_inv H.
  apply lift_Ok in Hm1 as [Hev _]. rewrite Hev. f_equal.
  bind_inv H. bind_inv H. bind_inv H. bind_inv H.
  unfold ret in H. now injection H as <- _.
Qed.

End PopulationSize.

(** X1.  The population is of fixed size: after any number of generations of a
    run it has [popsize] members (none when [popsize] is negative). *)
Theorem population_size_is_fixed
        (R : RandomModule) (C : Collaborators R) (experiment : Experiment)
        (SAVE_ALL_LINEAGES : bool) (fuel n : nat) (w : World R)
        (l : Locals) (w' : World R) :
  generations C experiment SAVE_ALL_LINEAGES fuel n w = Ok (l, w') ->
  length (population l) = Z.to_nat (popsize experiment).
Proof.
  unfold generations. intros H. bind_inv H.
  apply loop_length in H. rewrite H.
  apply setup_population in Hm. apply evaluate_length in Hm.
  now rewrite Hm, repeat_length.
Qed.

(** The statement above after three generations of the end-to-end
    scenario. *)
Lemma population_size_is_fixed_witness :
  exists l w',
    generations sample_single (sample_experiment 1 0 3) false 3 3
                (initial_world tape_random []) = Ok (l, w') /\
    length (population l) = 4%nat.
Proof.
  destruct (generations sample_single (sample_experiment 1 0 3) false 3 3
                        (initial_world tape_random []))
    as [[l w']| |] eqn:E.
  - exists l, w'. split; [reflexivity|].
    exact (@population_size_is_fixed
             tape_random sample_single (sample_experiment 1 0 3) false 3 3
             (initial_world tape_random []) l w' E).
  - vm_compute in E. discriminate.
  - vm_compute in E. discriminate.
Defined.

(** ** Runs that abort *)

Section Aborts.

Variable R : RandomModule.
Variable C : Collaborators R.
Variable experiment : Experiment.
Variable SAVE_ALL_LINEAGES : bool.

Lemma time_step {A} (k : Q -> M (World R) A) (w : World R) :
  bind (time C) k w
  = k (now C (w_clock w))
      {| w_rng := w_rng w; w_clock := S (w_clock w);
         w_logbook := w_logbook w; w_saved := w_saved w |}.
Proof. reflexivity. Qed.

Lemma main_setup_Raise fuel (w : World R) e :
  setup C experiment w = Raise e ->
  main C experiment SAVE_ALL_LINEAGES fuel w = Raise e.
Proof.
  intros H. unfold main, generations.
  apply bind_Raise. apply bind_Raise. exact H.
Qed.

Lemma evaluate_nil : evaluate C experiment [] = Ok [].
Proof. unfold evaluate. destruct (String.eqb _ _); reflexivity. Qed.

Lemma record_zero_interval (pop : list Animat) (g : Z) (w : World R) :
  log_interval experiment = 0 ->
  record experiment pop g w = Raise ZeroDivisionError.
Proof.
  intros H. unfold record. apply bind_Raise.
  unfold lift, py_mod. rewrite H. reflexivity.
Qed.

Lemma record_empty (g : Z) (w : World R) :
  log_interval experiment <> 0 ->
  g mod log_interval experiment = 0 ->
  record experiment [] g w = Raise ValueError.
Proof.
  intros Hli Hg. unfold record, bind, lift, py_mod.
  destruct (Z.eqb_spec (log_interval experiment) 0) as [E | E]; [lia|].
  rewrite Hg. reflexivity.
Qed.

Lemma setup_evaluated (w : World R) (pop : list Animat) :
  evaluate C experiment
           (repeat (new_Animat experiment (init_genome experiment))
                   (Z.to_nat (popsize experiment)))
  = Ok pop ->
  setup C experiment w
  = bind (record experiment pop 0)
         (fun _ =>
            bind (time C)
                 (fun _ =>
                    bind (time C)
                         (fun _ =>
                            bind (time C)
                                 (fun t =>
                                    ret {| population := pop; snapshot := 1;
                                           snap_duration_start := t |}))))
         {| w_rng := w_rng w; w_clock := S (S (w_clock w));
            w_logbook := w_logbook w; w_saved := w_saved w |}.
Proof.
  intros H. unfold setup. rewrite !time_step. cbn [w_clock w_rng w_logbook w_saved].
  erewrite bind_step; [reflexivity|]. unfold lift. rewrite H. reflexivity.
Qed.

End Aborts.

(** X2.  A run with a population size of 0 never gets past generation 0:
    compiling the statistics of the empty population raises [ValueError]
    (the log interval is not 0, so generation 0 is recorded). *)
Theorem empty_population_aborts_at_generation_zero
        (R : RandomModule) (C : Collaborators R) (experiment : Experiment)
        (SAVE_ALL_LINEAGES : bool) (fuel : nat) (w : World R) :
  popsize experiment = 0 ->
  log_interval experiment <> 0 ->
  main C experiment SAVE_ALL_LINEAGES fuel w = Raise ValueError.
Proof.
  intros Hpop Hli. apply main_setup_Raise.
  rewrite (@setup_evaluated R C experiment w []).
  - apply bind_Raise. apply record_empty; [exact Hli|].
    now apply Z.mod_0_l.
  - replace (Z.to_nat (popsize experiment)) with O by lia.
    apply evaluate_nil.
Qed.

(** The statement above on a population size of 0. *)
Lemma empty_population_aborts_at_generation_zero_witness :
  main sample_single
       {| snapshot_frequency := 0; status_interval := 1; min_snapshots := 0;
          log_interval := 1; num_samples := 0; fitness_function := "nat";
          ngen := 3; popsize := 0; init_genome := [0; 1] |}
       false 3 (initial_world tape_random []) = Raise ValueError.
Proof.
  apply empty_population_aborts_at_generation_zero; cbn; lia.
Defined.

(** X3.  A log interval of 0 aborts the run at generation 0: once the initial
    population is evaluated, [record] computes [0 % 0]. *)
Theorem zero_log_interval_aborts
        (R : RandomModule) (C : Collaborators R) (experiment : Experiment)
        (SAVE_ALL_LINEAGES : bool) (fuel : nat) (w : World R)
        (pop : list Animat) :
  log_interval experiment = 0 ->
  0 <= popsize experiment ->
  evaluate C experiment
           (repeat (new_Animat experiment (init_genome experiment))
                   (Z.to_nat (popsize experiment)))
  = Ok pop ->
  main C experiment SAVE_ALL_LINEAGES fuel w = Raise ZeroDivisionError.
Proof.
  intros Hli _ Hev. apply main_setup_Raise.
  rewrite (@setup_evaluated R C experiment w pop Hev).
  apply bind_Raise. now apply record_zero_interval.
Qed.

(** The statement above on the end-to-end scenario with log interval 0. *)
Lemma zero_log_interval_aborts_witness :
  main sample_single (sample_experiment 0 0 3) false 3
       (initial_world tape_random []) = Raise ZeroDivisionError.
Proof.
  eapply zero_log_interval_aborts; [reflexivity | cbn; lia |].
  vm_compute. reflexivity.
Defined.

(** X4.  A run of no generation ([ngen <= 0]) evaluates and records the initial
    population and then fails on the final write, which reads the loop
    variable [gen] that was never bound: [UnboundLocalError]. *)
Theorem no_generation_fails_on_final_write
        (R : RandomModule) (C : Collaborators R) (experiment : Experiment)
        (SAVE_ALL_LINEAGES : bool) (fuel : nat) (w : World R)
        (l : Locals) (w' : World R) :
  ngen experiment <= 0 ->
  setup C experiment w = Ok (l, w') ->
  main C experiment SAVE_ALL_LINEAGES fuel w = Raise UnboundLocalError.
Proof.
  intros Hn Hs. unfold main, generations.
  replace (Z.to_nat (ngen experiment)) with O by lia.
  erewrite bind_step;
    [|erewrite bind_step by exact Hs; reflexivity].
  rewrite time_step. apply bind_Raise.
  destruct (Z.leb_spec (ngen experiment) 0) as [E | E]; [reflexivity | lia].
Qed.

(** The statement above on the end-to-end scenario with no generation. *)
Lemma no_generation_fails_on_final_write_witness :
  main sample_single (sample_experiment 1 0 0) false 3
       (initial_world tape_random []) = Raise UnboundLocalError.
Proof.
  destruct (setup sample_single (sample_experiment 1 0 0)
                  (initial_world tape_random [])) as [[l w']| |] eqn:E.
  - eapply no_generation_fails_on_final_write; [cbn; lia | exact E].
  - vm_compute in E. discriminate.
  - vm_compute in E. discriminate.
Defined.

Section FirstPass.

Variable R : RandomModule.
Variable C : Collaborators R.
Variable experiment : Experiment.
Variable SAVE_ALL_LINEAGES : bool.

Lemma main_first_pass_Raise fuel (w : World R) l0 w0 e :
  1 <= ngen experiment ->
  setup C experiment w = Ok (l0, w0) ->
  loop_body C experiment SAVE_ALL_LINEAGES fuel l0 1 w0 = Raise e ->
  main C experiment SAVE_ALL_LINEAGES fuel w = Raise e.
Proof.
  intros Hn Hs Hb. unfold main, generations.
  destruct (Z.to_nat (ngen experiment)) as [|n] eqn:En; [lia|].
  apply bind_Raise. erewrite bind_step by exact Hs.
  rewrite loop_unfold, Hb. reflexivity.
Qed.

Lemma status_report_Ok (r : Z) (w : World R) :
  exists w',
    (if r =? 0 then bind (time C) (fun _ => bind (time C) (fun _ => ret tt))
     else ret tt) w = Ok (tt, w').
Proof. destruct (r =? 0); eexists; reflexivity. Qed.

Lemma loop_body_zero_status fuel (l : Locals) (g : Z) (w : World R) pop' w' :
  status_interval experiment = 0 ->
  process_gen C experiment fuel (population l) g w = Ok (pop', w') ->
  loop_body C experiment SAVE_ALL_LINEAGES fuel l g w
  = Raise ZeroDivisionError.
Proof.
  intros Hsi Hgen. unfold loop_body.
  erewrite bind_step by exact Hgen.
  apply bind_Raise. unfold lift, py_mod. rewrite Hsi. reflexivity.
Qed.

Lemma loop_body_zero_interval fuel (l : Locals) (g : Z) (w : World R)
      pop' w' j :
  status_interval experiment <> 0 ->
  never_by_time C experiment ->
  snap_duration_start l = now C j ->
  SNAPSHOT_GENERATION_INTERVAL experiment = Finite 0 ->
  process_gen C experiment fuel (population l) g w = Ok (pop', w') ->
  loop_body C experiment SAVE_ALL_LINEAGES fuel l g w
  = Raise ZeroDivisionError.
Proof.
  intros Hsi Hnever Hj HGI Hgen. unfold loop_body.
  erewrite bind_step by exact Hgen.
  erewrite bind_step;
    [|unfold lift, py_mod;
      destruct (Z.eqb_spec (status_interval experiment) 0); [lia | reflexivity]].
  destruct (status_report_Ok (g mod status_interval experiment) w')
    as [w2 Hst].
  erewrite bind_step by exact Hst.
  rewrite time_step. rewrite Hj, (Hnever j (w_clock w2)), HGI.
  apply bind_Raise. reflexivity.
Qed.

End FirstPass.

(** X5.  A status interval of 0 aborts the run at generation 1: once the first
    generation is processed, the status test computes [1 % 0]. *)
Theorem zero_status_interval_aborts
        (R : RandomModule) (C : Collaborators R) (experiment : Experiment)
        (SAVE_ALL_LINEAGES : bool) (fuel : nat) (w : World R)
        (l0 : Locals) (w0 : World R) (pop1 : list Animat) (w1 : World R) :
  status_interval experiment = 0 ->
  1 <= ngen experiment ->
  setup C experiment w = Ok (l0, w0) ->
  process_gen C experiment fuel (population l0) 1 w0 = Ok (pop1, w1) ->
  main C experiment SAVE_ALL_LINEAGES fuel w = Raise ZeroDivisionError.
Proof.
  intros Hsi Hn Hs Hgen.
  eapply main_first_pass_Raise; [exact Hn | exact Hs |].
  eapply loop_body_zero_status; eassumption.
Qed.

(** X6.  Asking for more snapshots than there are generations
    ([0 < ngen < min_snapshots]) makes the generation interval
    [ngen // min_snapshots] zero.  Unless the wall clock triggers the
    snapshot first, the run aborts at generation 1 on [1 % 0]. *)
Theorem more_snapshots_than_generations_aborts
        (R : RandomModule) (C : Collaborators R) (experiment : Experiment)
        (SAVE_ALL_LINEAGES : bool) (fuel : nat) (w : World R)
        (l0 : Locals) (w0 : World R) (pop1 : list Animat) (w1 : World R) :
  1 <= ngen experiment < min_snapshots experiment ->
  status_interval experiment <> 0 ->
  never_by_time C experiment ->
  setup C experiment w = Ok (l0, w0) ->
  process_gen C experiment fuel (population l0) 1 w0 = Ok (pop1, w1) ->
  SNAPSHOT_GENERATION_INTERVAL experiment = Finite 0 /\
  main C experiment SAVE_ALL_LINEAGES fuel w = Raise ZeroDivisionError.
Proof.
  intros Hn Hsi Hnever Hs Hgen.
  assert (HGI : SNAPSHOT_GENERATION_INTERVAL experiment = Finite 0).
  { unfold SNAPSHOT_GENERATION_INTERVAL.
    destruct (Z.leb_spec (min_snapshots experiment) 0) as [E | E]; [lia|].
    now rewrite Z.div_small by lia. }
  split; [exact HGI|].
  pose proof (@setup_Ok R C experiment w l0 w0 Hs)
    as (_ & _ & _ & _ & [j Hj] & _).
  eapply main_first_pass_Raise; [lia | exact Hs |].
  eapply loop_body_zero_interval; eassumption.
Qed.

(** The statement above on the end-to-end scenario with status interval
    0. *)
Lemma zero_status_interval_aborts_witness :
  main sample_single (sample_status_experiment 0 0 3) false 3
       (initial_world tape_random []) = Raise ZeroDivisionError.
Proof.
  destruct (setup sample_single (sample_status_experiment 0 0 3)
                  (initial_world tape_random [])) as [[l0 w0]| |] eqn:Hs;
    [| vm_compute in Hs; discriminate ..].
  pose proof Hs as Hv. vm_compute in Hv. injection Hv as El Ew.
  subst l0 w0.
  match goal with
  | H : _ = Ok (?l, ?w) |- _ =>
      destruct (process_gen sample_single (sample_status_experiment 0 0 3) 3
                            (population l) 1 w) as [[pop1 w1]| |] eqn:Hg;
      [| vm_compute in Hg; discriminate ..]
  end.
  eapply zero_status_interval_aborts;
    [reflexivity | cbn; lia | exact Hs | exact Hg].
Defined.

(** The statement above on two generations with a minimum of five
    snapshots. *)
Lemma more_snapshots_than_generations_aborts_witness :
  SNAPSHOT_GENERATION_INTERVAL (sample_status_experiment 1 5 2) = Finite 0 /\
  main sample_single (sample_status_experiment 1 5 2) false 3
       (initial_world tape_random []) = Raise ZeroDivisionError.
Proof.
  destruct (setup sample_single (sample_status_experiment 1 5 2)
                  (initial_world tape_random [])) as [[l0 w0]| |] eqn:Hs;
    [| vm_compute in Hs; discriminate ..].
  pose proof Hs as Hv. vm_compute in Hv. injection Hv as El Ew.
  subst l0 w0.
  match goal with
  | H : _ = Ok (?l, ?w) |- _ =>
      destruct (process_gen sample_single (sample_status_experiment 1 5 2) 3
                            (population l) 1 w) as [[pop1 w1]| |] eqn:Hg;
      [| vm_compute in Hg; discriminate ..]
  end.
  eapply more_snapshots_than_generations_aborts;
    [cbn; lia | cbn; lia
     | apply never_by_time_when_off; cbn; lia | exact Hs | exact Hg].
Defined.

(** ** The snapshots of a run *)

Lemma numbered_from_earlier (s lo lo' hi : Z) (l : list (directory * Z)) :
  lo' <= lo -> numbered s lo hi l -> numbered s lo' hi l.
Proof.
  destruct l as [|[d g] rest]; [trivial|].
  cbn. intros Hlo (Hd & Hg & Hrest). repeat split; try assumption; lia.
Qed.

Lemma loop_numbered {R} (C : Collaborators R) (experiment : Experiment)
      (SAVE_ALL_LINEAGES : bool) fuel n :
  forall g l (w : World R) l' w',
    loop C experiment SAVE_ALL_LINEAGES fuel n g l w = Ok (l', w') ->
    exists snaps,
      written w' = written w ++ snaps /\
      numbered (snapshot l) g (g + Z.of_nat n) snaps.
Proof.
  induction n as [|n IH]; intros g l w l' w' H.
  - cbn in H. unfold ret in H. injection H; intros; subst.
    exists []. split; [now rewrite app_nil_r | exact I].
  - rewrite loop_unfold in H.
    destruct (loop_body C experiment SAVE_ALL_LINEAGES fuel l g w)
      as [[l1 w1]| |] eqn:Hb; try discriminate.
    apply loop_body_Ok in Hb as (_ & _ & _ & due & Hwr & Hsn & _).
    destruct (IH _ _ _ _ _ H) as (snaps & Hsnaps & Hnum).
    rewrite Hsn in Hnum.
    replace (g + 1 + Z.of_nat n) with (g + Z.of_nat (S n)) in Hnum by lia.
    destruct due.
    + exists ((SnapshotDir (snapshot l) g, g) :: snaps). split.
      * rewrite Hsnaps, Hwr, <- app_assoc. reflexivity.
      * cbn [numbered]. split; [reflexivity|]. split; [lia | exact Hnum].
    + exists snaps. split.
      * rewrite Hsnaps, Hwr, app_nil_r. reflexivity.
      * eapply numbered_from_earlier; [|exact Hnum]. lia.
Qed.

(** X7.  Whatever triggers them, the snapshots of a completed run are numbered
    1, 2, 3, ... in the order they are written, at most one per generation,
    at generations that increase inside [1..ngen]; the last write of the
    run is the final data of generation [ngen], to the output directory. *)
Theorem snapshots_are_numbered_in_order
        (R : RandomModule) (C : Collaborators R) (experiment : Experiment)
        (SAVE_ALL_LINEAGES : bool) (fuel : nat) (w : World R)
        (l : Locals) (w' : World R) :
  w_saved w = [] ->
  main C experiment SAVE_ALL_LINEAGES fuel w = Ok (l, w') ->
  exists snaps,
    written w' = snaps ++ [(OutputDir, ngen experiment)] /\
    numbered 1 1 (ngen experiment + 1) snaps.
Proof.
  intros Hempty H.
  apply main_Ok in H as (Hngen & w1 & Hgen & _ & Hwr).
  unfold generations in Hgen. bind_inv Hgen.
  apply setup_Ok in Hm as (_ & _ & Hw0 & Hsn & _).
  apply loop_numbered in Hgen as (snaps & Hsnaps & Hnum).
  exists snaps. split.
  - rewrite Hwr, Hsnaps, Hw0. unfold written at 1. now rewrite Hempty.
  - rewrite Hsn in Hnum.
    now replace (1 + Z.of_nat (Z.to_nat (ngen experiment)))
      with (ngen experiment + 1) in Hnum by lia.
Qed.

(** The statement above on ten generations with a minimum of two
    snapshots. *)
Lemma snapshots_are_numbered_in_order_witness :
  exists l w' snaps,
    main sample_single (sample_experiment 1 2 10) false 3
         (initial_world tape_random []) = Ok (l, w') /\
    written w' = snaps ++ [(OutputDir, 10)] /\
    numbered 1 1 (10 + 1) snaps.
Proof.
  destruct (main sample_single (sample_experiment 1 2 10) false 3
                 (initial_world tape_random [])) as [[l w']| |] eqn:E;
    [| vm_compute in E; discriminate ..].
  destruct (@snapshots_are_numbered_in_order
              tape_random sample_single (sample_experiment 1 2 10) false 3
              (initial_world tape_random []) l w' eq_refl E)
    as (snaps & Hwr & Hnum).
  exists l, w', snaps. split; [reflexivity|]. split; assumption.
Defined.

Lemma by_generation_count_finite (d : Z) (n : nat) :
  d <> 0 ->
  forall g s,
    map snd (by_generation_count (Finite d) n g s)
    = List.filter (fun x => x mod d =? 0) (gens_from g n).
Proof.
  intros Hd. induction n as [|n IH]; intros g s; [reflexivity|].
  cbn [by_generation_count gens_from List.filter divides]. unfold py_mod.
  destruct (Z.eqb_spec d 0) as [E | E]; [contradiction|].
  destruct (g mod d =? 0); cbn [map snd]; now rewrite IH.
Qed.

Lemma count_divisible_from_one (d : Z) (n : nat) :
  0 < d ->
  Z.of_nat (length (List.filter (fun x => x mod d =? 0) (gens_from 1 n)))
  = Z.of_nat n / d.
Proof.
  intros Hd. pose proof (count_divisible n Hd) as H.
  change (gens_from 0 (S n)) with (0 :: gens_from (0 + 1) n) in H.
  cbn [List.filter] in H. rewrite Z.mod_0_l in H by lia.
  cbn [Z.eqb length] in H. change (0 + 1) with 1 in H. lia.
Qed.

(** X8.  When the minimum number of snapshots is between 1 and the number of
    generations and the wall clock triggers none, a completed run takes a
    snapshot at every multiple of [ngen // min_snapshots]: that is
    [ngen // (ngen // min_snapshots)] snapshots, no fewer than the minimum
    asked for. *)
Theorem minimum_snapshots_are_taken
        (R : RandomModule) (C : Collaborators R) (experiment : Experiment)
        (SAVE_ALL_LINEAGES : bool) (fuel : nat) (w : World R)
        (l : Locals) (w' : World R) :
  1 <= min_snapshots experiment <= ngen experiment ->
  never_by_time C experiment ->
  w_saved w = [] ->
  main C experiment SAVE_ALL_LINEAGES fuel w = Ok (l, w') ->
  exists snaps,
    written w' = snaps ++ [(OutputDir, ngen experiment)] /\
    map snd snaps
    = List.filter
        (fun g => g mod (ngen experiment / min_snapshots experiment) =? 0)
        (gens_from 1 (Z.to_nat (ngen experiment))) /\
    Z.of_nat (length snaps)
    = ngen experiment / (ngen experiment / min_snapshots experiment) /\
    min_snapshots experiment <= Z.of_nat (length snaps).
Proof.
  intros Hms Hnever Hempty H.
  apply main_Ok in H as (Hngen & w1 & Hgen & _ & Hwr).
  apply generations_Ok in Hgen as (_ & _ & _ & Hsnap).
  specialize (Hsnap Hnever).
  unfold written at 2 in Hsnap. rewrite Hempty in Hsnap.
  cbn [map app] in Hsnap. rewrite Hsnap in Hwr. clear Hsnap.
  assert (HI : SNAPSHOT_GENERATION_INTERVAL experiment
               = Finite (ngen experiment / min_snapshots experiment)).
  { unfold SNAPSHOT_GENERATION_INTERVAL.
    destruct (Z.leb_spec (min_snapshots experiment) 0); [lia | reflexivity]. }
  rewrite HI in Hwr.
  set (d := ngen experiment / min_snapshots experiment) in *.
  assert (Hd : 0 < d).
  { apply Z.div_str_pos. lia. }
  eexists. split; [exact Hwr|].
  assert (Hmap := @by_generation_count_finite
                    d (Z.to_nat (ngen experiment)) ltac:(lia) 1 1).
  split; [exact Hmap|].
  assert (Hlen : Z.of_nat (length (by_generation_count
                                     (Finite d) (Z.to_nat (ngen experiment))
                                     1 1))
                 = ngen experiment / d).
  { rewrite <- (length_map snd), Hmap, count_divisible_from_one by exact Hd.
    now rewrite Z2Nat.id by lia. }
  split; [exact Hlen|]. rewrite Hlen.
  apply Z.div_le_lower_bound; [exact Hd|].
  unfold d. rewrite Z.mul_comm. apply Z.mul_div_le. lia.
Qed.

(** The statement above on ten generations with a minimum of three
    snapshots: the interval is 3 and generations 3, 6 and 9 are saved. *)
Lemma minimum_snapshots_are_taken_witness :
  exists l w' snaps,
    main sample_single (sample_experiment 1 3 10) false 3
         (initial_world tape_random []) = Ok (l, w') /\
    written w' = snaps ++ [(OutputDir, 10)] /\
    map snd snaps = [3; 6; 9] /\
    3 <= Z.of_nat (length snaps).
Proof.
  destruct (main sample_single (sample_experiment 1 3 10) false 3
                 (initial_world tape_random [])) as [[l w']| |] eqn:E;
    [| vm_compute in E; discriminate ..].
  destruct (@minimum_snapshots_are_taken
              tape_random sample_single (sample_experiment 1 3 10) false 3
              (initial_world tape_random []) l w'
              ltac:(cbn; lia)
              (never_by_time_when_off sample_single
                 (sample_experiment 1 3 10) ltac:(cbn; lia))
              eq_refl E)
    as (snaps & Hwr & Hmap & _ & Hmin).
  exists l, w', snaps. repeat split; assumption.
Defined.

(** ** Single-objective evaluation *)


(** ** What [save_data] writes *)

Lemma max_by_value_spec (pop : list Animat) :
  pop <> [] ->
  exists best,
    max_by_value pop = Ok best /\ In best pop /\
    Forall (fun a => (value (fitness a) <= value (fitness best))%Q) pop.
Proof.
  destruct pop as [|x t]; [congruence|]. intros _.
  unfold max_by_value. eexists. split; [reflexivity|].
  assert (H : forall t x,
             let m := fold_left
                        (fun m y =>
                           if Qgt_bool (value (fitness y)) (value (fitness m))
                           then y else m) t x in
             In m (x :: t) /\
             (value (fitness x) <= value (fitness m))%Q /\
             Forall (fun a => (value (fitness a) <= value (fitness m))%Q) t).
  { clear. induction t as [|y t IH]; intros x; cbn.
    - split; [now left|]. split; [apply Qle_refl | constructor].
    - destruct (Qgt_bool (value (fitness y)) (value (fitness x))) eqn:E.
      + destruct (IH y) as (Hin & Hle & Hall). cbn in Hin.
        apply Qgt_bool_true in E.
        split; [right; exact Hin|]. split.
        * eapply Qle_trans; [apply Qlt_le_weak; exact E | exact Hle].
        * constructor; assumption.
      + destruct (IH x) as (Hin & Hle & Hall). cbn in Hin.
        apply Qgt_bool_false in E.
        split; [destruct Hin as [<-|Hin]; [now left | right; now right]|].
        split; [exact Hle|].
        constructor; [eapply Qle_trans; eassumption | exact Hall]. }
  destruct (H t x) as (Hin & Hle & Hall).
  split; [exact Hin | constructor; assumption].
Qed.

(** The record that [save_data] appends. *)
Lemma save_data_appends_record
        (R : RandomModule) (experiment : Experiment)
        (SAVE_ALL_LINEAGES : bool) (dir : directory) (g : Z)
        (pop : list Animat) (w : World R) :
  (SAVE_ALL_LINEAGES = false -> pop <> []) ->
  exists to_save,
    saves SAVE_ALL_LINEAGES pop to_save /\
    save_data experiment SAVE_ALL_LINEAGES dir g pop w
    = Ok (tt,
          {| w_rng := w_rng w; w_clock := w_clock w;
             w_logbook := w_logbook w;
             w_saved :=
               w_saved w
                 ++ [{| saved_dir := dir; saved_gen := g;
                        saved_lineages :=
                          map (fun a => stride (sample_step experiment g)
                                               (lineage a)) to_save |}] |}).
Proof.
  intros Hne. unfold save_data, saves. destruct SAVE_ALL_LINEAGES.
  - exists pop. split; [reflexivity|]. reflexivity.
  - destruct (max_by_value_spec (Hne eq_refl)) as (best & Hb & Hin & Hall).
    exists [best]. split; [exists best; repeat split; assumption|].
    unfold bind, lift, ret. rewrite Hb. reflexivity.
Qed.

(** X10.  [save_data] appends one record: the directory, the generation, and for
    each animat to save its lineage sampled with the stride of that
    generation.  Without [--all-lineages] that is the lineage of one animat
    that no other of the population exceeds in value (the population must
    not be empty then); with it, one lineage per animat, in the order of
    the population. *)
Theorem save_data_writes_sampled_lineages
        (R : RandomModule) (experiment : Experiment)
        (SAVE_ALL_LINEAGES : bool) (dir : directory) (g : Z)
        (pop : list Animat) (w : World R) :
  (SAVE_ALL_LINEAGES = false -> pop <> []) ->
  exists to_save,
    saves SAVE_ALL_LINEAGES pop to_save /\
    save_data experiment SAVE_ALL_LINEAGES dir g pop w
    = Ok (tt,
          {| w_rng := w_rng w; w_clock := w_clock w;
             w_logbook := w_logbook w;
             w_saved :=
               w_saved w
                 ++ [{| saved_dir := dir; saved_gen := g;
                        saved_lineages :=
                          map (fun a => stride (sample_step experiment g)
                                               (lineage a)) to_save |}] |}).
Proof. apply save_data_appends_record. Qed.

(** The statement above for the fittest of two animats. *)
Lemma save_data_writes_sampled_lineages_witness :
  exists to_save,
    saves false [sample_animat 1; sample_animat 2] to_save /\
    save_data (sample_experiment 1 0 3) false OutputDir 3
              [sample_animat 1; sample_animat 2]
              (initial_world tape_random [])
    = Ok (tt,
          {| w_rng := ([] : rng tape_random); w_clock := O;
             w_logbook := [];
             w_saved :=
               [] ++ [{| saved_dir := OutputDir; saved_gen := 3;
                         saved_lineages :=
                           map (fun a =>
                                  stride (sample_step (sample_experiment 1 0 3) 3)
                                         (lineage a)) to_save |}] |}).
Proof.
  apply (@save_data_writes_sampled_lineages
           tape_random (sample_experiment 1 0 3) false OutputDir 3
           [sample_animat 1; sample_animat 2] (initial_world tape_random [])).
  intros _. discriminate.
Defined.

(** Picking the fittest of an empty population raises [ValueError]. *)
Lemma save_data_empty_population
      (R : RandomModule) (experiment : Experiment) (dir : directory) (g : Z)
      (w : World R) :
  save_data experiment false dir g [] w = Raise ValueError.
Proof. reflexivity. Qed.

(** ** Sampling a lineage *)

Lemma stride_from_length {A} (l : list A) :
  forall skip step : nat,
    (1 <= step)%nat -> (skip <= step - 1)%nat ->
    Z.of_nat (length (stride_from skip step l))
    = (Z.of_nat (length l) - Z.of_nat skip + Z.of_nat step - 1)
      / Z.of_nat step.
Proof.
  induction l as [|x t IH]; intros skip step Hstep Hskip.
  - cbn. symmetry. apply Z.div_small. lia.
  - destruct skip as [|k]; cbn [stride_from length].
    + rewrite Nat2Z.inj_succ, (IH (Nat.pred step) step) by lia.
      match goal with
      | |- _ = ?b / _ =>
          replace b
            with (Z.of_nat (length t) - Z.of_nat (Nat.pred step)
                  + Z.of_nat step - 1 + 1 * Z.of_nat step) by lia
      end.
      rewrite Z.div_add by lia. lia.
    + rewrite (IH k step) by lia. f_equal. lia.
Qed.

Lemma stride_length {A} (step : Z) (l : list A) :
  1 <= step ->
  Z.of_nat (length (stride step l)) = (Z.of_nat (length l) + step - 1) / step.
Proof.
  intros Hstep. unfold stride.
  rewrite stride_from_length by lia.
  rewrite Z2Nat.id by lia. f_equal. lia.
Qed.

Lemma stride_head {A} (step : Z) (l : list A) :
  hd_error (stride step l) = hd_error l.
Proof. destruct l; reflexivity. Qed.

Lemma stride_one {A} (l : list A) : stride 1 l = l.
Proof.
  unfold stride. change (Z.to_nat 1) with 1%nat.
  induction l as [|x t IH]; [reflexivity|].
  cbn [stride_from Nat.pred]. now rewrite IH.
Qed.

Lemma sample_step_positive (e : Experiment) (g : Z) : 1 <= sample_step e g.
Proof. unfold sample_step. destruct (num_samples e <=? 0); lia. Qed.

(** X11.  The final data of a completed run.  Every lineage written starts with
    an animat of the final population and holds [ngen // step + 1] animats,
    where [step] is 1 when [num_samples <= 0] and
    [max(ngen // num_samples, 1)] otherwise; with a step of 1 it is the
    whole lineage.  One lineage is written without [--all-lineages], one
    per animat of the population with it. *)
Theorem final_lineages_are_sampled
        (R : RandomModule) (C : Collaborators R) (experiment : Experiment)
        (SAVE_ALL_LINEAGES : bool) (fuel : nat) (w : World R)
        (l : Locals) (w' : World R) :
  main C experiment SAVE_ALL_LINEAGES fuel w = Ok (l, w') ->
  exists earlier final,
    w_saved w' = earlier ++ [final] /\
    saved_dir final = OutputDir /\
    saved_gen final = ngen experiment /\
    length (saved_lineages final)
    = (if SAVE_ALL_LINEAGES then length (population l) else 1%nat) /\
    Forall (fun lin =>
              exists a,
                In a (population l) /\
                lin = stride (sample_step experiment (ngen experiment))
                             (lineage a) /\
                hd_error lin = Some a /\
                Z.of_nat (length lin)
                = ngen experiment
                  / sample_step experiment (ngen experiment) + 1 /\
                (sample_step experiment (ngen experiment) = 1 ->
                 lin = lineage a))
           (saved_lineages final).
Proof.
  unfold main. intros H. bind_inv H. rename a into l0, Hm into Hgen.
  bind_inv H. apply time_Ok in Hm as (_ & _ & Hs1).
  bind_inv H.
  destruct (Z.leb_spec (ngen experiment) 0) as [E | E]; [discriminate|].
  unfold ret in Hm. injection Hm; intros; subst. clear Hm.
  bind_inv H. unfold ret in H. injection H; intros; subst.
  pose proof (generations_Ok _ _ _ _ _ _ Hgen) as (_ & _ & Hpop & _).
  assert (Hne : SAVE_ALL_LINEAGES = false -> population l <> []).
  { intros ->. intros Hnil. rewrite Hnil in Hm. discriminate. }
  match type of Hm with
  | save_data _ _ _ _ _ ?wx = _ =>
      destruct (@save_data_appends_record
                  R experiment SAVE_ALL_LINEAGES OutputDir (ngen experiment)
                  (population l) wx Hne) as (to_save & Hsaves & Hsd)
  end.
  rewrite Hsd in Hm. injection Hm; intros; subst. cbn [w_saved].
  eexists _, _. split; [reflexivity|]. cbn [saved_dir saved_gen saved_lineages].
  split; [reflexivity|]. split; [reflexivity|].
  assert (Hsub : Forall (fun a => In a (population l)) to_save).
  { unfold saves in Hsaves. destruct SAVE_ALL_LINEAGES.
    - subst to_save. apply List.Forall_forall. auto.
    - destruct Hsaves as (best & -> & Hin & _). now constructor. }
  split.
  - rewrite length_map. unfold saves in Hsaves. destruct SAVE_ALL_LINEAGES.
    + now subst.
    + now destruct Hsaves as (best & -> & _).
  - apply List.Forall_forall. intros lin Hlin.
    apply in_map_iff in Hlin as (an & <- & Ha).
    pose proof (proj1 (List.Forall_forall _ _) Hsub an Ha) as Hin.
    pose proof (proj1 (List.Forall_forall _ _) Hpop an Hin) as Hd.
    destruct (descends_lineage _ an Hd) as (_ & _ & Hlen & _).
    exists an. split; [exact Hin|]. split; [reflexivity|]. split; [|split].
    + rewrite stride_head. destruct an. reflexivity.
    + rewrite stride_length by apply sample_step_positive.
      rewrite Hlen, Nat2Z.inj_succ, Z2Nat.id by lia.
      pose proof (sample_step_positive experiment (ngen experiment)) as Hp.
      match goal with
      | |- ?b / _ = _ =>
          replace b
            with (ngen experiment
                  + 1 * sample_step experiment (ngen experiment)) by lia
      end.
      now rewrite Z.div_add by lia.
    + intros ->. apply stride_one.
Qed.

(** The statement above on ten generations sampled three times: the step
    is 3 and the lineage of the fittest is written with four animats. *)
Lemma final_lineages_are_sampled_witness :
  exists l w' earlier final,
    main sample_single
         {| snapshot_frequency := 0; status_interval := 1; min_snapshots := 0;
            log_interval := 1; num_samples := 3; fitness_function := "nat";
            ngen := 10; popsize := 4; init_genome := [0; 1] |}
         false 3 (initial_world tape_random []) = Ok (l, w') /\
    w_saved w' = earlier ++ [final] /\
    saved_dir final = OutputDir /\
    length (saved_lineages final) = 1%nat /\
    Forall (fun lin => Z.of_nat (length lin) = 10 / 3 + 1)
           (saved_lineages final).
Proof.
  set (e := {| snapshot_frequency := 0; status_interval := 1;
               min_snapshots := 0; log_interval := 1; num_samples := 3;
               fitness_function := "nat"; ngen := 10; popsize := 4;
               init_genome := [0; 1] |}).
  destruct (main sample_single e false 3 (initial_world tape_random []))
    as [[l w']| |] eqn:E; [| vm_compute in E; discriminate ..].
  destruct (@final_lineages_are_sampled
              tape_random sample_single e false 3
              (initial_world tape_random []) l w' E)
    as (earlier & final & Hw & Hdir & _ & Hlen & Hall).
  exists l, w', earlier, final. repeat split; try assumption.
  apply List.Forall_forall. intros lin Hlin.
  destruct (proj1 (List.Forall_forall _ _) Hall lin Hlin)
    as (a & _ & _ & _ & Hl & _).
  exact Hl.
Defined.

(** ** Selection among equals *)

Section EqualFitness.

Variable R : RandomModule.
Variable animats : list Animat.
Variable v : Q.
Hypothesis random_at_most_one : forall s, (fst (random R s) <= 1)%Q.
Hypothesis v_nonzero : ~ (v == 0)%Q.
Hypothesis equal_values :
  Forall (fun a => (value (fitness a) == v)%Q) animats.

Lemma accept_loop_first_draw fuel m s :
  (m == v)%Q ->
  accept_loop R (S fuel) animats m s
  = bind (choice R animats)
         (fun candidate => bind (random_random R) (fun _ => ret candidate)) s.
Proof.
  intros Hm. rewrite accept_loop_unfold. unfold bind, random_random, ret.
  destruct (choice R animats s) as [[c s1]| |] eqn:Ec; try reflexivity.
  pose proof (random_at_most_one s1) as Hu.
  destruct (random R s1) as [u s2]. cbn [fst] in Hu.
  assert (Hc : (value (fitness c) == v)%Q).
  { apply choice_Ok in Ec. destruct Ec as [s0 i s3 c0 _ Hn].
    apply nth_error_In in Hn.
    exact (proj1 (List.Forall_forall _ _) equal_values c0 Hn). }
  unfold py_div.
  destruct (Qeq_bool m 0) eqn:E.
  - apply Qeq_bool_iff in E. rewrite Hm in E. contradiction.
  - assert (Hr : Qle_bool u (value (fitness c) / m) = true).
    { apply Qle_bool_iff. rewrite Hc, Hm.
      unfold Qdiv. rewrite Qmult_inv_r by exact v_nonzero. exact Hu. }
    rewrite Hr. reflexivity.
Qed.

Lemma select_slots_first_draws fuel m k s :
  (m == v)%Q ->
  select_slots R (S fuel) animats m k s = uniform_draws R animats k s.
Proof.
  intros Hm. revert s. induction k as [|k IH]; intros s; [reflexivity|].
  cbn [select_slots uniform_draws]. unfold bind at 1.
  rewrite (accept_loop_first_draw fuel s Hm). unfold bind, random_random, ret.
  destruct (choice R animats s) as [[c s1]| |]; try reflexivity.
  destruct (random R s1) as [u s2]. rewrite IH. reflexivity.
Qed.

End EqualFitness.

(** X12.  When all animats have the same selection value, other than zero, and
    [random.random()] never exceeds 1, [select] rejects nobody: each slot
    takes the first candidate drawn, so the [k] animats selected are [k]
    plain draws from the population, and one pass of each loop is all the
    fuel needed. *)
Theorem select_is_uniform_among_equals
        (R : RandomModule) (animats : list Animat) (v : Q)
        (fuel : nat) (k : Z) (s : rng R) :
  (forall s, (fst (random R s) <= 1)%Q) ->
  ~ (v == 0)%Q ->
  animats <> [] ->
  Forall (fun a => (value (fitness a) == v)%Q) animats ->
  select R (S fuel) animats k s = uniform_draws R animats (Z.to_nat k) s.
Proof.
  intros Hrand Hv Hne Heq. unfold select.
  assert (Hmap : map (fun animat => value (fitness animat)) animats <> []).
  { destruct animats; [congruence | discriminate]. }
  destruct (py_max_nonempty Hmap) as [m Hm].
  erewrite bind_step by (rewrite Hm; reflexivity).
  apply select_slots_first_draws with (v := v); try assumption.
  apply py_max_spec in Hm as [Hin _].
  apply in_map_iff in Hin as (a & <- & Ha).
  exact (proj1 (List.Forall_forall _ _) Heq a Ha).
Qed.

Lemma unit_random_at_most_one (s : rng unit_random) :
  (fst (random unit_random s) <= 1)%Q.
Proof.
  destruct s as [|x t]; cbn [unit_random random fst]; [discriminate|].
  unfold Qle. cbn [Qnum Qden].
  pose proof (Nat.mod_upper_bound x 10 ltac:(lia)). lia.
Qed.

(** The statement above on three animats of value 2 and two slots. *)
Lemma select_is_uniform_among_equals_witness :
  select unit_random 1 [sample_animat 2; sample_animat 2; sample_animat 2] 2
         [4; 19; 2; 7]%nat
  = uniform_draws unit_random
                  [sample_animat 2; sample_animat 2; sample_animat 2]
                  (Z.to_nat 2) [4; 19; 2; 7]%nat.
Proof.
  apply (@select_is_uniform_among_equals
           unit_random [sample_animat 2; sample_animat 2; sample_animat 2] 2).
  - apply unit_random_at_most_one.
  - discriminate.
  - discriminate.
  - repeat constructor.
Defined.

(** ** The counts of the states of a game *)

Lemma runs_from_unfold (c : Z) (a b : state) (t : list state) :
  runs_from c (a :: b :: t)
  = if state_eqb a b then runs_from (c + 1) (b :: t)
    else (a, c + 1) :: runs_from 0 (b :: t).
Proof. reflexivity. Qed.

Lemma run_ends_unfold (a b : state) (t : list state) :
  run_ends (a :: b :: t)
  = if state_eqb a b then run_ends (b :: t) else a :: run_ends (b :: t).
Proof. reflexivity. Qed.

Lemma diff_idx_from_unfold (i : Z) (a b : state) (t : list state) :
  diff_idx_from i (a :: b :: t)
  = if state_eqb a b then diff_idx_from (i + 1) (b :: t)
    else i :: diff_idx_from (i + 1) (b :: t).
Proof. reflexivity. Qed.

Lemma np_diff_unfold (x y : Z) (l : list Z) :
  np_diff (x :: y :: l) = (y - x) :: np_diff (y :: l).
Proof. reflexivity. Qed.

(** The pairs of run ends and differences of [diff_idx] are the runs with
    their lengths. *)
Lemma combine_run_ends (rows : list state) :
  forall i p,
    combine (run_ends rows) (np_diff (p :: diff_idx_from i rows))
    = runs_from (i - p - 1) rows.
Proof.
  induction rows as [|a [|b t] IH]; intros i p; try reflexivity.
  rewrite run_ends_unfold, diff_idx_from_unfold, runs_from_unfold.
  destruct (state_eqb a b).
  - rewrite (IH (i + 1) p). f_equal. lia.
  - rewrite np_diff_unfold. cbn [combine]. rewrite (IH (i + 1) i).
    f_equal; [f_equal; lia | f_equal; lia].
Qed.

Lemma combine_app_short {A B} (us extra : list A) (cs : list B) :
  (length cs <= length us)%nat ->
  combine (us ++ extra) cs = combine us cs.
Proof.
  revert cs. induction us as [|u us IH]; intros [|c cs] H; cbn in *;
    try reflexivity; try lia.
  - now destruct extra.
  - f_equal. apply IH. lia.
Qed.

Lemma run_ends_diff_idx_length (rows : list state) (i : Z) :
  length (run_ends rows) = length (diff_idx_from i rows).
Proof.
  revert i. induction rows as [|a [|b t] IH]; intros i; try reflexivity.
  rewrite run_ends_unfold, diff_idx_from_unfold.
  destruct (state_eqb a b); cbn [length]; now rewrite (IH (i + 1)).
Qed.

(** The pairs that [zip] yields are the runs of the sorted rows, the final
    run left out; a game without rows raises [IndexError]. *)
Lemma states_and_counts_runs (game : list (list state)) :
  states_and_counts game
  = match reshape game with
    | [] => Raise IndexError
    | _ => Ok (runs_from 0 (take_rows (reshape game) (lexsort (reshape game))))
    end.
Proof.
  unfold states_and_counts.
  set (rows := take_rows (reshape game) (lexsort (reshape game))).
  destruct (reshape game) as [|r0 g0] eqn:Eg.
  - reflexivity.
  - assert (Hrows : rows <> []).
    { intros E. apply (f_equal (@length state)) in E.
      unfold rows in E. rewrite sorted_game_length in E. discriminate. }
    destruct (last_item_nonempty Hrows) as [final Hfinal].
    rewrite Hfinal. f_equal.
    assert (Hu : map (fun i => nth (Z.to_nat i) rows [])
                     (diff_idx_from 0 rows) = run_ends rows).
    { rewrite <- (diff_idx_rows rows 0). apply map_ext. intros j.
      now rewrite Z.sub_0_r. }
    rewrite Hu, combine_app_short.
    + apply (combine_run_ends rows 0 (-1)).
    + rewrite np_diff_length, (run_ends_diff_idx_length rows 0). lia.
Qed.

Lemma runs_from_In_rows (rows : list state) :
  forall c x n, In (x, n) (runs_from c rows) -> In x rows.
Proof.
  induction rows as [|a [|b t] IH]; intros c x n; try (intros []).
  rewrite runs_from_unfold. destruct (state_eqb a b).
  - intros H. right. eapply IH; eassumption.
  - intros [H | H]; [injection H as <- _; now left|].
    right. eapply IH; eassumption.
Qed.

Lemma key_lt_irrefl (a : state) : ~ key_lt a a.
Proof.
  unfold key_lt, key_compare. rewrite lex_compare_refl. discriminate.
Qed.

Lemma occurrences_cons (x a : state) (rows : list state) :
  occurrences x (a :: rows)
  = occurrences x rows + (if state_eqb x a then 1 else 0).
Proof.
  unfold occurrences. cbn [count_occ].
  destruct (List.list_eq_dec Z.eq_dec a x) as [E | E].
  - subst. rewrite (proj2 (state_eqb_eq x x) eq_refl). lia.
  - destruct (state_eqb x a) eqn:Ex; [|lia].
    apply state_eqb_eq in Ex. congruence.
Qed.

Lemma occurrences_absent (x : state) (rows : list state) :
  ~ In x rows -> occurrences x rows = 0.
Proof.
  intros H. unfold occurrences.
  rewrite (proj1 (count_occ_not_In _ rows x) H). reflexivity.
Qed.

Lemma occurrences_present (x : state) (rows : list state) :
  In x rows -> 1 <= occurrences x rows.
Proof.
  intros H. unfold occurrences.
  apply (count_occ_In (List.list_eq_dec Z.eq_dec)) in H. lia.
Qed.

(** On sorted rows the length of a run is the number of rows equal to its
    state. *)
Lemma runs_from_counts (rows : list state) :
  StronglySorted (fun a b => key_leb a b = true) rows ->
  forall c x n,
    In (x, n) (runs_from c rows) ->
    n = occurrences x rows
        + match rows with
          | a :: _ => if state_eqb x a then c else 0
          | [] => 0
          end.
Proof.
  induction rows as [|a [|b t] IH]; intros Hs c x n; try (intros []).
  inversion Hs as [|? ? Hs' Ha]; subst.
  rewrite runs_from_unfold. destruct (state_eqb a b) eqn:Eab.
  - apply state_eqb_eq in Eab. subst b. intros H.
    rewrite (IH Hs' _ _ _ H), (occurrences_cons x a (a :: t)).
    destruct (state_eqb x a); lia.
  - assert (Hlt : forall y, In y (b :: t) -> key_lt a y).
    { assert (Hab : key_lt a b).
      { inversion Ha as [|? ? Hab _]; subst.
        apply key_leb_cases in Hab as [Hab | ->]; [exact Hab|].
        rewrite (proj2 (state_eqb_eq b b) eq_refl) in Eab. discriminate. }
      intros y [<- | Hy]; [exact Hab|].
      eapply key_lt_leb_trans; [exact Hab|].
      inversion Hs' as [|? ? _ Hbt]; subst.
      exact (proj1 (List.Forall_forall _ _) Hbt y Hy). }
    assert (Hfresh : forall y, In y (b :: t) -> state_eqb y a = false).
    { intros y Hy. destruct (state_eqb y a) eqn:E; [|reflexivity].
      apply state_eqb_eq in E. subst y.
      destruct (key_lt_irrefl (Hlt a Hy)). }
    intros [H | H].
    + injection H as <- <-.
      rewrite (occurrences_cons a a (b :: t)), occurrences_absent.
      * rewrite (proj2 (state_eqb_eq a a) eq_refl). lia.
      * intros Hin. destruct (key_lt_irrefl (Hlt a Hin)).
    + pose proof (runs_from_In_rows _ _ _ _ H) as Hx.
      rewrite (IH Hs' _ _ _ H), (occurrences_cons x a (b :: t)),
        (Hfresh x Hx).
      destruct (state_eqb x b); lia.
Qed.

Lemma insert_row_perm (p : nat * state) (l : list (nat * state)) :
  Permutation (insert_row p l) (p :: l).
Proof.
  induction l as [|q t IH]; cbn; [reflexivity|].
  destruct (key_leb (snd p) (snd q)); [reflexivity|].
  rewrite IH. apply perm_swap.
Qed.

Lemma sort_rows_perm (l : list (nat * state)) : Permutation (sort_rows l) l.
Proof.
  induction l as [|p l IH]; [reflexivity|].
  change (sort_rows (p :: l)) with (insert_row p (sort_rows l)).
  rewrite insert_row_perm. now constructor.
Qed.

Lemma map_snd_combine_seq (l : list state) (k : nat) :
  map snd (combine (seq k (length l)) l) = l.
Proof.
  revert k. induction l as [|a l IH]; intros k; [reflexivity|].
  cbn. now rewrite IH.
Qed.

(** Sorting keeps the rows: [game[np.lexsort(game.T), :]] is a permutation
    of [game]. *)
Lemma sorted_game_perm (game : list state) :
  Permutation (take_rows game (lexsort game)) game.
Proof.
  rewrite take_rows_lexsort.
  rewrite (Permutation_map snd (sort_rows_perm _)).
  now rewrite map_snd_combine_seq.
Qed.

Lemma occurrences_sorted_game (x : state) (game : list state) :
  occurrences x (take_rows game (lexsort game)) = occurrences x game.
Proof.
  unfold occurrences. f_equal.
  apply (proj1 (Permutation_count_occ (List.list_eq_dec Z.eq_dec) _ _)).
  apply sorted_game_perm.
Qed.

Lemma slice_to_prefix {A} (l : list A) (n : Z) :
  exists rest, l = slice_to l n ++ rest.
Proof.
  unfold slice_to. destruct (n <? 0); eexists; symmetry; apply firstn_skipn.
Qed.

Lemma slice_to_In {A} (l : list A) (n : Z) (x : A) :
  In x (slice_to l n) -> In x l.
Proof.
  intros H. destruct (slice_to_prefix l n) as [rest ->].
  apply in_or_app. now left.
Qed.

Lemma ascending_NoDup (pairs : list (state * Z)) :
  StronglySorted (fun p q => key_lt (fst p) (fst q)) pairs ->
  List.NoDup (map fst pairs).
Proof.
  induction 1 as [|p l Hl IH Hp]; cbn; constructor; [|exact IH].
  intros Hin. apply in_map_iff in Hin as (q & Hq & Hin).
  pose proof (proj1 (List.Forall_forall _ _) Hp q Hin) as Hlt.
  cbn beta in Hlt. rewrite Hq in Hlt. exact (key_lt_irrefl Hlt).
Qed.

(** X13.  Whatever [n] is, every pair that [_most_common_states] returns holds a
    state of the game with the number of timesteps spent in it, which is at
    least 1, and no state is returned twice. *)
Theorem most_common_states_counts_occurrences
        (game : list (list state)) (n : option Z)
        (res : list (state * Z)) :
  _most_common_states game n = Ok res ->
  Forall (fun p =>
            In (fst p) (reshape game) /\
            snd p = occurrences (fst p) (reshape game) /\
            1 <= snd p) res /\
  List.NoDup (map fst res).
Proof.
  unfold _most_common_states. intros H.
  destruct (states_and_counts game) as [pairs| |] eqn:Hp; try discriminate.
  injection H as <-.
  assert (Hne : reshape game <> []).
  { intros E. rewrite states_and_counts_runs, E in Hp. discriminate. }
  pose proof Hp as Hruns. rewrite states_and_counts_runs in Hruns.
  destruct (reshape game) as [|r0 g0] eqn:Eg; [congruence|].
  injection Hruns as Hruns. rewrite <- Eg in *. clear Eg r0 g0.
  set (k := match n with
            | Some n0 =>
                if Z.of_nat (length pairs) <? n0
                then Z.of_nat (length pairs) else n0
            | None => Z.of_nat (length pairs)
            end).
  split.
  - apply List.Forall_forall. intros [x c] Hin. cbn [fst snd].
    apply slice_to_In, sorted_desc_In in Hin. rewrite <- Hruns in Hin.
    pose proof (runs_from_counts (sorted_game_sorted (reshape game))
                                 _ _ _ Hin) as Hc.
    pose proof (runs_from_In_rows _ _ _ _ Hin) as Hx.
    apply (Permutation_in _ (sorted_game_perm (reshape game))) in Hx.
    rewrite occurrences_sorted_game in Hc.
    assert (Hc' : c = occurrences x (reshape game)).
    { rewrite Hc.
      repeat match goal with
             | |- context [match ?t with _ => _ end] => destruct t
             end; lia. }
    split; [exact Hx|]. split; [exact Hc'|].
    rewrite Hc'. now apply occurrences_present.
  - destruct (states_and_counts_Ok game Hne) as (pairs' & Hp' & Hasc & _).
    assert (pairs' = pairs) by congruence. subst pairs'.
    pose proof (ascending_NoDup Hasc) as Hnd.
    apply (Permutation_NoDup
             (Permutation_map fst (Permutation_sym (sorted_desc_perm pairs))))
      in Hnd.
    destruct (slice_to_prefix (sorted_desc pairs) k) as [rest Hrest].
    rewrite Hrest, map_app in Hnd.
    exact (NoDup_app_remove_r _ _ Hnd).
Qed.

(** The statement above on a game of six timesteps. *)
Lemma most_common_states_counts_occurrences_witness :
  Forall (fun p =>
            In (fst p) (reshape [[[1]; [0]; [1]]; [[2]; [1]; [0]]]) /\
            snd p = occurrences (fst p)
                                (reshape [[[1]; [0]; [1]]; [[2]; [1]; [0]]]) /\
            1 <= snd p)
         [([1], 3); ([0], 2)] /\
  List.NoDup (map fst [([1], 3); ([0], 2)]).
Proof.
  apply (@most_common_states_counts_occurrences
           [[[1]; [0]; [1]]; [[2]; [1]; [0]]] None).
  reflexivity.
Defined.

(** ** Games with one state or none *)

Lemma runs_from_constant (r : state) (rows : list state) :
  Forall (fun x => x = r) rows -> forall c, runs_from c rows = [].
Proof.
  induction 1 as [|a [|b t] Ha Hall IH]; intros c; try reflexivity.
  rewrite runs_from_unfold.
  inversion Hall as [|? ? Hb _]; subst.
  rewrite (proj2 (state_eqb_eq r r) eq_refl). apply IH.
Qed.

Lemma slice_to_nil {A} (n : Z) : slice_to (@nil A) n = [].
Proof. unfold slice_to. destruct (n <? 0); apply firstn_nil. Qed.

(** X14.  A game that stays in one state yields no pair at all, whatever [n]:
    the only unique state is the last one, which gets no count.  The
    average over its states is then taken over nothing, and every wrapped
    fitness function returns [nan] on such an animat. *)
Theorem one_state_game_averages_to_nan
        (game : list (list state)) (r : state) (n : option Z) :
  reshape game <> [] ->
  Forall (fun x => x = r) (reshape game) ->
  _most_common_states game n = Ok [] /\
  forall (Individual : Type) (play_game : Individual -> list (list state))
         (func : Individual -> state -> Z -> Q) (ind : Individual),
    play_game ind = game ->
    _average_over_game_states play_game func n ind = Ok NaN.
Proof.
  intros Hne Hall.
  assert (H : _most_common_states game n = Ok []).
  { unfold _most_common_states. rewrite states_and_counts_runs.
    destruct (reshape game) as [|r0 g0] eqn:Eg; [congruence|].
    rewrite <- Eg in *.
    rewrite (@runs_from_constant r).
    - f_equal. apply (@slice_to_nil (state * Z)).
    - apply List.Forall_forall. intros x Hx.
      apply (Permutation_in _ (sorted_game_perm (reshape game))) in Hx.
      exact (proj1 (List.Forall_forall _ _) Hall x Hx). }
  split; [exact H|].
  intros Individual play_game func ind Hplay.
  unfold _average_over_game_states. rewrite Hplay, H. reflexivity.
Qed.

(** The statement above on four timesteps in state (1, 0). *)
Lemma one_state_game_averages_to_nan_witness :
  _most_common_states [[[1; 0]; [1; 0]]; [[1; 0]; [1; 0]]] (Some 3) = Ok [] /\
  forall (Individual : Type) (play_game : Individual -> list (list state))
         (func : Individual -> state -> Z -> Q) (ind : Individual),
    play_game ind = [[[1; 0]; [1; 0]]; [[1; 0]; [1; 0]]] ->
    _average_over_game_states play_game func (Some 3) ind = Ok NaN.
Proof.
  apply (@one_state_game_averages_to_nan
           [[[1; 0]; [1; 0]]; [[1; 0]; [1; 0]]] [1; 0] (Some 3)).
  - discriminate.
  - repeat constructor.
Defined.

(** X15.  A game without timesteps has no last row to read: both functions raise
    [IndexError], whatever [n]. *)
Theorem empty_game_raises_IndexError
        (game : list (list state)) (n : option Z) :
  reshape game = [] ->
  _most_common_states game n = Raise IndexError /\
  forall (Individual : Type) (play_game : Individual -> list (list state))
         (func : Individual -> state -> Z -> Q) (ind : Individual),
    play_game ind = game ->
    _average_over_game_states play_game func n ind = Raise IndexError.
Proof.
  intros He.
  assert (H : _most_common_states game n = Raise IndexError).
  { unfold _most_common_states.
    rewrite states_and_counts_runs, He. reflexivity. }
  split; [exact H|].
  intros Individual play_game func ind Hplay.
  unfold _average_over_game_states. rewrite Hplay, H. reflexivity.
Qed.

(** The statement above on two trials without timesteps. *)
Lemma empty_game_raises_IndexError_witness :
  _most_common_states [[]; []] None = Raise IndexError /\
  forall (Individual : Type) (play_game : Individual -> list (list state))
         (func : Individual -> state -> Z -> Q) (ind : Individual),
    play_game ind = [[]; []] ->
    _average_over_game_states play_game func None ind = Raise IndexError.
Proof.
  apply (@empty_game_raises_IndexError [[]; []] None). reflexivity.
Defined.

(** ** Bit lists *)

Lemma from_bits_snoc (l : list Z) (b : Z) :
  from_bits (l ++ [b]) = 2 * from_bits l + b.
Proof. unfold from_bits. now rewrite fold_left_app. Qed.

Lemma from_bits_bits_of_pos (p : positive) :
  from_bits (bits_of_pos p) = Zpos p.
Proof.
  induction p as [q IH | q IH |]; cbn [bits_of_pos];
    [rewrite from_bits_snoc, IH; lia | rewrite from_bits_snoc, IH; lia
     | reflexivity].
Qed.

Lemma from_bits_zeros (k : nat) (l : list Z) :
  from_bits (repeat 0 k ++ l) = from_bits l.
Proof.
  unfold from_bits. rewrite fold_left_app.
  assert (H : fold_left (fun acc b => 2 * acc + b) (repeat 0 k) 0 = 0).
  { induction k as [|k IH]; [reflexivity | exact IH]. }
  now rewrite H.
Qed.

Lemma bits_of_pos_binary (p : positive) : Forall binary (bits_of_pos p).
Proof.
  induction p as [q IH | q IH |]; cbn [bits_of_pos].
  - apply (proj2 (List.Forall_app _ _ _)).
    split; [exact IH | constructor; [now right | constructor]].
  - apply (proj2 (List.Forall_app _ _ _)).
    split; [exact IH | constructor; [now left | constructor]].
  - constructor; [now right | constructor].
Qed.

Lemma bits_of_pos_length (p : positive) :
  length (bits_of_pos p) = Pos.size_nat p.
Proof.
  induction p as [q IH | q IH |]; cbn [bits_of_pos Pos.size_nat];
    [rewrite length_app, IH; cbn; lia | rewrite length_app, IH; cbn; lia
     | reflexivity].
Qed.

Lemma binary_digits_spec (i : Z) :
  0 <= i ->
  from_bits (binary_digits i) = i /\
  Forall binary (binary_digits i) /\
  length (binary_digits i) = bit_length i.
Proof.
  destruct i as [|p|p]; intros Hi; [| |lia].
  - split; [reflexivity|].
    split; [constructor; [now left | constructor] | reflexivity].
  - split; [apply from_bits_bits_of_pos|].
    split; [apply bits_of_pos_binary | apply bits_of_pos_length].
Qed.

Lemma zfill_length (width : Z) (digits : list Z) :
  length (zfill width digits) = Nat.max (Z.to_nat width) (length digits).
Proof. unfold zfill. rewrite length_app, repeat_length. lia. Qed.

Lemma zfill_binary (width : Z) (digits : list Z) :
  Forall binary digits -> Forall binary (zfill width digits).
Proof.
  intros H. unfold zfill. apply (proj2 (List.Forall_app _ _ _)).
  split; [|exact H].
  apply List.Forall_forall. intros x Hx. apply repeat_spec in Hx. now left.
Qed.

(** X16.
    [_bitlist(i, padlength)] returns bits exactly when [i] is not negative,
    and raises [ValueError] otherwise.  The bits write [i] in base 2, most
    significant bit first, on [max(padlength, len(bin(i)) - 2)] places. *)
Theorem bitlist_writes_the_number (i padlength : Z) :
  match _bitlist i padlength with
  | Ok bits =>
      0 <= i /\
      from_bits bits = i /\
      Forall binary bits /\
      length bits = Nat.max (Z.to_nat padlength) (bit_length i)
  | Raise e => i < 0 /\ e = ValueError
  | OutOfFuel => False
  end.
Proof.
  unfold _bitlist. destruct (Z.ltb_spec i 0) as [Hi | Hi].
  - split; [exact Hi | reflexivity].
  - destruct (binary_digits_spec Hi) as (Hv & Hb & Hl).
    split; [exact Hi|]. split; [|split].
    + unfold zfill. now rewrite from_bits_zeros.
    + now apply zfill_binary.
    + now rewrite zfill_length, Hl.
Qed.

Lemma size_nat_below (p : positive) :
  forall n : nat, Zpos p < 2 ^ Z.of_nat n -> (Pos.size_nat p <= n)%nat.
Proof.
  induction p as [q IH | q IH |]; intros [|n] H; cbn [Pos.size_nat];
    try (cbn in H; lia).
  - apply le_n_S, IH. rewrite Nat2Z.inj_succ, Z.pow_succ_r in H by lia. lia.
  - apply le_n_S, IH. rewrite Nat2Z.inj_succ, Z.pow_succ_r in H by lia. lia.
Qed.

(** A number below [2 ** width] fills exactly [width] places, when there
    is at least one place. *)
Lemma zfill_width (width : nat) (i : Z) :
  (1 <= width)%nat ->
  0 <= i < 2 ^ Z.of_nat width ->
  length (zfill (Z.of_nat width) (binary_digits i)) = width.
Proof.
  intros Hw Hi. rewrite zfill_length, Nat2Z.id.
  destruct (binary_digits_spec (proj1 Hi)) as (_ & _ & ->).
  destruct i as [|p|p]; cbn [bit_length]; [lia| |lia].
  pose proof (@size_nat_below p width (proj2 Hi)). lia.
Qed.

(** ** The table of sensor and motor states *)

Lemma range_In (n x : Z) : In x (range n) <-> 0 <= x < n.
Proof.
  unfold range. rewrite in_map_iff. split.
  - intros (k & <- & Hk). apply in_seq in Hk. lia.
  - intros Hx. exists (Z.to_nat x). split; [lia|]. apply in_seq. lia.
Qed.

Lemma range_length (n : Z) : length (range n) = Z.to_nat n.
Proof. unfold range. now rewrite length_map, length_seq. Qed.

Lemma NoDup_map_injective {A B} (f : A -> B) (l : list A) :
  (forall x y, f x = f y -> x = y) ->
  List.NoDup l -> List.NoDup (map f l).
Proof.
  intros Hf. induction 1 as [|x l Hx Hl IH]; cbn [map]; constructor.
  - intros Hin. apply in_map_iff in Hin as (y & Hy & Hin).
    apply Hf in Hy. subst y. contradiction.
  - exact IH.
Qed.

Lemma range_NoDup (n : Z) : List.NoDup (range n).
Proof.
  unfold range. apply NoDup_map_injective; [|apply seq_NoDup].
  intros a b H. lia.
Qed.

Lemma pairs_NoDup {A B} (l1 : list A) (l2 : list B) :
  List.NoDup l1 -> List.NoDup l2 ->
  List.NoDup (flat_map (fun i => map (pair i) l2) l1).
Proof.
  intros H1 H2. induction H1 as [|x l1 Hx H1 IH]; cbn [flat_map].
  - constructor.
  - apply List.NoDup_app; [| exact IH |].
    + apply NoDup_map_injective; [|exact H2].
      intros a b H. now injection H.
    + intros [a b] Ha Hb.
      apply in_map_iff in Ha as (b' & Hb' & _). injection Hb' as <- <-.
      apply in_flat_map in Hb as (i & Hi & Hb).
      apply in_map_iff in Hb as (b'' & Hb'' & _). injection Hb'' as <- _.
      contradiction.
Qed.

Lemma flat_map_constant_length {A B} (f : A -> list B) (c : nat)
      (l : list A) :
  (forall x, In x l -> length (f x) = c) ->
  length (flat_map f l) = (length l * c)%nat.
Proof.
  induction l as [|x l IH]; intros H; [reflexivity|].
  cbn [flat_map length]. rewrite length_app, (H x (or_introl eq_refl)), IH.
  - lia.
  - intros y Hy. apply H. now right.
Qed.

Section SensorMotorFacts.

Variable NUM_SENSORS : nat.
Variable NUM_MOTORS : nat.
Hypothesis some_sensor : (1 <= NUM_SENSORS)%nat.
Hypothesis some_motor : (1 <= NUM_MOTORS)%nat.

Let sensor_bits (i : Z) := zfill (Z.of_nat NUM_SENSORS) (binary_digits i).
Let motor_bits (j : Z) := zfill (Z.of_nat NUM_MOTORS) (binary_digits j).

Lemma sensor_motor_entry (idx : Z * Z) (st : list Z) :
  In (idx, st) (SENSOR_MOTOR_STATES NUM_SENSORS NUM_MOTORS) <->
  0 <= fst idx < NUM_SENSOR_STATES NUM_SENSORS /\
  0 <= snd idx < NUM_MOTOR_STATES NUM_MOTORS /\
  st = sensor_bits (fst idx) ++ motor_bits (snd idx).
Proof.
  unfold SENSOR_MOTOR_STATES. rewrite in_flat_map. split.
  - intros (i & Hi & Hin). apply in_map_iff in Hin as (j & Hj & Hin).
    injection Hj as <- <-. apply range_In in Hi, Hin. cbn [fst snd].
    repeat split; lia.
  - destruct idx as [i j]. cbn [fst snd]. intros (Hi & Hj & ->).
    exists i. split; [now apply range_In|].
    apply in_map_iff. exists j. split; [reflexivity | now apply range_In].
Qed.

Lemma sensor_motor_decode (i j : Z) :
  0 <= i < NUM_SENSOR_STATES NUM_SENSORS ->
  0 <= j < NUM_MOTOR_STATES NUM_MOTORS ->
  length (sensor_bits i ++ motor_bits j) = (NUM_SENSORS + NUM_MOTORS)%nat /\
  Forall binary (sensor_bits i ++ motor_bits j) /\
  from_bits (firstn NUM_SENSORS (sensor_bits i ++ motor_bits j)) = i /\
  from_bits (skipn NUM_SENSORS (sensor_bits i ++ motor_bits j)) = j.
Proof.
  intros Hi Hj.
  assert (Hls : length (sensor_bits i) = NUM_SENSORS)
    by (apply zfill_width; assumption).
  assert (Hlm : length (motor_bits j) = NUM_MOTORS)
    by (apply zfill_width; assumption).
  destruct (binary_digits_spec (proj1 Hi)) as (Hvi & Hbi & _).
  destruct (binary_digits_spec (proj1 Hj)) as (Hvj & Hbj & _).
  split; [rewrite length_app; lia|]. split.
  - apply (proj2 (List.Forall_app _ _ _)).
    split; apply zfill_binary; assumption.
  - split.
    + rewrite <- Hls at 1. rewrite firstn_app, firstn_all, Nat.sub_diag.
      cbn [firstn]. rewrite app_nil_r.
      unfold sensor_bits, zfill.
      exact (eq_trans (from_bits_zeros _ _) Hvi).
    + rewrite <- Hls at 1. rewrite skipn_app, skipn_all, Nat.sub_diag.
      cbn [skipn app].
      unfold motor_bits, zfill.
      exact (eq_trans (from_bits_zeros _ _) Hvj).
Qed.

End SensorMotorFacts.

(** Every entry of the table holds indices in range and the vector of bits
    that writes them. *)
Lemma sensor_motor_states_decoded (NUM_SENSORS NUM_MOTORS : nat) :
  (1 <= NUM_SENSORS)%nat ->
  (1 <= NUM_MOTORS)%nat ->
  Forall (fun e =>
            0 <= fst (fst e) < 2 ^ Z.of_nat NUM_SENSORS /\
            0 <= snd (fst e) < 2 ^ Z.of_nat NUM_MOTORS /\
            length (snd e) = (NUM_SENSORS + NUM_MOTORS)%nat /\
            Forall binary (snd e) /\
            from_bits (firstn NUM_SENSORS (snd e)) = fst (fst e) /\
            from_bits (skipn NUM_SENSORS (snd e)) = snd (fst e))
         (SENSOR_MOTOR_STATES NUM_SENSORS NUM_MOTORS).
Proof.
  intros Hs Hm.
  apply List.Forall_forall. intros [idx st] Hin. cbn [fst snd].
  apply sensor_motor_entry in Hin as (Hi & Hj & ->); try assumption.
  destruct (sensor_motor_decode Hs Hm Hi Hj) as (Hl & Hb & Hdi & Hdj).
  repeat split; try assumption; try apply Hi; apply Hj.
Qed.

(** No two entries of the table hold the same vector. *)
Lemma sensor_motor_vectors_NoDup (NUM_SENSORS NUM_MOTORS : nat) :
  (1 <= NUM_SENSORS)%nat ->
  (1 <= NUM_MOTORS)%nat ->
  List.NoDup (map snd (SENSOR_MOTOR_STATES NUM_SENSORS NUM_MOTORS)).
Proof.
  intros Hs Hm.
  pose proof (sensor_motor_states_decoded Hs Hm) as Hall.
  apply (NoDup_map_inv
           (fun st => (from_bits (firstn NUM_SENSORS st),
                       from_bits (skipn NUM_SENSORS st)))).
  rewrite map_map.
  rewrite (map_ext_in _ fst).
  - unfold SENSOR_MOTOR_STATES.
    assert (Hfst : forall l2 l1,
               map fst
                   (flat_map
                      (fun i =>
                         map (fun j =>
                                ((i, j),
                                 zfill (Z.of_nat NUM_SENSORS)
                                       (binary_digits i)
                                   ++ zfill (Z.of_nat NUM_MOTORS)
                                            (binary_digits j))) l2) l1)
               = flat_map (fun i => map (pair i) l2) l1).
    { intros l2 l1. induction l1 as [|i l1 IH]; [reflexivity|].
      cbn [flat_map]. rewrite map_app, IH, map_map. reflexivity. }
    rewrite Hfst. apply pairs_NoDup; apply range_NoDup.
  - intros e He.
    destruct (proj1 (List.Forall_forall _ _) Hall e He)
      as (_ & _ & _ & _ & Hdi & Hdj).
    rewrite Hdi, Hdj. now destruct e as [[i j] st].
Qed.

(** X17.  With at least one sensor and one motor, [SENSOR_MOTOR_STATES] lists
    every pair of a sensor state and a motor state once: it has
    [2 ** (NUM_SENSORS + NUM_MOTORS)] entries, each entry is a vector of
    [NUM_SENSORS + NUM_MOTORS] bits whose first [NUM_SENSORS] bits write
    the sensor index and whose other bits write the motor index, and no
    two entries hold the same vector. *)
Theorem sensor_motor_states_enumerate
        (NUM_SENSORS NUM_MOTORS : nat) :
  (1 <= NUM_SENSORS)%nat ->
  (1 <= NUM_MOTORS)%nat ->
  Z.of_nat (length (SENSOR_MOTOR_STATES NUM_SENSORS NUM_MOTORS))
  = 2 ^ Z.of_nat (NUM_SENSORS + NUM_MOTORS) /\
  Forall (fun e =>
            0 <= fst (fst e) < 2 ^ Z.of_nat NUM_SENSORS /\
            0 <= snd (fst e) < 2 ^ Z.of_nat NUM_MOTORS /\
            length (snd e) = (NUM_SENSORS + NUM_MOTORS)%nat /\
            Forall binary (snd e) /\
            from_bits (firstn NUM_SENSORS (snd e)) = fst (fst e) /\
            from_bits (skipn NUM_SENSORS (snd e)) = snd (fst e))
         (SENSOR_MOTOR_STATES NUM_SENSORS NUM_MOTORS) /\
  List.NoDup (map snd (SENSOR_MOTOR_STATES NUM_SENSORS NUM_MOTORS)).
Proof.
  intros Hs Hm.
  split; [|split; [now apply sensor_motor_states_decoded
                  | now apply sensor_motor_vectors_NoDup]].
  unfold SENSOR_MOTOR_STATES.
  rewrite (@flat_map_constant_length
             _ _ _ (Z.to_nat (NUM_MOTOR_STATES NUM_MOTORS))).
  - rewrite range_length. unfold NUM_SENSOR_STATES, NUM_MOTOR_STATES.
    rewrite Nat2Z.inj_mul, !Z2Nat.id, Nat2Z.inj_add, Z.pow_add_r by lia.
    reflexivity.
  - intros i _. now rewrite length_map, range_length.
Qed.

(** The statement above for two sensors and one motor. *)
Lemma sensor_motor_states_enumerate_witness :
  Z.of_nat (length (SENSOR_MOTOR_STATES 2 1)) = 2 ^ Z.of_nat (2 + 1) /\
  Forall (fun e =>
            0 <= fst (fst e) < 2 ^ Z.of_nat 2 /\
            0 <= snd (fst e) < 2 ^ Z.of_nat 1 /\
            length (snd e) = (2 + 1)%nat /\
            Forall binary (snd e) /\
            from_bits (firstn 2 (snd e)) = fst (fst e) /\
            from_bits (skipn 2 (snd e)) = snd (fst e))
         (SENSOR_MOTOR_STATES 2 1) /\
  List.NoDup (map snd (SENSOR_MOTOR_STATES 2 1)).
Proof.
  apply (@sensor_motor_states_enumerate 2 1); lia.
Defined.

(** The table for two sensors and one motor, as the comprehension builds
    it. *)
Example sensor_motor_states_2_1 :
  SENSOR_MOTOR_STATES 2 1
  = [ ((0, 0), [0; 0; 0]); ((0, 1), [0; 0; 1]);
      ((1, 0), [0; 1; 0]); ((1, 1), [0; 1; 1]);
      ((2, 0), [1; 0; 0]); ((2, 1), [1; 0; 1]);
      ((3, 0), [1; 1; 0]); ((3, 1), [1; 1; 1]) ].
Proof. reflexivity. Qed.

(** ** The contingency table of [mi] *)

Lemma from_bits_range (l : list Z) :
  Forall binary l -> 0 <= from_bits l < 2 ^ Z.of_nat (length l).
Proof.
  induction l as [|x l IH] using rev_ind; intros H.
  - cbn. lia.
  - apply List.Forall_app in H as [Hl Hx].
    inversion Hx as [|? ? Hb _]; subst.
    rewrite from_bits_snoc, length_app, Nat2Z.inj_add, Z.pow_add_r by lia.
    specialize (IH Hl). cbn [length Z.of_nat Pos.of_succ_nat].
    change (2 ^ 1) with 2. destruct Hb; subst; lia.
Qed.

Lemma from_bits_injective (l1 : list Z) :
  forall l2,
    length l1 = length l2 ->
    Forall binary l1 -> Forall binary l2 ->
    from_bits l1 = from_bits l2 -> l1 = l2.
Proof.
  induction l1 as [|x l1 IH] using rev_ind; intros l2 Hlen H1 H2 Hv.
  - destruct l2; [reflexivity | discriminate].
  - destruct (exists_last (l := l2)) as (l2' & y & ->).
    { intros ->. rewrite length_app in Hlen. cbn in Hlen. lia. }
    rewrite !length_app in Hlen. cbn [length] in Hlen.
    apply List.Forall_app in H1 as [H1 Hx].
    apply List.Forall_app in H2 as [H2 Hy].
    inversion Hx as [|? ? Hbx _]; subst.
    inversion Hy as [|? ? Hby _]; subst.
    rewrite !from_bits_snoc in Hv.
    assert (x = y /\ from_bits l1 = from_bits l2')
      by (destruct Hbx, Hby; subst; lia).
    destruct H as [-> Hv']. f_equal. apply IH; try assumption. lia.
Qed.

(** Every vector of [width] bits is the padded bit list of the number it
    writes. *)
Lemma zfill_from_bits (width : nat) (l : list Z) :
  (1 <= width)%nat ->
  length l = width ->
  Forall binary l ->
  zfill (Z.of_nat width) (binary_digits (from_bits l)) = l.
Proof.
  intros Hw Hlen Hb.
  pose proof (from_bits_range Hb) as Hr. rewrite Hlen in Hr.
  destruct (binary_digits_spec (proj1 Hr)) as (Hv & Hbd & _).
  apply from_bits_injective.
  - now rewrite zfill_width.
  - now apply zfill_binary.
  - exact Hb.
  - unfold zfill. now rewrite from_bits_zeros.
Qed.

Lemma sum_Z_add {A} (f g : A -> Z) (l : list A) :
  sum_Z (map (fun x => f x + g x) l) = sum_Z (map f l) + sum_Z (map g l).
Proof.
  induction l as [|x l IH]; [reflexivity|].
  unfold sum_Z in *. cbn [map fold_right]. lia.
Qed.

Lemma sum_Z_zero {A} (l : list A) : sum_Z (map (fun _ => 0) l) = 0.
Proof. induction l as [|x l IH]; [reflexivity | exact IH]. Qed.

(** Over a list without repetition, the indicator of one of its members
    sums to 1. *)
Lemma sum_Z_indicator (v : list Z) (l : list (list Z)) :
  List.NoDup l -> In v l ->
  sum_Z (map (fun st => if state_eqb v st then 1 else 0) l) = 1.
Proof.
  induction 1 as [|x l Hx Hl IH]; intros Hin; [destruct Hin|].
  cbn [map sum_Z fold_right]. fold (sum_Z (map (fun st => if state_eqb v st
                                                         then 1 else 0) l)).
  destruct Hin as [-> | Hin].
  - rewrite (proj2 (state_eqb_eq v v) eq_refl).
    assert (H0 : sum_Z (map (fun st => if state_eqb v st then 1 else 0) l)
                 = 0).
    { transitivity (sum_Z (map (fun _ : list Z => 0) l));
        [|apply sum_Z_zero].
      f_equal. apply map_ext_in. intros st Hst.
      destruct (state_eqb v st) eqn:E; [|reflexivity].
      apply state_eqb_eq in E. subst st. contradiction. }
    lia.
  - rewrite (IH Hin).
    destruct (state_eqb v x) eqn:E; [|reflexivity].
    apply state_eqb_eq in E. subst x. contradiction.
Qed.

Section ContingencyFacts.

Variable NUM_SENSORS : nat.
Variable NUM_MOTORS : nat.
Hypothesis some_sensor : (1 <= NUM_SENSORS)%nat.
Hypothesis some_motor : (1 <= NUM_MOTORS)%nat.


Lemma sensor_motor_length (row : state) :
  binary_timestep NUM_SENSORS NUM_MOTORS row ->
  length (sensor_motor NUM_SENSORS NUM_MOTORS row)
  = (NUM_SENSORS + NUM_MOTORS)%nat.
Proof.
  intros (Hs & Hm & _). unfold sensor_motor.
  destruct (Nat.eqb_spec NUM_MOTORS 0) as [E | _]; [lia|].
  rewrite length_app, length_firstn, length_skipn. lia.
Qed.

Lemma sensor_motor_binary (row : state) :
  binary_timestep NUM_SENSORS NUM_MOTORS row ->
  Forall binary (sensor_motor NUM_SENSORS NUM_MOTORS row).
Proof.
  intros (_ & _ & Hb). unfold sensor_motor.
  destruct (Nat.eqb_spec NUM_MOTORS 0) as [E | _]; [lia|].
  apply (proj2 (List.Forall_app _ _ _)). split.
  - rewrite <- (firstn_skipn NUM_SENSORS row) in Hb.
    now apply List.Forall_app in Hb.
  - rewrite <- (firstn_skipn (length row - NUM_MOTORS) row) in Hb.
    now apply List.Forall_app in Hb.
Qed.

(** What a timestep shows is one of the vectors of the table. *)
Lemma sensor_motor_in_table (row : state) :
  binary_timestep NUM_SENSORS NUM_MOTORS row ->
  In (sensor_motor NUM_SENSORS NUM_MOTORS row)
     (map snd (SENSOR_MOTOR_STATES NUM_SENSORS NUM_MOTORS)).
Proof.
  intros Hrow.
  pose proof (sensor_motor_length Hrow) as Hlen.
  pose proof (sensor_motor_binary Hrow) as Hbin.
  set (v := sensor_motor NUM_SENSORS NUM_MOTORS row) in *.
  assert (Hsplit : v = firstn NUM_SENSORS v ++ skipn NUM_SENSORS v)
    by (symmetry; apply firstn_skipn).
  assert (Hl1 : length (firstn NUM_SENSORS v) = NUM_SENSORS)
    by (rewrite length_firstn; lia).
  assert (Hl2 : length (skipn NUM_SENSORS v) = NUM_MOTORS)
    by (rewrite length_skipn; lia).
  assert (Hb1 : Forall binary (firstn NUM_SENSORS v)).
  { rewrite Hsplit in Hbin. now apply List.Forall_app in Hbin. }
  assert (Hb2 : Forall binary (skipn NUM_SENSORS v)).
  { rewrite Hsplit in Hbin. now apply List.Forall_app in Hbin. }
  pose proof (from_bits_range Hb1) as Hr1. rewrite Hl1 in Hr1.
  pose proof (from_bits_range Hb2) as Hr2. rewrite Hl2 in Hr2.
  apply in_map_iff.
  exists ((from_bits (firstn NUM_SENSORS v),
           from_bits (skipn NUM_SENSORS v)), v).
  split; [reflexivity|].
  apply (proj2 (@sensor_motor_entry NUM_SENSORS NUM_MOTORS
                                    some_sensor some_motor _ _)).
  cbn [fst snd].
  split; [exact Hr1|]. split; [exact Hr2|].
  rewrite (zfill_from_bits some_sensor Hl1 Hb1).
  rewrite (zfill_from_bits some_motor Hl2 Hb2).
  exact Hsplit.
Qed.

Lemma count_equal_showing (st : list Z) (rows : list state) :
  length st = (NUM_SENSORS + NUM_MOTORS)%nat ->
  Forall (binary_timestep NUM_SENSORS NUM_MOTORS) rows ->
  count_equal NUM_SENSORS NUM_MOTORS st rows
  = Ok (Z.of_nat (length (showing NUM_SENSORS NUM_MOTORS st rows))).
Proof.
  intros Hst. induction 1 as [|row rows Hrow Hrows IH]; [reflexivity|].
  cbn [count_equal showing List.filter].
  fold (showing NUM_SENSORS NUM_MOTORS st rows).
  rewrite IH. unfold all_equal.
  rewrite (sensor_motor_length Hrow), Hst, Nat.eqb_refl.
  destruct (state_eqb (sensor_motor NUM_SENSORS NUM_MOTORS row) st);
    cbn [length]; f_equal; lia.
Qed.

Lemma fill_contingency_showing (states : list ((Z * Z) * list Z))
      (rows : list state) :
  Forall (fun e => length (snd e) = (NUM_SENSORS + NUM_MOTORS)%nat) states ->
  Forall (binary_timestep NUM_SENSORS NUM_MOTORS) rows ->
  fill_contingency NUM_SENSORS NUM_MOTORS states rows
  = Ok (map (fun e =>
               (fst e,
                Z.of_nat (length (showing NUM_SENSORS NUM_MOTORS
                                          (snd e) rows))))
            states).
Proof.
  intros Hst Hrows. induction Hst as [|[idx st] states He Hst IH];
    [reflexivity|].
  cbn [fill_contingency map fst snd]. cbn [snd] in He.
  rewrite count_equal_showing by assumption. now rewrite IH.
Qed.

(** Every timestep is counted under one vector of the table. *)
Lemma showing_partitions (rows : list state) :
  Forall (binary_timestep NUM_SENSORS NUM_MOTORS) rows ->
  sum_Z (map (fun e =>
                Z.of_nat (length (showing NUM_SENSORS NUM_MOTORS
                                          (snd e) rows)))
             (SENSOR_MOTOR_STATES NUM_SENSORS NUM_MOTORS))
  = Z.of_nat (length rows).
Proof.
  induction 1 as [|row rows Hrow Hrows IH].
  - cbn [showing List.filter length Z.of_nat]. apply sum_Z_zero.
  - rewrite (map_ext
               (fun e =>
                  Z.of_nat (length (showing NUM_SENSORS NUM_MOTORS
                                            (snd e) (row :: rows))))
               (fun e =>
                  (if state_eqb (sensor_motor NUM_SENSORS NUM_MOTORS row)
                                (snd e)
                   then 1 else 0)
                  + Z.of_nat (length (showing NUM_SENSORS NUM_MOTORS
                                              (snd e) rows)))).
    + rewrite sum_Z_add, IH.
      rewrite <- (map_map snd
                          (fun st =>
                             if state_eqb
                                  (sensor_motor NUM_SENSORS NUM_MOTORS row) st
                             then 1 else 0)).
      rewrite sum_Z_indicator.
      * cbn [length]. lia.
      * now apply sensor_motor_vectors_NoDup.
      * now apply sensor_motor_in_table.
    + intros e. unfold showing. cbn [List.filter].
      destruct (state_eqb (sensor_motor NUM_SENSORS NUM_MOTORS row) (snd e));
        cbn [length]; lia.
Qed.

End ContingencyFacts.

(** X18.  With at least one sensor and one motor, and a game whose timesteps are
    vectors of bits at least [NUM_SENSORS] and [NUM_MOTORS] long, the loop
    of [mi] fills the contingency table without raising: the entry at each
    index of [SENSOR_MOTOR_STATES] is the number of timesteps, over all
    trials, whose sensors and motors show the vector of that index, and the
    entries add up to the number of timesteps: each timestep is counted
    once. *)
Theorem contingency_counts_every_timestep
        (NUM_SENSORS NUM_MOTORS : nat) (game : list (list state)) :
  (1 <= NUM_SENSORS)%nat ->
  (1 <= NUM_MOTORS)%nat ->
  Forall (binary_timestep NUM_SENSORS NUM_MOTORS) (reshape game) ->
  exists table,
    mi_contingency NUM_SENSORS NUM_MOTORS game = Ok table /\
    table
    = map (fun e =>
             (fst e,
              Z.of_nat (length (showing NUM_SENSORS NUM_MOTORS (snd e)
                                        (reshape game)))))
          (SENSOR_MOTOR_STATES NUM_SENSORS NUM_MOTORS) /\
    sum_Z (map snd table) = Z.of_nat (length (reshape game)).
Proof.
  intros Hs Hm Hrows. eexists. split; [|split; [reflexivity|]].
  - unfold mi_contingency. apply fill_contingency_showing; try assumption.
    eapply List.Forall_impl; [|exact (sensor_motor_states_decoded Hs Hm)].
    intros e (_ & _ & Hl & _). exact Hl.
  - rewrite map_map. cbn [snd]. now apply showing_partitions.
Qed.

(** The statement above on two trials of two timesteps, for two sensors and
    one motor around one hidden unit. *)
Lemma contingency_counts_every_timestep_witness :
  exists table,
    mi_contingency 2 1 [[[0; 1; 1; 0]; [1; 1; 0; 1]];
                        [[0; 1; 0; 0]; [1; 1; 1; 1]]] = Ok table /\
    table
    = map (fun e =>
             (fst e,
              Z.of_nat (length (showing 2 1 (snd e)
                                        (reshape
                                           [[[0; 1; 1; 0]; [1; 1; 0; 1]];
                                            [[0; 1; 0; 0]; [1; 1; 1; 1]]])))))
          (SENSOR_MOTOR_STATES 2 1) /\
    sum_Z (map snd table)
    = Z.of_nat (length (reshape [[[0; 1; 1; 0]; [1; 1; 0; 1]];
                                 [[0; 1; 0; 0]; [1; 1; 1; 1]]])).
Proof.
  apply (@contingency_counts_every_timestep 2 1); [lia | lia |].
  repeat (constructor;
          [repeat split; cbn; try lia;
           repeat (constructor; [(now left) || (now right)|]); constructor|]).
  constructor.
Defined.

(** The table of that game: the timesteps show 0 1 | 0, 1 1 | 1 (twice) and
    0 1 | 0 again. *)
Example contingency_2_1 :
  mi_contingency 2 1 [[[0; 1; 1; 0]; [1; 1; 0; 1]];
                      [[0; 1; 0; 0]; [1; 1; 1; 1]]]
  = Ok [ ((0, 0), 0); ((0, 1), 0); ((1, 0), 2); ((1, 1), 0);
         ((2, 0), 0); ((2, 1), 0); ((3, 0), 0); ((3, 1), 2) ].
Proof. reflexivity. Qed.

(** ** What the command-line overrides hold *)

Lemma forallb_false_In {A} (f : A -> bool) (l : list A) :
  forallb f l = false -> exists x, In x l /\ f x = false.
Proof.
  induction l as [|a l IH]; cbn [forallb]; intros H; [discriminate|].
  destruct (f a) eqn:Ha.
  - destruct (IH H) as (x & Hx & Hf). exists x. split; [now right | exact Hf].
  - exists a. split; [now left | exact Ha].
Qed.

Section OverridesContents.

Variable int_of_string : string -> option Z.
Variable float_of_string : string -> option Q.
Variable arguments : gmap string string.

Lemma convert_outcome (t : ptype) (s : string) :
  match convert int_of_string float_of_string t s with
  | Ok _ => True
  | Raise e => e = ValueError /\ t <> Pstr
  | OutOfFuel => False
  end.
Proof.
  destruct t; cbn [convert].
  - destruct (int_of_string s); [exact I | split; [reflexivity | discriminate]].
  - exact I.
  - destruct (float_of_string s);
      [exact I | split; [reflexivity | discriminate]].
Qed.

(** The comprehension over any table returns exactly when every given
    option converts, and raises the error of a conversion otherwise. *)
Lemma overrides_from_outcome (table : list (string * (string * ptype))) :
  forall acc,
    match overrides_from int_of_string float_of_string table arguments acc
    with
    | Ok _ =>
        forall opt param t s,
          In (opt, (param, t)) table ->
          arguments !! opt = Some s ->
          exists v, convert int_of_string float_of_string t s = Ok v
    | Raise e =>
        e = ValueError /\
        exists opt param t s,
          In (opt, (param, t)) table /\
          arguments !! opt = Some s /\
          t <> Pstr /\
          convert int_of_string float_of_string t s = Raise ValueError
    | OutOfFuel => False
    end.
Proof.
  induction table as [|[o [p ty]] table IH]; intros acc;
    cbn [overrides_from].
  - intros opt param t s [].
  - destruct (arguments !! o) as [s0|] eqn:Ha.
    + pose proof (convert_outcome ty s0) as Hc.
      destruct (convert int_of_string float_of_string ty s0)
        as [v0|e|] eqn:Ec; [| |exact Hc].
      * specialize (IH (<[p := v0]> acc)).
        destruct (overrides_from int_of_string float_of_string table
                                 arguments (<[p := v0]> acc)) as [m|e|];
          [| |exact IH].
        -- intros opt param t s [Heq | Hin] Hs.
           ++ injection Heq as <- <- <-. rewrite Ha in Hs.
              injection Hs as <-. now exists v0.
           ++ now apply (IH opt param t s).
        -- destruct IH as (He & opt & param & t & s & Hin & Hs & Ht & Hr).
           split; [exact He|]. exists opt, param, t, s.
           split; [now right | now repeat split].
      * destruct Hc as [-> Hty]. split; [reflexivity|].
        exists o, p, ty, s0. split; [now left | now repeat split].
    + specialize (IH acc).
      destruct (overrides_from int_of_string float_of_string table
                               arguments acc) as [m|e|]; [| |exact IH].
      * intros opt param t s [Heq | Hin] Hs.
        -- injection Heq as <- <- <-. rewrite Ha in Hs. discriminate.
        -- now apply (IH opt param t s).
      * destruct IH as (He & opt & param & t & s & Hin & Hs & Ht & Hr).
        split; [exact He|]. exists opt, param, t, s.
        split; [now right | now repeat split].
Qed.

(** Whatever the result holds was in the accumulator or comes from an
    option that was given. *)
Lemma overrides_from_sound (table : list (string * (string * ptype))) :
  forall acc m k v,
    overrides_from int_of_string float_of_string table arguments acc = Ok m ->
    m !! k = Some v ->
    acc !! k = Some v \/
    exists opt t s,
      In (opt, (k, t)) table /\
      arguments !! opt = Some s /\
      convert int_of_string float_of_string t s = Ok v.
Proof.
  induction table as [|[o [p ty]] table IH]; intros acc m k v H Hk;
    cbn [overrides_from] in H.
  - injection H as <-. now left.
  - destruct (arguments !! o) as [s0|] eqn:Ha.
    + destruct (convert int_of_string float_of_string ty s0)
        as [v0|e|] eqn:Ec; try discriminate.
      destruct (IH _ _ _ _ H Hk) as [Hacc | (opt & t & s & Hin & Hs & Hc)].
      * destruct (String.eqb_spec p k) as [-> | Hne].
        -- rewrite lookup_insert_eq in Hacc. injection Hacc as ->.
           right. exists o, ty, s0. split; [now left | now split].
        -- rewrite lookup_insert_ne in Hacc by exact Hne. now left.
      * right. exists opt, t, s. split; [now right | now split].
    + destruct (IH _ _ _ _ H Hk) as [Hacc | (opt & t & s & Hin & Hs & Hc)].
      * now left.
      * right. exists opt, t, s. split; [now right | now split].
Qed.

(** An option that was given is stored under its parameter, when no other
    entry of the table names that parameter. *)
Lemma overrides_from_stores (table : list (string * (string * ptype))) :
  forall acc m opt param t s,
    overrides_from int_of_string float_of_string table arguments acc = Ok m ->
    In (opt, (param, t)) table ->
    (forall opt' t',
        In (opt', (param, t')) table -> opt' = opt /\ t' = t) ->
    arguments !! opt = Some s ->
    exists v,
      convert int_of_string float_of_string t s = Ok v /\
      m !! param = Some v.
Proof.
  induction table as [|[o [p ty]] table IH];
    intros acc m opt param t s H Hin Huniq Hs; [destruct Hin|].
  destruct (forallb (fun e => negb (String.eqb (fst (snd e)) param)) table)
    eqn:Hfree.
  - destruct Hin as [Heq | Hin].
    + injection Heq as -> -> ->. cbn [overrides_from] in H.
      rewrite Hs in H.
      destruct (convert int_of_string float_of_string t s)
        as [v|e|] eqn:Ec; try discriminate.
      exists v. split; [reflexivity|].
      rewrite (overrides_from_other int_of_string float_of_string arguments
                 param table Hfree _ H).
      apply lookup_insert_eq.
    + exfalso. rewrite forallb_forall in Hfree.
      specialize (Hfree _ Hin). cbn [fst snd] in Hfree.
      rewrite String.eqb_refl in Hfree. discriminate.
  - assert (Hin' : In (opt, (param, t)) table).
    { apply forallb_false_In in Hfree as ([o' [p' t']] & Hx & Hf).
      cbn [fst snd] in Hf. apply negb_false_iff, String.eqb_eq in Hf.
      subst p'. destruct (Huniq o' t' (or_intror Hx)) as [-> ->].
      exact Hx. }
    assert (Huniq' : forall opt' t',
               In (opt', (param, t')) table -> opt' = opt /\ t' = t)
      by (intros opt' t' Hx; apply Huniq; now right).
    cbn [overrides_from] in H.
    destruct (arguments !! o) as [s0|].
    + destruct (convert int_of_string float_of_string ty s0)
        as [v0|e|]; try discriminate.
      exact (IH _ _ _ _ _ _ H Hin' Huniq' Hs).
    + exact (IH _ _ _ _ _ _ H Hin' Huniq' Hs).
Qed.

End OverridesContents.

(** But for the two options of the duplication width, every parameter is
    named by one entry of [cli_opt_to_param]. *)
Lemma cli_parameter_named_once (opt opt' param : string) (t t' : ptype) :
  In (opt, (param, t)) cli_opt_to_param ->
  In (opt', (param, t')) cli_opt_to_param ->
  param <> "min_dup_del_width"%string ->
  opt' = opt /\ t' = t.
Proof.
  intros Hin Hin' Hne.
  assert (Hb :
            forallb
              (fun e =>
                 forallb
                   (fun e' =>
                      negb (String.eqb (fst (snd e)) (fst (snd e')))
                      || String.eqb (fst (snd e)) "min_dup_del_width"
                      || (String.eqb (fst e') (fst e)
                          && match snd (snd e'), snd (snd e) with
                             | Pint, Pint | Pstr, Pstr | Pfloat, Pfloat =>
                                 true
                             | _, _ => false
                             end))
                   cli_opt_to_param)
              cli_opt_to_param = true)
    by (vm_compute; reflexivity).
  rewrite forallb_forall in Hb. specialize (Hb _ Hin).
  rewrite forallb_forall in Hb. specialize (Hb _ Hin').
  cbn [fst snd] in Hb.
  rewrite String.eqb_refl in Hb. cbn [negb orb] in Hb.
  destruct (String.eqb_spec param "min_dup_del_width") as [E | _];
    [contradiction|].
  cbn [orb] in Hb. apply andb_true_iff in Hb as [Ho Ht].
  apply String.eqb_eq in Ho. split; [exact Ho|].
  destruct t, t'; (reflexivity || discriminate).
Qed.

(** X19.  The dict comprehension of [cli_overrides] returns a dict exactly when
    every option given on the command line converts to the type that
    [cli_opt_to_param] names for it.  Otherwise it raises [ValueError], and
    then some given option of type [int] or [float] holds a string that
    the type refuses; an option of type [str] never makes it fail. *)
Theorem cli_overrides_raises_on_unreadable_number
        (int_of_string : string -> option Z)
        (float_of_string : string -> option Q)
        (arguments : gmap string string) :
  match cli_overrides int_of_string float_of_string arguments with
  | Ok _ =>
      forall opt param t s,
        In (opt, (param, t)) cli_opt_to_param ->
        arguments !! opt = Some s ->
        exists v, convert int_of_string float_of_string t s = Ok v
  | Raise e =>
      e = ValueError /\
      exists opt param t s,
        In (opt, (param, t)) cli_opt_to_param /\
        arguments !! opt = Some s /\
        t <> Pstr /\
        convert int_of_string float_of_string t s = Raise ValueError
  | OutOfFuel => False
  end.
Proof.
  rewrite cli_overrides_unfold. apply overrides_from_outcome.
Qed.

(** A run with [--num-gen=many] stops on the conversion. *)
Example cli_overrides_unreadable :
  cli_overrides decimal_int decimal_float
                {[ "--num-gen"%string := "many"%string;
                   "--fitness"%string := "nat"%string ]}
  = Raise ValueError.
Proof. vm_compute. reflexivity. Qed.

(** X20.  Every option of the table that is given on the command line, but for
    the two options of the duplication width, is found in the overrides
    under its parameter name, converted to its type. *)
Theorem cli_overrides_store_given_options
        (int_of_string : string -> option Z)
        (float_of_string : string -> option Q)
        (arguments : gmap string string) (m : gmap string pvalue)
        (opt param : string) (t : ptype) (s : string) :
  cli_overrides int_of_string float_of_string arguments = Ok m ->
  In (opt, (param, t)) cli_opt_to_param ->
  param <> "min_dup_del_width"%string ->
  arguments !! opt = Some s ->
  exists v,
    convert int_of_string float_of_string t s = Ok v /\
    m !! param = Some v.
Proof.
  intros H Hin Hne Hs. rewrite cli_overrides_unfold in H.
  apply (@overrides_from_stores int_of_string float_of_string arguments
           cli_opt_to_param ∅ m opt param t s H Hin); [|exact Hs].
  intros opt' t' Hin'. exact (cli_parameter_named_once Hin Hin' Hne).
Qed.

(** The statement above for [--num-gen=30 --fitness=nat]. *)
Lemma cli_overrides_store_given_options_witness :
  exists v,
    convert decimal_int decimal_float Pint "30" = Ok v /\
    ({[ "ngen"%string := Vint 30;
        "fitness_function"%string := Vstr "nat" ]} : gmap string pvalue)
      !! "ngen"%string = Some v.
Proof.
  apply (@cli_overrides_store_given_options
           decimal_int decimal_float
           {[ "--num-gen"%string := "30"%string;
              "--fitness"%string := "nat"%string ]}
           {[ "ngen"%string := Vint 30;
              "fitness_function"%string := Vstr "nat" ]}
           "--num-gen"%string "ngen"%string Pint "30"%string).
  - vm_compute. reflexivity.
  - do 7 right. left. reflexivity.
  - discriminate.
  - vm_compute. reflexivity.
Defined.

(** X21.
    The overrides hold nothing but what the command line gives: every entry
    is the converted value of a given option that [cli_opt_to_param] maps
    to that parameter.  A parameter none of whose options is given is not
    overridden. *)
Theorem cli_overrides_hold_only_given_options
        (int_of_string : string -> option Z)
        (float_of_string : string -> option Q)
        (arguments : gmap string string) (m : gmap string pvalue) :
  cli_overrides int_of_string float_of_string arguments = Ok m ->
  (forall param v,
      m !! param = Some v ->
      exists opt t s,
        In (opt, (param, t)) cli_opt_to_param /\
        arguments !! opt = Some s /\
        convert int_of_string float_of_string t s = Ok v) /\
  (forall param,
      (forall opt t,
          In (opt, (param, t)) cli_opt_to_param -> arguments !! opt = None) ->
      m !! param = None).
Proof.
  intros H. rewrite cli_overrides_unfold in H.
  assert (Hsound : forall param v,
             m !! param = Some v ->
             exists opt t s,
               In (opt, (param, t)) cli_opt_to_param /\
               arguments !! opt = Some s /\
               convert int_of_string float_of_string t s = Ok v).
  { intros param v Hv.
    destruct (@overrides_from_sound int_of_string float_of_string arguments
                cli_opt_to_param ∅ m param v H Hv) as [Hacc | Hex];
      [|exact Hex].
    rewrite lookup_empty in Hacc. discriminate. }
  split; [exact Hsound|].
  intros param Hnone. destruct (m !! param) as [v|] eqn:Hv; [|reflexivity].
  destruct (Hsound param v Hv) as (opt & t & s & Hin & Hs & _).
  rewrite (Hnone opt t Hin) in Hs. discriminate.
Qed.

(** The statement above for [--num-gen=30 --fitness=nat]. *)
Lemma cli_overrides_hold_only_given_options_witness :
  (forall param v,
      ({[ "ngen"%string := Vint 30;
          "fitness_function"%string := Vstr "nat" ]} : gmap string pvalue)
        !! param = Some v ->
      exists opt t s,
        In (opt, (param, t)) cli_opt_to_param /\
        ({[ "--num-gen"%string := "30"%string;
            "--fitness"%string := "nat"%string ]} : gmap string string)
          !! opt = Some s /\
        convert decimal_int decimal_float t s = Ok v) /\
  (forall param,
      (forall opt t,
          In (opt, (param, t)) cli_opt_to_param ->
          ({[ "--num-gen"%string := "30"%string;
              "--fitness"%string := "nat"%string ]} : gmap string string)
            !! opt = None) ->
      ({[ "ngen"%string := Vint 30;
          "fitness_function"%string := Vstr "nat" ]} : gmap string pvalue)
        !! param = None).
Proof.
  apply (@cli_overrides_hold_only_given_options
           decimal_int decimal_float
           {[ "--num-gen"%string := "30"%string;
              "--fitness"%string := "nat"%string ]}
           {[ "ngen"%string := Vint 30;
              "fitness_function"%string := Vstr "nat" ]}).
  vm_compute. reflexivity.
Defined.

(** ** The state that gets no count *)

Lemma runs_from_states (rows : list state) :
  forall c, map fst (runs_from c rows) = run_ends rows.
Proof.
  induction rows as [|a [|b t] IH]; intros c; try reflexivity.
  rewrite runs_from_unfold, run_ends_unfold.
  destruct (state_eqb a b); [apply IH | cbn [map fst]; now rewrite IH].
Qed.

(** Every row is a run end or the final row. *)
Lemma rows_in_unique_states (rows : list state) (final x : state) :
  last_item rows = Ok final ->
  In x rows -> In x (run_ends rows) \/ x = final.
Proof.
  induction rows as [|a [|b t] IH]; intros Hl Hx.
  - destruct Hx.
  - cbn in Hl. injection Hl as <-. destruct Hx as [<- | []]. now right.
  - rewrite last_item_cons in Hl by discriminate.
    rewrite run_ends_unfold.
    destruct (state_eqb a b) eqn:E.
    + apply state_eqb_eq in E. subst b.
      apply IH; [exact Hl|]. destruct Hx as [<- | Hx]; [now left | exact Hx].
    + destruct Hx as [<- | Hx]; [left; now left|].
      destruct (IH Hl Hx) as [H | H]; [left; now right | now right].
Qed.

Lemma key_lt_sorted_NoDup (l : list state) :
  StronglySorted key_lt l -> List.NoDup l.
Proof.
  induction 1 as [|a l Hl IH Ha]; constructor; [|exact IH].
  intros Hin.
  exact (key_lt_irrefl (proj1 (List.Forall_forall _ _) Ha a Hin)).
Qed.

Lemma sorted_snoc_below {A} (R : A -> A -> Prop) (l : list A) (x : A) :
  StronglySorted R (l ++ [x]) -> Forall (fun y => R y x) l.
Proof.
  induction l as [|a l IH]; cbn [app]; intros H; [constructor|].
  inversion H as [|? ? Hs Ha]; subst. constructor.
  - apply (proj1 (List.Forall_forall _ _) Ha). apply in_or_app.
    right. now left.
  - now apply IH.
Qed.

(** X22.  On every game with at least one timestep, the default call of
    [_most_common_states] returns all the states of the game but one: the
    state that [np.lexsort] puts last (the greatest, last unit most
    significant) is never among them, every other state is, and the pairs
    are one fewer than the distinct states. *)
Theorem most_common_states_miss_greatest_state (game : list (list state)) :
  reshape game <> [] ->
  exists res greatest,
    _most_common_states game None = Ok res /\
    In greatest (reshape game) /\
    (forall x, In x (reshape game) -> x = greatest \/ key_lt x greatest) /\
    (forall x,
        In x (map fst res) <-> In x (reshape game) /\ x <> greatest) /\
    S (length res) = length (distinct_states game).
Proof.
  intros Hne.
  destruct (most_common_states_default_length game Hne)
    as (pairs & res & Hp & Hres & Hperm & _).
  rewrite states_and_counts_runs in Hp.
  destruct (reshape game) as [|r0 g0] eqn:Eg; [congruence|].
  injection Hp as Hp. rewrite <- Eg in *. clear Eg r0 g0.
  set (rows := take_rows (reshape game) (lexsort (reshape game))) in *.
  assert (Hrows : rows <> []).
  { intros E. apply (f_equal (@length state)) in E.
    unfold rows in E. rewrite sorted_game_length in E.
    destruct (reshape game); [congruence | discriminate]. }
  destruct (last_item_nonempty Hrows) as [final Hfinal].
  pose proof (unique_states_ascending (sorted_game_sorted (reshape game))
                                      Hfinal) as Hasc.
  fold rows in Hasc.
  pose proof (@sorted_snoc_below _ _ _ _ Hasc) as Hbelow.
  assert (Hstates : Permutation (map fst res) (run_ends rows)).
  { rewrite (Permutation_map fst Hperm), <- Hp. now rewrite runs_from_states. }
  assert (Hin_rows : forall x, In x rows <-> In x (reshape game)).
  { intros x. split; apply Permutation_in;
      [| apply Permutation_sym]; apply sorted_game_perm. }
  exists res, final. split; [exact Hres|]. split; [|split; [|split]].
  - apply Hin_rows. now apply last_item_In.
  - intros x Hx. apply Hin_rows in Hx.
    destruct (@rows_in_unique_states rows final x Hfinal Hx) as [H | H];
      [right | now left].
    exact (proj1 (List.Forall_forall _ _) Hbelow x H).
  - intros x. split.
    + intros Hx. apply (Permutation_in _ Hstates) in Hx. split.
      * apply Hin_rows. now apply run_ends_In.
      * intros ->.
        exact (key_lt_irrefl
                 (proj1 (List.Forall_forall _ _) Hbelow final Hx)).
    + intros [Hx Hn]. apply Hin_rows in Hx.
      apply (Permutation_in _ (Permutation_sym Hstates)).
      destruct (@rows_in_unique_states rows final x Hfinal Hx) as [H | H];
        [exact H | contradiction].
  - unfold distinct_states.
    assert (Hnd : Permutation (run_ends rows ++ [final])
                              (nodup (List.list_eq_dec Z.eq_dec)
                                     (reshape game))).
    { apply Permutation.NoDup_Permutation.
      - now apply key_lt_sorted_NoDup.
      - apply List.NoDup_nodup.
      - intros x. rewrite List.nodup_In, <- Hin_rows. split.
        + intros Hx. apply in_app_or in Hx as [Hx | [<- | []]].
          * now apply run_ends_In.
          * now apply last_item_In.
        + intros Hx. apply in_or_app.
          destruct (@rows_in_unique_states rows final x Hfinal Hx) as [H | ->];
            [now left | right; now left]. }
    rewrite <- (Permutation_length Hnd), length_app.
    rewrite <- (Permutation_length Hstates), length_map. cbn [length]. lia.
Qed.

(** The statement above on a game of two trials of three timesteps. *)
Lemma most_common_states_miss_greatest_state_witness :
  exists res greatest,
    _most_common_states [[[1]; [0]; [1]]; [[2]; [1]; [0]]] None = Ok res /\
    In greatest (reshape [[[1]; [0]; [1]]; [[2]; [1]; [0]]]) /\
    (forall x,
        In x (reshape [[[1]; [0]; [1]]; [[2]; [1]; [0]]]) ->
        x = greatest \/ key_lt x greatest) /\
    (forall x,
        In x (map fst res)
        <-> In x (reshape [[[1]; [0]; [1]]; [[2]; [1]; [0]]]) /\
            x <> greatest) /\
    S (length res)
    = length (distinct_states [[[1]; [0]; [1]]; [[2]; [1]; [0]]]).
Proof.
  apply (@most_common_states_miss_greatest_state
           [[[1]; [0]; [1]]; [[2]; [1]; [0]]]).
  discriminate.
Defined.
